(** * Syllabification of IPA transcriptions: a model of [syllabifiers/ipa.py]

    The development embeds the regular expressions built by [regex_en_ipa],
    the memoised [syllabify], the line processor [syllabify_line], the
    chunking iterator [chunk], the pool-based [syllabify_corpus_generator]
    and the writer loop of [syllabify_corpus], and proves properties of
    them. *)

From Stdlib Require Import ZArith NArith Lia Ascii String.
From stdpp Require Import list strings gmap.

Local Open Scope nat_scope.

(** ** Strings

    A Python [str] is a sequence of Unicode code points. *)

Definition char := N.
Definition str := list char.

(** Code points of an ASCII literal. *)
Definition u (x : string) : str := map N_of_ascii (list_ascii_of_string x).
Arguments u x%_string.

(** [sep.join(parts)] *)
Fixpoint join (sep : str) (parts : list str) : str :=
  match parts with
  | [] => []
  | [p] => p
  | p :: rest => p ++ sep ++ join sep rest
  end.

(** [s.split(sep)] for a one-character separator: every occurrence of the
    separator cuts; the empty string gives one empty field. *)
Fixpoint split_on (sep : char) (s : str) : list str :=
  match s with
  | [] => [[]]
  | x :: rest =>
      if decide (x = sep) then [] :: split_on sep rest
      else match split_on sep rest with
           | field :: fields => (x :: field) :: fields
           | [] => [[x]]
           end
  end.

(** [str.isspace] on one code point (the characters [str.strip()] removes). *)
Definition is_space (x : char) : bool :=
  ((9 <=? x) && (x <=? 13) || (28 <=? x) && (x <=? 32)
   || (x =? 133) || (x =? 160) || (x =? 5760)
   || (8192 <=? x) && (x <=? 8202)
   || (x =? 8232) || (x =? 8233) || (x =? 8239) || (x =? 8287)
   || (x =? 12288))%N.

Fixpoint lstrip (s : str) : str :=
  match s with
  | x :: rest => if is_space x then lstrip rest else s
  | [] => []
  end.

Definition strip (s : str) : str := reverse (lstrip (reverse (lstrip s))).

(** ** Regular expressions

    The fragment of the [regex] syntax that the two patterns of
    [regex_en_ipa] use, with the backtracking semantics of the engine: a
    matcher returns the cursors it can stop at, in the order the engine
    would try them. *)

Inductive regex :=
| Lit (s : str)            (* a literal sequence of characters *)
| Set_ (cs : str)          (* [cs] *)
| Bol                      (* ^ *)
| Eol                      (* $ *)
| Cat (r1 r2 : regex)
| Alt (r1 r2 : regex)      (* r1|r2 *)
| Star (r : regex)         (* r*, greedy *)
| Group (r : regex)        (* (r), capture group 1 *)
| Ahead (r : regex)        (* (?=r) *)
| Behind (r : regex).      (* (?<=r) *)

(** r+ *)
Definition Plus (r : regex) : regex := Cat r (Star r).

(** r1|r2|...|rn *)
Fixpoint alternatives (r : regex) (rs : list regex) : regex :=
  match rs with
  | [] => r
  | r' :: rs' => Alt r (alternatives r' rs')
  end.

(** A position in the subject: the text before it (nearest character
    first), the text after it, and the current value of group 1. *)
Record cursor := Cursor { before : str; after : str; group1 : option str }.

Definition consumed (c c' : cursor) : nat := length (after c) - length (after c').

(** The cursor [k] characters to the left. *)
Definition rewind (k : nat) (c : cursor) : cursor :=
  Cursor (drop k (before c)) (reverse (take k (before c)) ++ after c) (group1 c).

Definition newline : char := 10%N.

(** The greedy star: one more round of the body first, as long as the
    round moves forward, then the exit. At most one round per remaining
    character can move forward, which bounds the rounds. *)
Fixpoint iterate (body : cursor -> list cursor) (rounds : nat) (c : cursor)
  : list cursor :=
  match rounds with
  | O => [c]
  | S rounds' =>
      flat_map (fun c' => if length (after c') <? length (after c)
                          then iterate body rounds' c' else [])
               (body c) ++ [c]
  end.

Fixpoint matches (r : regex) (c : cursor) : list cursor :=
  match r with
  | Lit s =>
      if decide (take (length s) (after c) = s)
      then [Cursor (reverse s ++ before c) (drop (length s) (after c)) (group1 c)]
      else []
  | Set_ cs =>
      match after c with
      | x :: rest => if decide (x ∈ cs) then [Cursor (x :: before c) rest (group1 c)] else []
      | [] => []
      end
  | Bol => if decide (before c = []) then [c] else []
  | Eol => if decide (after c = [] ∨ after c = [newline]) then [c] else []
  | Cat r1 r2 => flat_map (matches r2) (matches r1 c)
  | Alt r1 r2 => matches r1 c ++ matches r2 c
  | Star r1 => iterate (matches r1) (length (after c)) c
  | Group r1 =>
      map (fun c' => Cursor (before c') (after c') (Some (take (consumed c c') (after c))))
          (matches r1 c)
  | Ahead r1 =>
      match matches r1 c with
      | c' :: _ => [Cursor (before c) (after c) (group1 c')]
      | [] => []
      end
  | Behind r1 =>
      if existsb (fun k => existsb (fun c' => length (after c') =? length (after c))
                                   (matches r1 (rewind k c)))
                 (seq 0 (S (length (before c))))
      then [c] else []
  end.

Fixpoint has_group (r : regex) : bool :=
  match r with
  | Group _ => true
  | Cat r1 r2 | Alt r1 r2 => has_group r1 || has_group r2
  | Star r1 | Ahead r1 | Behind r1 => has_group r1
  | _ => false
  end.

(** One match attempt at a position: the length of the match and the item
    [findall] reports for it (group 1 when the pattern has a group, the
    whole match otherwise). With [must_advance] an empty match is refused. *)
Definition attempt (r : regex) (pre rest : str) (must_advance : bool)
  : option (nat * str) :=
  let start := Cursor pre rest None in
  match filter (fun c' => must_advance = false ∨ 0 < consumed start c') (matches r start) with
  | c' :: _ =>
      Some (consumed start c',
            if has_group r then default [] (group1 c')
            else take (consumed start c') rest)
  | [] => None
  end.

(** The scan of [findall]: [skip] characters are still inside the previous
    match. After an empty match the next search starts at the same place
    and must advance. *)
Fixpoint scan (r : regex) (pre rest : str) (skip : nat) : list str :=
  let step k :=
    match rest with
    | [] => []
    | x :: rest' => scan r (x :: pre) rest' k
    end in
  match skip with
  | S k => step k
  | O =>
      match attempt r pre rest false with
      | None => step 0
      | Some (S n, item) => item :: step n
      | Some (O, item) =>
          match attempt r pre rest true with
          | Some (n', item') => item :: item' :: step (pred n')
          | None => item :: step 0
          end
      end
  end.

(** [pattern.findall(string)] *)
Definition findall (r : regex) (s : str) : list str := scan r [] s 0.

(** ** The patterns of [regex_en_ipa] *)

(** The alternatives that the interpolated ["|".join(...)] contributes: an
    empty tuple joins to the empty string, which is an empty alternative. *)
Definition joined (symbols : list str) : list regex :=
  match symbols with
  | [] => [Lit []]
  | _ => map Lit symbols
  end.

Section Profile.
Variables (vowels : str) (diphtongues : list str) (consonants : str).

(** [[vowels]|diphtongues], the nucleus of a syllable *)
Definition nucleus : regex := alternatives (Set_ vowels) (joined diphtongues).

(** [(?<=[vowels]|diphtongues|^)]: what must precede a syllable *)
Definition lookbehind : regex :=
  alternatives (Set_ vowels) (joined diphtongues ++ [Bol]).

(** Group 1: consonants (any number), a nucleus, consonants (any number) *)
Definition syllable_body : regex :=
  Cat (Star (Set_ consonants)) (Cat nucleus (Star (Set_ consonants))).

(** [(?:[vowels]|diphtongues|$)]: what must follow a syllable *)
Definition lookahead : regex :=
  alternatives (Set_ vowels) (joined diphtongues ++ [Eol]).

Definition syllable_here : regex :=
  Cat (Behind lookbehind) (Cat (Group syllable_body) lookahead).

(** The syllable pattern: everything sits inside one lookahead, so a match
    consumes nothing and the next search starts one character further. *)
Definition pattern_syllable : regex := Ahead syllable_here.

(** The consonant pattern: a lookbehind for the start of the string, one
    or more consonants, the end of the string. *)
Definition pattern_consonant : regex :=
  Cat (Behind Bol) (Cat (Plus (Set_ consonants)) Eol).
End Profile.

Definition en_vowels : str :=
  [230; 593; 601; 603; 105; 618; 596; 117; 650; 652]%N.
Definition en_diphtongues : list str :=
  [u "aj"; u "aw"; u "ej"; u "oj"; u "ow"].
Definition en_consonants : str :=
  [952; 119; 108; 109; 118; 104; 112; 609; 331; 115; 122; 98; 107; 643; 633;
   100; 110; 658; 106; 116; 240; 102; 865]%N.


(** [regex_en_ipa()]: the two compiled patterns. A compiled pattern is an
    object: it hashes by identity, which [pattern_id] stands for. *)
Record compiled := Compiled { pattern_id : positive; pattern : regex }.

Definition regex_en_ipa : compiled * compiled :=
  (Compiled 1 (pattern_syllable en_vowels en_diphtongues en_consonants),
   Compiled 2 (pattern_consonant en_consonants)).

(** ** The memoised [syllabify] *)

(** The [ipa_converter] argument is a function object: [lru_cache] hashes it
    by identity ([conv_id]); calling it transcribes a word. *)
Record converter := Converter { conv_id : positive; transliterate : str -> str }.

(** An argument of a call of [syllabify]: a string, a function object, a
    pair of compiled patterns or a flag. *)
Inductive value :=
| Text (s : str)
| Function (f : converter)
| Patterns (p : compiled * compiled)
| Flag (b : bool).

(** What [lru_cache] keeps of an argument: a string and a flag hash and
    compare by value, a function object and a compiled pattern by
    identity. *)
Definition key_part : Type := (str + positive + positive * positive + bool)%type.

Definition key_part_of (v : value) : key_part :=
  match v with
  | Text s => inl (inl (inl s))
  | Function f => inl (inl (inr (conv_id f)))
  | Patterns p => inl (inr (pattern_id (fst p), pattern_id (snd p)))
  | Flag b => inr b
  end.

(** [_make_key(args, kwds, typed=False)]: the positional arguments, then,
    after a mark, the keyword arguments with their names, in the order of
    the call. Two calls that pass the same values in different ways have
    different keys. *)
Definition key : Type := list key_part * list (string * key_part).

Definition make_key (args : list value) (kwds : list (string * value)) : key :=
  (map key_part_of args, map (fun item => (fst item, key_part_of (snd item))) kwds).

(** The call of [syllabify_line], with the four arguments passed by
    keyword. *)
Definition by_keyword (word : str) (ipa_converter : converter)
    (syllable_pattern : compiled * compiled) (add_boundaries : bool)
  : list (string * value) :=
  [("word"%string, Text word); ("ipa_converter"%string, Function ipa_converter);
   ("syllable_pattern"%string, Patterns syllable_pattern);
   ("add_boundaries"%string, Flag add_boundaries)].

Definition keyword_key (word : str) (ipa_converter : converter)
    (syllable_pattern : compiled * compiled) (add_boundaries : bool) : key :=
  make_key [] (by_keyword word ipa_converter syllable_pattern add_boundaries).

(** One interpreter process: the cache of [syllabify] and, as a call
    counter, the [findall] invocations made so far (pattern and subject). *)
Record process := Process {
  cache : gmap key str;
  invocations : list (positive * str)
}.

Definition M (A : Type) : Type := process -> A * process.

Definition m_ret {A} (a : A) : M A := fun st => (a, st).

Definition m_bind {A B} (x : M A) (f : A -> M B) : M B :=
  fun st => let (a, st') := x st in f a st'.

Notation "x <~ e ;; k" := (m_bind e (fun x => k))
  (at level 100, e at next level, right associativity).

Fixpoint m_map {A B} (f : A -> M B) (l : list A) : M (list B) :=
  match l with
  | [] => m_ret []
  | a :: l' => b <~ f a ;; bs <~ m_map f l' ;; m_ret (b :: bs)
  end.

Definition hash : str := u "#".
Definition underscore : str := u "_".

(** The body of [syllabify]: the result and the [findall] calls it makes. *)
Definition syllabify_body (word : str) (ipa_converter : converter)
    (syllable_pattern : compiled * compiled) (add_boundaries : bool)
  : str * list (positive * str) :=
  let regular_pattern := fst syllable_pattern in
  let consonant_pattern := snd syllable_pattern in
  let string := transliterate ipa_converter word in
  let syllable_matches := findall (pattern regular_pattern) string in
  let '(syllables, calls) :=
    match syllable_matches with
    | _ :: _ =>
        (join underscore syllable_matches, [(pattern_id regular_pattern, string)])
    | [] =>
        (join underscore (findall (pattern consonant_pattern) string),
         [(pattern_id regular_pattern, string);
          (pattern_id consonant_pattern, string)])
    end in
  (if add_boundaries then hash ++ syllables ++ hash else syllables, calls).

(** [@lru_cache(maxsize=None)]: a hit returns the stored value and runs
    nothing; a miss runs the body and stores its result. This is the call
    [syllabify(word=..., ipa_converter=..., syllable_pattern=...,
    add_boundaries=...)] that [syllabify_line] makes, the four arguments by
    keyword. *)
Definition syllabify (word : str) (ipa_converter : converter)
    (syllable_pattern : compiled * compiled) (add_boundaries : bool) : M str :=
  fun st =>
    let k := keyword_key word ipa_converter syllable_pattern add_boundaries in
    match cache st !! k with
    | Some value => (value, st)
    | None =>
        let '(value, calls) :=
          syllabify_body word ipa_converter syllable_pattern add_boundaries in
        (value, Process (<[k := value]> (cache st)) (invocations st ++ calls))
    end.

(** The parameters of [syllabify], in the order of its signature. *)
Definition parameters : list string :=
  ["word"; "ipa_converter"; "syllable_pattern"; "add_boundaries"]%string.

Fixpoint bound_to (name : string) (bound : list (string * value)) : option value :=
  match bound with
  | [] => None
  | (name', v) :: rest => if decide (name' = name) then Some v else bound_to name rest
  end.

(** The binding of the arguments of a call to the parameters: positional
    arguments go to the first parameters, keyword arguments to the
    parameters they name, and [add_boundaries] defaults to [True]. Too many
    positional arguments, an unknown name, a parameter given twice or a
    required parameter left out raise [TypeError] ([None]). A call whose
    arguments are not a string, a function, a pair of patterns and a flag is
    left out of the model ([None] as well). *)
Definition bind (args : list value) (kwds : list (string * value))
  : option (str * converter * (compiled * compiled) * bool) :=
  let bound := zip parameters args ++ kwds in
  if bool_decide (length args <= length parameters
                  /\ NoDup (map fst bound)
                  /\ Forall (fun name => name ∈ parameters) (map fst kwds))
  then
    match bound_to "word" bound, bound_to "ipa_converter" bound,
          bound_to "syllable_pattern" bound,
          default (Flag true) (bound_to "add_boundaries" bound) with
    | Some (Text word), Some (Function ipa_converter), Some (Patterns syllable_pattern),
      Flag add_boundaries =>
        Some (word, ipa_converter, syllable_pattern, add_boundaries)
    | _, _, _, _ => None
    end
  else None.

(** A call of the memoised function in any form, with positional arguments
    [args] and keyword arguments [kwds]: the key is looked up first; on a
    miss the function is called, and its result stored under the key. *)
Definition syllabify_call (args : list value) (kwds : list (string * value))
  : M (option str) :=
  fun st =>
    let k := make_key args kwds in
    match cache st !! k with
    | Some value => (Some value, st)
    | None =>
        match bind args kwds with
        | None => (None, st)
        | Some (word, ipa_converter, syllable_pattern, add_boundaries) =>
            let '(value, calls) :=
              syllabify_body word ipa_converter syllable_pattern add_boundaries in
            (Some value, Process (<[k := value]> (cache st)) (invocations st ++ calls))
        end
    end.

(** Calls made one after the other in one process. *)
Fixpoint run_calls (calls : list (list value * list (string * value))) (st : process)
  : process :=
  match calls with
  | [] => st
  | (args, kwds) :: calls' => run_calls calls' (snd (syllabify_call args kwds st))
  end.

(** ** Lines *)

(** The [not_symbol_pattern] argument, used through [.sub(repl, line)]. *)
Record substituter := Substituter { sub : str -> str -> str }.

Inductive line_result :=
| Event (cues outcomes : str)
| Syllables (syllables : list str).

Section Lines.
(** [str.lower], which follows the Unicode case tables. *)
Variable lower : str -> str.

Definition tokenize (line : str) : list str :=
  let line := split_on 32%N (lower (strip line)) in
  filter (fun word => word ≠ []) line.

(** The loop of [syllabify_line] over the words. *)
Fixpoint syllabify_words (words : list str) (ipa_converter : converter)
    (syllable_pattern : compiled * compiled) (add_boundaries : bool)
    (syllables : list str) : M (list str) :=
  match words with
  | [] => m_ret syllables
  | word :: words' =>
      s <~ syllabify word ipa_converter syllable_pattern add_boundaries ;;
      syllabify_words words' ipa_converter syllable_pattern add_boundaries
        (if decide (s ≠ u "##") then syllables ++ [s] else syllables)
  end.

Definition syllabify_line (line : str) (ipa_converter : converter)
    (syllable_pattern : compiled * compiled) (not_symbol_pattern : substituter)
    (add_boundaries as_event : bool) : M line_result :=
  let line := sub not_symbol_pattern (u " ") line in
  let words := tokenize line in
  syllables <~ syllabify_words words ipa_converter syllable_pattern
                 add_boundaries [] ;;
  m_ret (if as_event
         then Event (join underscore syllables) (join underscore words)
         else Syllables syllables).

(** ** Chunks and the worker pool *)

(** [iter(lambda: list(islice(iterator, chunksize)), [])]: slices are taken
    until one is empty. *)
Fixpoint chunks_from {A} (fuel : nat) (iterator : list A) (chunksize : nat)
  : list (list A) :=
  match fuel with
  | O => []
  | S fuel' =>
      match take chunksize iterator with
      | [] => []
      | item => item :: chunks_from fuel' (drop chunksize iterator) chunksize
      end
  end.

(** [sys.maxsize], on a 64-bit interpreter. *)
Definition sys_maxsize : Z := (2 ^ 63 - 1)%Z.

(** [chunk(iterable, chunksize)]; [islice] raises [ValueError] ([None]) on
    a stop that is negative or above [sys.maxsize]. *)
Definition chunk {A} (iterable : list A) (chunksize : Z) : option (list (list A)) :=
  if ((chunksize <? 0) || (sys_maxsize <? chunksize))%Z then None
  else Some (chunks_from (S (length iterable)) iterable (Z.to_nat chunksize)).

(** The tasks of one [imap] call. Task [i] runs on the worker the scheduler
    gives it ([assign i]); a worker runs its tasks one after the other, in
    its own process; the results come back in task order. *)
Fixpoint run_tasks {A B} (func : A -> M B) (assign : nat -> nat) (i : nat)
    (tasks : list (list A)) (workers : list process) : list B * list process :=
  match tasks with
  | [] => ([], workers)
  | task :: tasks' =>
      let w := assign i mod length workers in
      match workers !! w with
      | Some st =>
          let '(results, st') := m_map func task st in
          let '(more, workers') :=
            run_tasks func assign (S i) tasks' (<[w := st']> workers) in
          (results ++ more, workers')
      | None => ([], workers)
      end
  end.

(** [pool.imap(func, iterable, chunksize)], read to its end. *)
Definition imap {A B} (func : A -> M B) (iterable : list A) (chunksize : Z)
    (assign : nat -> nat) (workers : list process)
  : option (list B * list process) :=
  if (chunksize <? 1)%Z then None
  else match chunk iterable chunksize with
       | Some tasks => Some (run_tasks func assign 0 tasks workers)
       | None => None
       end.

(** The [for _chunk in chunk(...)] loop of the generator; [sched j] is the
    scheduler's assignment during the [j]-th [imap]. *)
Fixpoint yield_from_chunks {A B} (func : A -> M B) (chunksize : Z)
    (sched : nat -> nat -> nat) (j : nat) (chunks : list (list A))
    (workers : list process) : option (list B) :=
  match chunks with
  | [] => Some []
  | _chunk :: chunks' =>
      match imap func _chunk chunksize (sched j) workers with
      | None => None
      | Some (results, workers') =>
          match yield_from_chunks func chunksize sched (S j) chunks' workers' with
          | None => None
          | Some more => Some (results ++ more)
          end
      end
  end.

(** [syllabify_corpus_generator], read to its end: [None] is the
    [ValueError] of [Pool] or [islice]. The workers start as copies of the
    calling process [parent]. *)
Definition syllabify_corpus_generator (lines : list str)
    (ipa_converter : converter) (syllable_pattern : compiled * compiled)
    (not_symbol_pattern : substituter) (add_boundaries as_event : bool)
    (numcores chunksize : Z) (parent : process) (sched : nat -> nat -> nat)
  : option (list line_result) :=
  let _syllabify line :=
    syllabify_line line ipa_converter syllable_pattern not_symbol_pattern
      add_boundaries as_event in
  if (numcores <? 1)%Z then None
  else
    let pool := replicate (Z.to_nat numcores) parent in
    match chunk lines (chunksize * numcores) with
    | None => None
    | Some chunks => yield_from_chunks _syllabify chunksize sched 0 chunks pool
    end.

(** [cues, outcomes = syllabified] *)
Definition unpack (syllabified : line_result) : option (str * str) :=
  match syllabified with
  | Event cues outcomes => Some (cues, outcomes)
  | Syllables [cues; outcomes] => Some (cues, outcomes)
  | Syllables _ => None
  end.

(** The writes of the loop of [syllabify_corpus], one per result. *)
Fixpoint write_events (results : list line_result) : option (list str) :=
  match results with
  | [] => Some []
  | syllabified :: results' =>
      match unpack syllabified with
      | None => None
      | Some (cues, outcomes) =>
          match write_events results' with
          | None => None
          | Some written => Some ((cues ++ [9%N] ++ outcomes ++ [newline]) :: written)
          end
      end
  end.

(** [syllabify_corpus]: what is written to the event file for the lines of
    the corpus. *)
Definition syllabify_corpus (corpus : list str) (ipa_converter : converter)
    (syllable_pattern : compiled * compiled) (not_symbol_pattern : substituter)
    (add_boundaries : bool) (numcores chunksize : Z) (parent : process)
    (sched : nat -> nat -> nat) : option (list str) :=
  match syllabify_corpus_generator corpus ipa_converter syllable_pattern
          not_symbol_pattern add_boundaries true numcores chunksize parent sched with
  | None => None
  | Some results => write_events results
  end.

End Lines.

(** ** Worked inputs *)

Definition ascii_lower (s : str) : str :=
  map (fun x => if ((65 <=? x) && (x <=? 90))%N then (x + 32)%N else x) s.

(** A converter that maps every letter to itself as a phoneme. *)
Definition identity_converter : converter := Converter 1 (fun word => word).

(** A converter whose transcription is always empty. *)
Definition silent_converter : converter := Converter 2 (fun _ => []).

(** A converter that has no symbol for the letter [x] and leaves it out. *)
Definition dropping_converter : converter :=
  Converter 9 (fun word => filter (fun x => x <> 120%N) word).

(** Three ways of passing the word ["ti"], the identity converter, the
    English patterns and [True]: by keyword as [syllabify_line] does,
    positionally, and positionally with the default of [add_boundaries]
    left out. *)
Definition keyword_ti : list value * list (string * value) :=
  ([], by_keyword (u "ti") identity_converter regex_en_ipa true).

Definition positional_ti : list value * list (string * value) :=
  ([Text (u "ti"); Function identity_converter; Patterns regex_en_ipa; Flag true], []).

Definition default_ti : list value * list (string * value) :=
  ([Text (u "ti"); Function identity_converter; Patterns regex_en_ipa], []).

(** A pattern for [[^a-z ]]: every other character becomes the replacement. *)
Definition not_lowercase : substituter :=
  Substituter (fun repl line =>
    flat_map (fun x => if ((97 <=? x) && (x <=? 122) || (x =? 32))%N then [x] else repl) line).

Definition fresh : process := Process ∅ [].

(** The inventory of the example with vowels [aeiou] and consonants
    [ptkmn], once with the diphthongs of English and once with none. *)
Definition five_vowels : compiled * compiled :=
  (Compiled 3 (pattern_syllable (u "aeiou") en_diphtongues (u "ptkmn")),
   Compiled 4 (pattern_consonant (u "ptkmn"))).

Definition five_vowels_no_diphtongues : compiled * compiled :=
  (Compiled 5 (pattern_syllable (u "aeiou") [] (u "ptkmn")),
   Compiled 6 (pattern_consonant (u "ptkmn"))).

(** The scheduler that gives task [i] to worker [i] (modulo the pool). *)
Definition round_robin : nat -> nat -> nat := fun _ i => i.

(** ** Coherent caches

    A cache is coherent for a converter and a pattern when each value it
    stores under the key of a call of [syllabify_line] with them is the
    value the body of [syllabify] computes. *)

Definition syllabify_value (word : str) (ipa_converter : converter)
    (syllable_pattern : compiled * compiled) (add_boundaries : bool) : str :=
  fst (syllabify_body word ipa_converter syllable_pattern add_boundaries).

Definition cache_ok (ipa_converter : converter)
    (syllable_pattern : compiled * compiled) (st : process) : Prop :=
  forall word add_boundaries value,
    cache st !! keyword_key word ipa_converter syllable_pattern add_boundaries = Some value ->
    value = syllabify_value word ipa_converter syllable_pattern add_boundaries.

(** The value of [syllabify_line] when every call of [syllabify] returns
    what its body computes. *)
Definition line_value (lower : str -> str) (line : str) (ipa_converter : converter)
    (syllable_pattern : compiled * compiled) (not_symbol_pattern : substituter)
    (add_boundaries as_event : bool) : line_result :=
  let words := tokenize lower (sub not_symbol_pattern (u " ") line) in
  let syllables :=
    filter (fun s => s <> u "##")
      (map (fun word => syllabify_value word ipa_converter syllable_pattern
                          add_boundaries) words) in
  if as_event then Event (join underscore syllables) (join underscore words)
  else Syllables syllables.

(** ** Phonemic strings

    A phonemic string over an inventory is an onset of consonants followed
    by segments, each a nucleus (one vowel or one diphthong) and the
    consonants after it. *)

Definition profile_ok (vowels : str) (diphtongues : list str) (consonants : str) : Prop :=
  (forall x, x ∈ consonants -> x ∉ vowels)
  /\ diphtongues <> []
  /\ Forall (fun d => exists x y, d = [x; y] /\ (x ∉ vowels) /\ (x ∉ consonants)
                                  /\ (y ∈ consonants)) diphtongues.

Definition nucleus_symbol (vowels : str) (diphtongues : list str) (n : str) : Prop :=
  (exists v, n = [v] /\ v ∈ vowels) \/ n ∈ diphtongues.

Definition spell (segments : list (str * str)) : str :=
  flat_map (fun segment => fst segment ++ snd segment) segments.

Definition well_formed (vowels : str) (diphtongues : list str) (consonants : str)
    (onset : str) (segments : list (str * str)) : Prop :=
  Forall (fun x => x ∈ consonants) onset
  /\ Forall (fun segment => nucleus_symbol vowels diphtongues (fst segment)
                            /\ Forall (fun x => x ∈ consonants) (snd segment))
            segments.

(** The syllables of a phonemic string: each nucleus with the consonants on
    both sides of it, up to the neighbouring nuclei. *)
Fixpoint syllables_of (onset : str) (segments : list (str * str)) : list str :=
  match segments with
  | [] => []
  | (n, coda) :: segments' => (onset ++ n ++ coda) :: syllables_of coda segments'
  end.

(** The consonant runs that stand between two nuclei. *)
Definition inner_codas (segments : list (str * str)) : list str :=
  removelast (map snd segments).

Definition count (x : char) (s : str) : nat := count_occ N.eq_dec s x.

(** ** Notions used in the proofs *)

(** A lookbehind holds when its body matches some stretch that ends at the
    cursor. *)
Definition looks_behind (r : regex) (c : cursor) : Prop :=
  exists k c', k <= length (before c) /\ In c' (matches r (rewind k c))
               /\ length (after c') = length (after c).

(** A cursor on the empty subject. *)
Definition blank (c : cursor) : Prop :=
  before c = [] /\ after c = [] /\ (group1 c = None \/ group1 c = Some []).

(** The scan from the next character on. *)
Definition next_scan (r : regex) (pre rest : str) : list str :=
  match rest with
  | [] => []
  | x :: rest' => scan r (x :: pre) rest' 0
  end.

(** The text before the cursor ends where a syllable may start. *)
Definition at_boundary (vowels : str) (diphtongues : list str) (pre : str) : Prop :=
  pre = []
  \/ (exists v pre', pre = v :: pre' /\ v ∈ vowels)
  \/ (exists d, d ∈ diphtongues /\ take (length d) pre = reverse d).

Definition edge (vowels consonants : str) (pre : str) : Prop :=
  match pre with
  | [] => True
  | z :: _ => z ∈ vowels \/ z ∈ consonants
  end.

(** What follows a syllable: nothing, or the next nucleus. *)
Definition follows (vowels : str) (diphtongues : list str) (tail : str) : Prop :=
  tail = [] \/ exists n rest, nucleus_symbol vowels diphtongues n /\ tail = n ++ rest.

(** ** The rest of the module *)

(** [s.replace(old, new)]: the occurrences of [old] are found from the left
    and do not overlap; [skip] characters still belong to the occurrence
    just replaced. An empty [old] puts [new] before every character and at
    the end. *)
Fixpoint replace_from (old new s : str) (skip : nat) : str :=
  match s with
  | [] => []
  | x :: rest =>
      match skip with
      | S k => replace_from old new rest k
      | O =>
          if decide (take (length old) s = old)
          then new ++ replace_from old new rest (pred (length old))
          else x :: replace_from old new rest 0
      end
  end.

Definition replace (old new s : str) : str :=
  match old with
  | [] => new ++ flat_map (fun x => x :: new) s
  | _ => replace_from old new s 0
  end.

(** The turned r with the syllabic mark below, and what replaces it: schwa
    and turned r. *)
Definition syllabic_r : str := [633; 809]%N.
Definition schwa_r : str := [601; 633]%N.

(** [english_to_ipa], over [epi_en.transliterate] *)
Definition english_to_ipa (epi_en : str -> str) (sequence : str) : str :=
  let string_ipa := replace syllabic_r schwa_r (epi_en sequence) in
  string_ipa.

(** [polish_to_ipa], over [epi_pol.transliterate] *)
Definition polish_to_ipa (epi_pol : str -> str) (sequence : str) : str :=
  let string_ipa := epi_pol sequence in
  string_ipa.

(** The symbols of [regex_pol_ipa]. The consonants and the special
    consonants, joined by bars, stand together between one pair of brackets:
    that is one character class, holding every character of the text
    between the brackets, the bars included. *)
Definition pol_vowels : str := [97; 603; 105; 616; 596; 117]%N.
Definition pol_special_vowels : list str := [[603; 771]; [596; 771]]%N.
Definition pol_consonants : str :=
  [597; 657; 656; 611; 626; 642; 120; 119; 108; 109; 118; 112; 609; 331; 115;
   122; 98; 107; 100; 114; 110; 106; 116; 102]%N.
Definition pol_special_consonants : list str :=
  [[100; 865; 122]; [100; 865; 657]; [100; 865; 656]; [116; 865; 597];
   [116; 865; 115]; [116; 865; 642]; [609; 690]; [107; 690]]%N.
Definition pol_consonant_class : str :=
  pol_consonants ++ u "|" ++ join (u "|") pol_special_consonants.

Definition regex_pol_ipa : compiled * compiled :=
  (Compiled 7 (pattern_syllable pol_vowels pol_special_vowels pol_consonant_class),
   Compiled 8 (pattern_consonant pol_consonant_class)).

(** [corpus_first_lines(corpus, n)], read to its end: the lines it yields
    and what is left of the iterator [corpus]. *)
Fixpoint first_lines_loop {A} (corpus : list A) (n : nat) : list A * list A :=
  match n with
  | O => ([], corpus)
  | S n' =>
      match corpus with
      | [] => ([], [])
      | line :: corpus' =>
          let '(lines, remaining) := first_lines_loop corpus' n' in
          (line :: lines, remaining)
      end
  end.

Definition corpus_first_lines {A} (corpus : list A) (n : Z) : list A * list A :=
  first_lines_loop corpus (Z.to_nat n).

(** A text is a piece of another. *)
Definition substring (item s : str) : Prop :=
  exists prefix suffix, s = prefix ++ item ++ suffix.

(** The shape of one syllable: consonants, a nucleus, consonants. *)
Definition syllable_shaped (vowels : str) (diphtongues : list str)
    (consonants : str) (item : str) : Prop :=
  exists onset n coda,
    item = onset ++ n ++ coda
    /\ Forall (fun x => x ∈ consonants) onset
    /\ nucleus_symbol vowels diphtongues n
    /\ Forall (fun x => x ∈ consonants) coda.

(** An inventory whose special vowels are a vowel followed by a mark that is
    neither a vowel nor a consonant, as in [regex_pol_ipa]. *)
Definition nasal_profile_ok (vowels : str) (diphtongues : list str) (consonants : str)
  : Prop :=
  (forall x, x ∈ consonants -> x ∉ vowels)
  /\ diphtongues <> []
  /\ Forall (fun d => exists v t, d = [v; t] /\ (v ∈ vowels) /\ (t ∉ vowels)
                                  /\ (t ∉ consonants) /\ t <> newline) diphtongues.

(** * Properties *)

#[local] Arguments matches : simpl never.
#[local] Arguments iterate : simpl never.


(** ** Chunking *)

Lemma chunks_from_spec {A} (fuel : nat) (iterator : list A) (n : nat) :
  0 < n -> length iterator < fuel ->
  let chunks := chunks_from fuel iterator n in
  concat chunks = iterator
  /\ Forall (fun item => item <> [] /\ length item <= n) chunks
  /\ (forall i item, chunks !! i = Some item -> S i < length chunks -> length item = n).
Proof.
  intros Hn. revert iterator.
  induction fuel as [|fuel IH]; intros iterator Hlen; [lia|].
  simpl. destruct (take n iterator) as [|x item] eqn:Htake.
  - destruct iterator as [|y iterator]; [|destruct n; [lia|discriminate]].
    split; [reflexivity|]. split; [constructor|]. intros i item Hi. discriminate.
  - assert (Hdrop : length (drop n iterator) < fuel).
    { destruct iterator as [|y iterator]; [destruct n; discriminate|].
      rewrite length_drop. simpl in *. lia. }
    destruct (IH _ Hdrop) as (Hcat & Hall & Hfull).
    split; [|split].
    + change (concat ((x :: item) :: chunks_from fuel (drop n iterator) n))
        with ((x :: item) ++ concat (chunks_from fuel (drop n iterator) n)).
      rewrite Hcat, <- Htake. apply take_drop.
    + constructor; [|exact Hall]. split; [discriminate|].
      rewrite <- Htake, length_take. lia.
    + intros [|i] item' Hi Hlast; simpl in *.
      * injection Hi as <-. rewrite <- Htake, length_take.
        destruct (chunks_from fuel (drop n iterator) n) as [|next rest] eqn:Hnext;
          [simpl in Hlast; lia|].
        assert (drop n iterator <> []).
        { intros Hnil. rewrite Hnil in Hnext. destruct fuel; simpl in Hnext;
            [discriminate|]. destruct n; discriminate. }
        assert (n < length iterator); [|lia].
        destruct (decide (n < length iterator)); [assumption|].
        exfalso. apply H. apply drop_ge. lia.
      * apply (Hfull i); [assumption|lia].
Qed.

Lemma chunk_in_range {A} (l : list A) (n : Z) :
  (0 <= n <= sys_maxsize)%Z ->
  chunk l n = Some (chunks_from (S (length l)) l (Z.to_nat n)).
Proof.
  intros Hn. unfold chunk.
  destruct (Z.ltb_spec n 0); [lia|]. destruct (Z.ltb_spec sys_maxsize n); [lia|].
  reflexivity.
Qed.

Lemma chunk_out_of_range {A} (l : list A) (n : Z) :
  (n < 0 \/ sys_maxsize < n)%Z -> chunk l n = None.
Proof.
  intros Hn. unfold chunk.
  destruct (Z.ltb_spec n 0); [reflexivity|].
  destruct (Z.ltb_spec sys_maxsize n); [reflexivity|lia].
Qed.

(** ** Coherent caches *)

Lemma cache_ok_fresh conv pat : cache_ok conv pat fresh.
Proof. intros word ab value H. simpl in H. rewrite lookup_empty in H. discriminate. Qed.

Lemma keyword_key_inj w1 w2 conv pat b1 b2 :
  keyword_key w1 conv pat b1 = keyword_key w2 conv pat b2 -> w1 = w2 /\ b1 = b2.
Proof. unfold keyword_key, make_key. cbn. intros H. injection H as -> ->. split; reflexivity. Qed.

Lemma syllabify_ok word conv pat ab st :
  cache_ok conv pat st ->
  fst (syllabify word conv pat ab st) = syllabify_value word conv pat ab
  /\ cache_ok conv pat (snd (syllabify word conv pat ab st)).
Proof.
  intros Hok. unfold syllabify.
  destruct (cache st !! keyword_key word conv pat ab) as [value|] eqn:Hlook.
  - split; [apply (Hok _ _ _ Hlook)|exact Hok].
  - unfold syllabify_value.
    destruct (syllabify_body word conv pat ab) as [value calls] eqn:Hbody.
    split; [reflexivity|].
    intros word' ab' value' H. simpl in H.
    destruct (decide (keyword_key word conv pat ab = keyword_key word' conv pat ab')) as [E|E].
    + rewrite E, lookup_insert_eq in H. injection H as <-.
      apply keyword_key_inj in E as [<- <-]. unfold syllabify_value. rewrite Hbody.
      reflexivity.
    + rewrite lookup_insert_ne in H by exact E. apply (Hok _ _ _ H).
Qed.

(** ** Stateful functions with a pure value *)

Section Pure.
Context {A B : Type} (func : A -> M B) (value : A -> B) (inv : process -> Prop).
Hypothesis func_ok :
  forall a st, inv st -> fst (func a st) = value a /\ inv (snd (func a st)).

Lemma m_map_ok (l : list A) (st : process) :
  inv st -> fst (m_map func l st) = map value l /\ inv (snd (m_map func l st)).
Proof using func_ok.
  revert st. induction l as [|a l IH]; intros st Hst; simpl.
  - split; [reflexivity|exact Hst].
  - unfold m_bind. destruct (func_ok a st Hst) as [Hv Hi].
    destruct (func a st) as [b st1]. simpl in Hv, Hi.
    destruct (IH st1 Hi) as [Hv' Hi'].
    destruct (m_map func l st1) as [bs st2]. simpl in *.
    split; [congruence|exact Hi'].
Qed.

Lemma run_tasks_ok (assign : nat -> nat) (tasks : list (list A)) :
  forall (i : nat) (workers : list process),
    workers <> [] -> Forall inv workers ->
    fst (run_tasks func assign i tasks workers) = map value (concat tasks)
    /\ Forall inv (snd (run_tasks func assign i tasks workers))
    /\ length (snd (run_tasks func assign i tasks workers)) = length workers.
Proof using func_ok.
  induction tasks as [|task tasks IH]; intros i workers Hne Hall; simpl.
  - repeat split; [exact Hall].
  - assert (Hlt : assign i mod length workers < length workers).
    { apply Nat.mod_upper_bound. destruct workers; [congruence|simpl; lia]. }
    destruct (lookup_lt_is_Some_2 _ _ Hlt) as [st Hst]. rewrite Hst.
    assert (Hinv : inv st) by (eapply Forall_lookup_1; eassumption).
    destruct (m_map_ok task st Hinv) as [Hv Hi].
    destruct (m_map func task st) as [results st']. simpl in Hv, Hi.
    set (workers1 := <[assign i mod length workers := st']> workers).
    assert (Hne1 : workers1 <> []).
    { intros E. apply (f_equal length) in E. unfold workers1 in E.
      rewrite length_insert in E. destruct workers; [congruence|discriminate]. }
    assert (Hall1 : Forall inv workers1).
    { unfold workers1. apply Forall_insert; assumption. }
    destruct (IH (S i) workers1 Hne1 Hall1) as (Hv' & Hi' & Hl').
    destruct (run_tasks func assign (S i) tasks workers1) as [more workers2].
    simpl in *. split; [|split].
    + rewrite map_app. congruence.
    + exact Hi'.
    + rewrite Hl'. unfold workers1. apply length_insert.
Qed.

Lemma chunk_concat (l : list A) (n : Z) :
  (1 <= n <= sys_maxsize)%Z -> exists chunks, chunk l n = Some chunks /\ concat chunks = l.
Proof.
  intros Hn. rewrite chunk_in_range by lia.
  eexists. split; [reflexivity|].
  apply (chunks_from_spec (S (length l)) l (Z.to_nat n)); lia.
Qed.

Lemma imap_ok (iterable : list A) (chunksize : Z) (assign : nat -> nat)
    (workers : list process) :
  (1 <= chunksize <= sys_maxsize)%Z -> workers <> [] -> Forall inv workers ->
  exists workers',
    imap func iterable chunksize assign workers = Some (map value iterable, workers')
    /\ workers' <> [] /\ Forall inv workers'.
Proof using func_ok.
  intros Hn Hne Hall. unfold imap. destruct (Z.ltb_spec chunksize 1); [lia|].
  destruct (chunk_concat iterable chunksize Hn) as (tasks & -> & Hcat).
  destruct (run_tasks_ok assign tasks 0 workers Hne Hall) as (Hv & Hi & Hl).
  destruct (run_tasks func assign 0 tasks workers) as [results workers'].
  simpl in *. exists workers'. rewrite Hv, Hcat. split; [reflexivity|].
  split; [|exact Hi]. intros ->. destruct workers; [congruence|discriminate].
Qed.

Lemma yield_from_chunks_ok (chunksize : Z) (sched : nat -> nat -> nat)
    (chunks : list (list A)) :
  (1 <= chunksize <= sys_maxsize)%Z ->
  forall (j : nat) (workers : list process),
    workers <> [] -> Forall inv workers ->
    yield_from_chunks func chunksize sched j chunks workers
    = Some (map value (concat chunks)).
Proof using func_ok.
  intros Hn. induction chunks as [|c chunks IH]; intros j workers Hne Hall; simpl.
  - reflexivity.
  - destruct (imap_ok c chunksize (sched j) workers Hn Hne Hall)
      as (workers' & -> & Hne' & Hall').
    rewrite (IH (S j) workers' Hne' Hall'), map_app. reflexivity.
Qed.

End Pure.

(** ** Lines and the corpus *)

Section LineProperties.
Variable lower : str -> str.

Lemma syllabify_words_ok words conv pat ab :
  forall syllables st,
    cache_ok conv pat st ->
    fst (syllabify_words words conv pat ab syllables st)
    = syllables ++ filter (fun s => s <> u "##")
                     (map (fun word => syllabify_value word conv pat ab) words)
    /\ cache_ok conv pat (snd (syllabify_words words conv pat ab syllables st)).
Proof.
  induction words as [|word words IH]; intros syllables st Hok; simpl.
  - rewrite app_nil_r. split; [reflexivity|exact Hok].
  - unfold m_bind. destruct (syllabify_ok word conv pat ab st Hok) as [Hv Hi].
    destruct (syllabify word conv pat ab st) as [s st1]. simpl in Hv, Hi. subst s.
    destruct (IH (if decide (syllabify_value word conv pat ab <> u "##")
                  then syllables ++ [syllabify_value word conv pat ab]
                  else syllables) st1 Hi) as [Hv' Hi'].
    split; [|exact Hi']. rewrite Hv'. rewrite filter_cons.
    destruct (decide (syllabify_value word conv pat ab <> u "##")).
    + rewrite <- app_assoc. reflexivity.
    + reflexivity.
Qed.

Lemma syllabify_line_ok line conv pat nsp ab as_event st :
  cache_ok conv pat st ->
  fst (syllabify_line lower line conv pat nsp ab as_event st)
  = line_value lower line conv pat nsp ab as_event
  /\ cache_ok conv pat (snd (syllabify_line lower line conv pat nsp ab as_event st)).
Proof.
  intros Hok. unfold syllabify_line, line_value, m_bind.
  destruct (syllabify_words_ok (tokenize lower (sub nsp (u " ") line)) conv pat ab [] st Hok)
    as [Hv Hi].
  destruct (syllabify_words _ conv pat ab [] st) as [syllables st1].
  simpl in *. subst syllables. split; [reflexivity|exact Hi].
Qed.

Lemma generator_ok lines conv pat nsp ab as_event numcores chunksize parent sched :
  (1 <= numcores)%Z -> (1 <= chunksize)%Z -> (chunksize * numcores <= sys_maxsize)%Z ->
  cache_ok conv pat parent ->
  syllabify_corpus_generator lower lines conv pat nsp ab as_event numcores
    chunksize parent sched
  = Some (map (fun line => line_value lower line conv pat nsp ab as_event) lines).
Proof.
  intros Hcores Hsize Hmax Hok. unfold syllabify_corpus_generator.
  destruct (Z.ltb_spec numcores 1); [lia|].
  destruct (chunk_concat lines (chunksize * numcores)) as (chunks & -> & Hcat); [nia|].
  rewrite <- Hcat.
  apply (yield_from_chunks_ok _ _ (cache_ok conv pat)).
  - intros line st Hst. apply syllabify_line_ok. exact Hst.
  - nia.
  - intros E. apply (f_equal length) in E. rewrite length_replicate in E.
    simpl in E. lia.
  - apply Forall_replicate. exact Hok.
Qed.

End LineProperties.

(** ** The matcher *)

Lemma flat_map_nil {A B} (f : A -> list B) (l : list A) :
  (forall x, In x l -> f x = []) -> flat_map f l = [].
Proof.
  induction l as [|a l IH]; intros H; simpl; [reflexivity|].
  rewrite (H a) by (left; reflexivity). apply IH. intros x Hx. apply H. right. exact Hx.
Qed.

Lemma matches_cat r1 r2 c :
  matches (Cat r1 r2) c = flat_map (matches r2) (matches r1 c).
Proof. reflexivity. Qed.

Lemma matches_alt r1 r2 c : matches (Alt r1 r2) c = matches r1 c ++ matches r2 c.
Proof. reflexivity. Qed.

Lemma matches_star r c : matches (Star r) c = iterate (matches r) (length (after c)) c.
Proof. reflexivity. Qed.

Lemma matches_alternatives r rs c :
  matches (alternatives r rs) c = matches r c ++ flat_map (fun r' => matches r' c) rs.
Proof.
  revert r. induction rs as [|r' rs IH]; intros r; simpl.
  - rewrite app_nil_r. reflexivity.
  - rewrite matches_alt, IH. reflexivity.
Qed.

Lemma iterate_S body rounds c :
  iterate body (S rounds) c
  = flat_map (fun c' => if length (after c') <? length (after c)
                        then iterate body rounds c' else [])
             (body c) ++ [c].
Proof. reflexivity. Qed.

Lemma matches_set_cons cs pre x rest g :
  matches (Set_ cs) (Cursor pre (x :: rest) g)
  = if decide (x ∈ cs) then [Cursor (x :: pre) rest g] else [].
Proof. reflexivity. Qed.

Lemma iterate_set_greedy cs run :
  forall rounds pre rest g,
    Forall (fun x => x ∈ cs) run ->
    (forall x rest', rest = x :: rest' -> x ∉ cs) ->
    length run <= rounds ->
    exists others,
      iterate (matches (Set_ cs)) rounds (Cursor pre (run ++ rest) g)
      = Cursor (reverse run ++ pre) rest g :: others.
Proof.
  induction run as [|x run IH]; intros rounds pre rest g Hrun Hrest Hlen.
  - destruct rounds as [|rounds]; [exists []; reflexivity|].
    exists []. rewrite iterate_S. destruct rest as [|y rest']; [reflexivity|].
    simpl app. rewrite matches_set_cons.
    destruct (decide (y ∈ cs)) as [Hy|Hy]; [|reflexivity].
    exfalso. exact (Hrest y rest' eq_refl Hy).
  - destruct rounds as [|rounds]; [simpl in Hlen; lia|].
    apply Forall_cons in Hrun as [Hx Hrun].
    destruct (IH rounds (x :: pre) rest g Hrun Hrest) as [others Hothers];
      [simpl in Hlen; lia|].
    exists (others ++ [Cursor pre ((x :: run) ++ rest) g]).
    rewrite iterate_S. simpl app at 1. rewrite matches_set_cons.
    destruct (decide (x ∈ cs)); [|contradiction].
    cbn [flat_map after]. rewrite Hothers.
    destruct (_ <? _) eqn:Hlt; [|apply Nat.ltb_ge in Hlt; simpl in Hlt; lia].
    rewrite app_nil_r, reverse_cons, <- app_assoc. reflexivity.
Qed.

Lemma iterate_set_after cs rounds :
  forall c c', In c' (iterate (matches (Set_ cs)) rounds c) ->
    exists k, after c' = drop k (after c).
Proof.
  induction rounds as [|rounds IH]; intros c c' Hin.
  - destruct Hin as [<-|[]]. exists 0. reflexivity.
  - rewrite iterate_S in Hin.
    apply in_app_or in Hin as [Hin|[<-|[]]]; [|exists 0; reflexivity].
    apply in_flat_map in Hin as (c1 & Hc1 & Hin).
    destruct c as [pre [|x rest] g]; [destruct Hc1|].
    rewrite matches_set_cons in Hc1.
    destruct (decide (x ∈ cs)); [|destruct Hc1].
    destruct Hc1 as [<-|[]]. cbn [after] in Hin.
    destruct (length rest <? length (x :: rest)); [|destruct Hin].
    destruct (IH _ _ Hin) as [k Hk]. exists (S k). exact Hk.
Qed.

Lemma matches_star_set_after cs c c' :
  In c' (matches (Star (Set_ cs)) c) -> exists k, after c' = drop k (after c).
Proof. apply iterate_set_after. Qed.

Lemma matches_star_set_greedy cs run pre rest g :
  Forall (fun x => x ∈ cs) run ->
  (forall x rest', rest = x :: rest' -> x ∉ cs) ->
  exists others,
    matches (Star (Set_ cs)) (Cursor pre (run ++ rest) g)
    = Cursor (reverse run ++ pre) rest g :: others.
Proof.
  intros Hrun Hrest. rewrite matches_star. apply iterate_set_greedy; [assumption..|].
  cbn [after]. rewrite length_app. lia.
Qed.

(** Lookbehind *)

Lemma matches_behind r c :
  matches (Behind r) c
  = if existsb (fun k => existsb (fun c' => length (after c') =? length (after c))
                                 (matches r (rewind k c)))
               (seq 0 (S (length (before c))))
    then [c] else [].
Proof. reflexivity. Qed.

Lemma matches_behind_true r c : looks_behind r c -> matches (Behind r) c = [c].
Proof.
  intros (k & c' & Hk & Hin & Hlen). rewrite matches_behind.
  replace (existsb _ _) with true; [reflexivity|]. symmetry.
  apply existsb_exists. exists k. split; [apply in_seq; lia|].
  apply existsb_exists. exists c'. split; [exact Hin|]. apply Nat.eqb_eq. exact Hlen.
Qed.

Lemma matches_behind_false r c : ~ looks_behind r c -> matches (Behind r) c = [].
Proof.
  intros Hno. rewrite matches_behind.
  destruct (existsb _ _) eqn:E; [|reflexivity]. exfalso. apply Hno.
  apply existsb_exists in E as (k & Hk & E).
  apply existsb_exists in E as (c' & Hin & E).
  exists k, c'. apply in_seq in Hk. apply Nat.eqb_eq in E. repeat split; [lia|assumption..].
Qed.

Lemma rewind_after_length k c :
  k <= length (before c) -> length (after (rewind k c)) = k + length (after c).
Proof.
  intros Hk. unfold rewind. cbn [after].
  rewrite length_app, length_reverse, length_take. lia.
Qed.

Lemma matches_lit d c :
  matches (Lit d) c
  = if decide (take (length d) (after c) = d)
    then [Cursor (reverse d ++ before c) (drop (length d) (after c)) (group1 c)]
    else [].
Proof. reflexivity. Qed.

Lemma matches_bol c : matches Bol c = if decide (before c = []) then [c] else [].
Proof. reflexivity. Qed.

Lemma matches_eol c :
  matches Eol c = if decide (after c = [] \/ after c = [newline]) then [c] else [].
Proof. reflexivity. Qed.

Lemma matches_set cs c :
  matches (Set_ cs) c
  = match after c with
    | x :: rest => if decide (x ∈ cs) then [Cursor (x :: before c) rest (group1 c)] else []
    | [] => []
    end.
Proof. reflexivity. Qed.

Lemma behind_set cs c :
  looks_behind (Set_ cs) c <-> exists x pre, before c = x :: pre /\ x ∈ cs.
Proof.
  split.
  - intros (k & c' & Hk & Hin & Hlen).
    pose proof (rewind_after_length k c Hk) as Hre.
    rewrite matches_set in Hin.
    destruct (after (rewind k c)) as [|x rest] eqn:Hafter; [destruct Hin|].
    destruct (decide (x ∈ cs)) as [Hx|]; [|destruct Hin].
    destruct Hin as [<-|[]]. cbn [after] in Hlen. simpl in Hre.
    assert (k = 1) by lia. subst k.
    destruct (before c) as [|b pre] eqn:Hb; [simpl in Hk; lia|].
    unfold rewind in Hafter. rewrite Hb in Hafter. cbn in Hafter.
    injection Hafter as -> _. exists x, pre. split; [reflexivity|exact Hx].
  - intros (x & pre & Hb & Hx). exists 1, (Cursor (x :: pre) (after c) (group1 c)).
    rewrite Hb. split; [simpl; lia|]. split; [|reflexivity].
    unfold rewind. rewrite Hb. cbn. rewrite take_0, drop_0. cbn. rewrite matches_set_cons.
    destruct (decide (x ∈ cs)); [left; reflexivity|contradiction].
Qed.

Lemma behind_lit d c :
  looks_behind (Lit d) c <-> take (length d) (before c) = reverse d.
Proof.
  split.
  - intros (k & c' & Hk & Hin & Hlen).
    pose proof (rewind_after_length k c Hk) as Hre.
    rewrite matches_lit in Hin.
    destruct (decide (take (length d) (after (rewind k c)) = d)) as [Hd|];
      [|destruct Hin].
    destruct Hin as [<-|[]]. cbn [after] in Hlen.
    rewrite length_drop in Hlen.
    assert (Hdl : length d <= length (after (rewind k c))).
    { apply (f_equal length) in Hd. rewrite length_take in Hd. lia. }
    assert (k = length d) by lia. subst k.
    unfold rewind in Hd. cbn [after] in Hd.
    rewrite take_app_length' in Hd by (rewrite length_reverse, length_take; lia).
    apply (f_equal reverse) in Hd. rewrite reverse_involutive in Hd. exact Hd.
  - intros Hd.
    assert (Hk : length d <= length (before c)).
    { apply (f_equal length) in Hd. rewrite length_take, length_reverse in Hd. lia. }
    exists (length d), (Cursor (reverse d ++ drop (length d) (before c)) (after c) (group1 c)).
    split; [exact Hk|]. split; [|reflexivity].
    unfold rewind. rewrite Hd, reverse_involutive, matches_lit. cbn [after before group1].
    rewrite take_app_length, drop_app_length.
    destruct (decide _); [left; reflexivity|contradiction].
Qed.

Lemma behind_bol c : looks_behind Bol c <-> before c = [].
Proof.
  split.
  - intros (k & c' & Hk & Hin & Hlen).
    pose proof (rewind_after_length k c Hk) as Hre.
    rewrite matches_bol in Hin.
    destruct (decide (before (rewind k c) = [])) as [Hb|]; [|destruct Hin].
    destruct Hin as [<-|[]]. assert (k = 0) by lia. subst k.
    unfold rewind in Hb. cbn in Hb. exact Hb.
  - intros Hb. exists 0, (rewind 0 c). rewrite Hb. split; [simpl; lia|].
    split; [|reflexivity]. rewrite matches_bol.
    destruct (decide _) as [|Hne]; [left; reflexivity|].
    exfalso. apply Hne. unfold rewind. cbn [before]. rewrite Hb. reflexivity.
Qed.

Lemma behind_alternatives r rs c :
  looks_behind (alternatives r rs) c
  <-> looks_behind r c \/ exists r', In r' rs /\ looks_behind r' c.
Proof.
  split.
  - intros (k & c' & Hk & Hin & Hlen). rewrite matches_alternatives in Hin.
    apply in_app_or in Hin as [Hin|Hin].
    + left. exists k, c'. auto.
    + right. apply in_flat_map in Hin as (r' & Hr' & Hin). exists r'.
      split; [exact Hr'|]. exists k, c'. auto.
  - intros [(k & c' & Hk & Hin & Hlen)|(r' & Hr' & k & c' & Hk & Hin & Hlen)];
      exists k, c'; (split; [exact Hk|]); (split; [|exact Hlen]);
      rewrite matches_alternatives; apply in_or_app.
    + left. exact Hin.
    + right. apply in_flat_map. exists r'. auto.
Qed.

(** Captures *)

Lemma matches_group r c :
  matches (Group r) c
  = map (fun c' => Cursor (before c') (after c') (Some (take (consumed c c') (after c))))
        (matches r c).
Proof. reflexivity. Qed.

Lemma matches_ahead r c :
  matches (Ahead r) c
  = match matches r c with
    | c' :: _ => [Cursor (before c) (after c) (group1 c')]
    | [] => []
    end.
Proof. reflexivity. Qed.

Lemma iterate_keeps_group body rounds :
  (forall c c', In c' (body c) -> group1 c' = group1 c) ->
  forall c c', In c' (iterate body rounds c) -> group1 c' = group1 c.
Proof.
  intros Hbody. induction rounds as [|rounds IH]; intros c c' Hin.
  - destruct Hin as [<-|[]]. reflexivity.
  - rewrite iterate_S in Hin. apply in_app_or in Hin as [Hin|[<-|[]]]; [|reflexivity].
    apply in_flat_map in Hin as (c1 & Hc1 & Hin).
    destruct (_ <? _); [|destruct Hin].
    rewrite (IH _ _ Hin). apply Hbody. exact Hc1.
Qed.

Lemma matches_keeps_group r :
  has_group r = false ->
  forall c c', In c' (matches r c) -> group1 c' = group1 c.
Proof.
  induction r as [s|cs| | |r1 IH1 r2 IH2|r1 IH1 r2 IH2|r IH|r IH|r IH|r IH];
    intros Hg c c' Hin; cbn [has_group] in Hg.
  - rewrite matches_lit in Hin. destruct (decide _); [|destruct Hin].
    destruct Hin as [<-|[]]. reflexivity.
  - rewrite matches_set in Hin. destruct (after c); [destruct Hin|].
    destruct (decide _); [|destruct Hin]. destruct Hin as [<-|[]]. reflexivity.
  - rewrite matches_bol in Hin. destruct (decide _); [|destruct Hin].
    destruct Hin as [<-|[]]. reflexivity.
  - rewrite matches_eol in Hin. destruct (decide _); [|destruct Hin].
    destruct Hin as [<-|[]]. reflexivity.
  - apply orb_false_iff in Hg as [Hg1 Hg2]. rewrite matches_cat in Hin.
    apply in_flat_map in Hin as (c1 & Hc1 & Hin).
    rewrite (IH2 Hg2 _ _ Hin). apply (IH1 Hg1 _ _ Hc1).
  - apply orb_false_iff in Hg as [Hg1 Hg2]. rewrite matches_alt in Hin.
    apply in_app_or in Hin as [Hin|Hin]; [apply (IH1 Hg1 _ _ Hin)|apply (IH2 Hg2 _ _ Hin)].
  - rewrite matches_star in Hin. apply (iterate_keeps_group _ _ (IH Hg) _ _ Hin).
  - discriminate.
  - rewrite matches_ahead in Hin. destruct (matches r c) as [|c1 l] eqn:E; [destruct Hin|].
    destruct Hin as [<-|[]]. cbn [group1]. apply (IH Hg c). rewrite E. left. reflexivity.
  - rewrite matches_behind in Hin. destruct (existsb _ _); [|destruct Hin].
    destruct Hin as [<-|[]]. reflexivity.
Qed.

(** The scan *)

Lemma scan_0 r pre rest :
  scan r pre rest 0
  = let step k := match rest with
                  | [] => []
                  | x :: rest' => scan r (x :: pre) rest' k
                  end in
    match attempt r pre rest false with
    | None => step 0
    | Some (S n, item) => item :: step n
    | Some (O, item) =>
        match attempt r pre rest true with
        | Some (n', item') => item :: item' :: step (pred n')
        | None => item :: step 0
        end
    end.
Proof. destruct rest; reflexivity. Qed.

Lemma scan_S r pre x rest k : scan r pre (x :: rest) (S k) = scan r (x :: pre) rest k.
Proof. reflexivity. Qed.

Lemma attempt_none r pre rest b :
  matches r (Cursor pre rest None) = [] -> attempt r pre rest b = None.
Proof. intros H. unfold attempt. rewrite H. reflexivity. Qed.

Lemma scan_no_match r rest :
  forall pre,
    (forall k pre', matches r (Cursor pre' (drop k rest) None) = []) ->
    scan r pre rest 0 = [].
Proof.
  induction rest as [|x rest IH]; intros pre Hno.
  - rewrite scan_0, (attempt_none r pre [] false); [reflexivity|]. apply (Hno 0).
  - rewrite scan_0, (attempt_none r pre (x :: rest) false) by apply (Hno 0).
    cbn zeta. apply IH. intros k pre'. apply (Hno (S k)).
Qed.

Lemma attempt_ahead r pre rest :
  attempt (Ahead r) pre rest true = None
  /\ attempt (Ahead r) pre rest false
     = match matches r (Cursor pre rest None) with
       | c' :: _ => Some (0, if has_group r then default [] (group1 c') else [])
       | [] => None
       end.
Proof.
  unfold attempt. rewrite matches_ahead.
  destruct (matches r (Cursor pre rest None)) as [|c' l]; [split; reflexivity|].
  split.
  - rewrite filter_cons. destruct (decide _) as [[H|H]|]; [discriminate| |reflexivity].
    unfold consumed in H. cbn [after] in H. lia.
  - rewrite filter_cons. destruct (decide _) as [|H]; [|exfalso; apply H; left; reflexivity].
    unfold consumed. cbn [after has_group group1]. rewrite Nat.sub_diag, take_0.
    reflexivity.
Qed.

Lemma scan_ahead r pre rest :
  scan (Ahead r) pre rest 0
  = match matches r (Cursor pre rest None) with
    | c' :: _ => [if has_group r then default [] (group1 c') else []]
    | [] => []
    end
    ++ match rest with
       | [] => []
       | x :: rest' => scan (Ahead r) (x :: pre) rest' 0
       end.
Proof.
  rewrite scan_0. destruct (attempt_ahead r pre rest) as [-> ->].
  destruct (matches r (Cursor pre rest None)); reflexivity.
Qed.

(** The empty subject *)

Lemma matches_blank r : forall c c', blank c -> In c' (matches r c) -> blank c'.
Proof.
  induction r as [s|cs| | |r1 IH1 r2 IH2|r1 IH1 r2 IH2|r IH|r IH|r IH|r IH];
    intros c c' Hc Hin.
  - rewrite matches_lit in Hin. destruct (decide _) as [Hs|]; [|destruct Hin].
    destruct Hin as [<-|[]]. destruct Hc as (Hb & Ha & Hg).
    rewrite Ha, take_nil in Hs. subst s. rewrite Ha, Hb. repeat split. exact Hg.
  - rewrite matches_set in Hin. destruct Hc as (Hb & Ha & Hg). rewrite Ha in Hin.
    destruct Hin.
  - rewrite matches_bol in Hin. destruct (decide _); [|destruct Hin].
    destruct Hin as [<-|[]]. exact Hc.
  - rewrite matches_eol in Hin. destruct (decide _); [|destruct Hin].
    destruct Hin as [<-|[]]. exact Hc.
  - rewrite matches_cat in Hin. apply in_flat_map in Hin as (c1 & Hc1 & Hin).
    apply (IH2 c1); [apply (IH1 c)|]; assumption.
  - rewrite matches_alt in Hin. apply in_app_or in Hin as [Hin|Hin];
      [apply (IH1 c)|apply (IH2 c)]; assumption.
  - rewrite matches_star in Hin. destruct Hc as (Hb & Ha & Hg). rewrite Ha in Hin.
    destruct Hin as [<-|[]]. repeat split; assumption.
  - rewrite matches_group in Hin. apply in_map_iff in Hin as (c1 & <- & Hc1).
    destruct (IH _ _ Hc Hc1) as (Hb1 & Ha1 & Hg1). destruct Hc as (Hb & Ha & Hg).
    unfold blank. cbn [before after group1]. rewrite Ha, take_nil. auto.
  - rewrite matches_ahead in Hin. destruct (matches r c) as [|c1 l] eqn:E; [destruct Hin|].
    destruct Hin as [<-|[]]. destruct (IH c c1 Hc) as (Hb1 & Ha1 & Hg1);
      [rewrite E; left; reflexivity|].
    destruct Hc as (Hb & Ha & Hg). unfold blank. cbn [before after group1]. auto.
  - rewrite matches_behind in Hin. destruct (existsb _ _); [|destruct Hin].
    destruct Hin as [<-|[]]. exact Hc.
Qed.

Lemma attempt_end_must_advance r pre : attempt r pre [] true = None.
Proof.
  unfold attempt.
  assert (H : forall l,
    filter (fun c' => true = false \/ 0 < consumed (Cursor pre [] None) c') l = []).
  { induction l as [|c l IH]; [reflexivity|]. rewrite filter_cons.
    destruct (decide _) as [[H|H]|_]; [discriminate|unfold consumed in H; simpl in H; lia|].
    exact IH. }
  rewrite H. reflexivity.
Qed.

Lemma attempt_empty r :
  attempt r [] [] false = None \/ attempt r [] [] false = Some (0, []).
Proof.
  unfold attempt.
  assert (Hall : forall c', In c' (matches r (Cursor [] [] None)) -> blank c').
  { intros c'. apply matches_blank. repeat split. left. reflexivity. }
  destruct (matches r (Cursor [] [] None)) as [|c1 l]; [left; reflexivity|].
  destruct (Hall c1) as (Hb & Ha & Hg); [left; reflexivity|].
  rewrite filter_cons.
  destruct (decide (false = false \/ _)) as [_|H]; [|exfalso; apply H; left; reflexivity].
  right. unfold consumed. cbn [after length Nat.sub].
  destruct (has_group r); [|reflexivity]. destruct Hg as [-> | ->]; reflexivity.
Qed.

Lemma findall_empty r : findall r [] = [] \/ findall r [] = [[]].
Proof.
  unfold findall. rewrite scan_0. cbn zeta.
  destruct (attempt_empty r) as [-> | ->]; [left; reflexivity|].
  rewrite attempt_end_must_advance. right. reflexivity.
Qed.

Lemma join_findall_empty r : join underscore (findall r []) = [].
Proof. destruct (findall_empty r) as [-> | ->]; reflexivity. Qed.

Lemma flat_map_head {A B} (f : A -> list B) (l : list A) x l' y l'' :
  l = x :: l' -> f x = y :: l'' -> exists rest, flat_map f l = y :: rest.
Proof. intros -> H. simpl. rewrite H. eexists. reflexivity. Qed.

Section ProfileProperties.
Variables (V : str) (D : list str) (C : str).
Hypothesis Hok : profile_ok V D C.

Lemma joined_map : joined D = map Lit D.
Proof using Hok. destruct Hok as (_ & HD & _). destruct D; [contradiction|reflexivity]. Qed.

Lemma vowel_not_consonant x : x ∈ V -> x ∉ C.
Proof using Hok. intros Hv Hc. destruct Hok as (H & _). exact (H x Hc Hv). Qed.

Lemma diphthong_shape d :
  d ∈ D -> exists x y, d = [x; y] /\ (x ∉ V) /\ (x ∉ C) /\ (y ∈ C).
Proof using Hok.
  intros Hd. destruct Hok as (_ & _ & H). rewrite Forall_forall in H. apply H, Hd.
Qed.

Lemma nucleus_fails c :
  Forall (fun x => x ∈ C) (after c) -> matches (nucleus V D) c = [].
Proof using Hok.
  intros Hall. unfold nucleus. rewrite matches_alternatives, joined_map.
  assert (Hset : matches (Set_ V) c = []).
  { rewrite matches_set. destruct (after c) as [|x rest]; [reflexivity|].
    apply Forall_cons in Hall as [Hx _].
    destruct (decide (x ∈ V)) as [Hv|]; [|reflexivity].
    exfalso. exact (vowel_not_consonant x Hv Hx). }
  rewrite Hset. apply flat_map_nil. intros r' Hr'.
  apply in_map_iff in Hr' as (d & <- & Hd). apply list_elem_of_In in Hd.
  destruct (diphthong_shape d Hd) as (x & y & -> & _ & Hx & _).
  rewrite matches_lit. destruct (decide _) as [Ht|]; [|reflexivity].
  exfalso. destruct (after c) as [|a rest]; [discriminate|].
  apply Forall_cons in Hall as [Ha _]. destruct rest; simpl in Ht; [discriminate|].
  injection Ht as -> _. exact (Hx Ha).
Qed.

Lemma behind_self r c c' : In c' (matches (Behind r) c) -> c' = c.
Proof.
  rewrite matches_behind. destruct (existsb _ _); [|intros []].
  intros [<-|[]]. reflexivity.
Qed.

Lemma inner_fails c :
  Forall (fun x => x ∈ C) (after c) -> matches (syllable_here V D C) c = [].
Proof using Hok.
  intros Hall. unfold syllable_here. rewrite matches_cat. apply flat_map_nil.
  intros c1 Hc1. apply behind_self in Hc1 as ->.
  rewrite matches_cat, matches_group.
  assert (Hbody : matches (syllable_body V D C) c = []).
  { unfold syllable_body. rewrite matches_cat. apply flat_map_nil. intros c1 Hc1.
    apply matches_star_set_after in Hc1 as [k Hk].
    rewrite matches_cat. rewrite nucleus_fails; [reflexivity|].
    rewrite Hk. apply Forall_drop. exact Hall. }
  rewrite Hbody. reflexivity.
Qed.

Lemma scan_consonants_only pre run :
  Forall (fun x => x ∈ C) run -> scan (pattern_syllable V D C) pre run 0 = [].
Proof using Hok.
  intros Hall. unfold pattern_syllable.
  assert (H : forall pre, scan (Ahead (syllable_here V D C)) pre run 0 = []); [|apply H].
  clear pre. induction run as [|x run IH]; intros pre.
  - rewrite scan_ahead, inner_fails; [reflexivity|constructor].
  - rewrite scan_ahead, inner_fails by exact Hall.
    apply Forall_cons in Hall as [_ Hall]. apply (IH Hall).
Qed.

Lemma lookbehind_iff c : looks_behind (lookbehind V D) c <-> at_boundary V D (before c).
Proof using Hok.
  unfold lookbehind, at_boundary. rewrite behind_alternatives, behind_set, joined_map.
  split.
  - intros [(x & pre & Hb & Hx)|(r' & Hr' & Hlb)].
    + right. left. exists x, pre. auto.
    + apply in_app_or in Hr' as [Hr'|[<-|[]]].
      * apply in_map_iff in Hr' as (d & <- & Hd). apply list_elem_of_In in Hd.
        right. right. exists d. split; [exact Hd|]. apply behind_lit. exact Hlb.
      * left. apply behind_bol. exact Hlb.
  - intros [Hnil|[(x & pre & Hb & Hx)|(d & Hd & Ht)]].
    + right. exists Bol. split; [apply in_or_app; right; left; reflexivity|].
      apply behind_bol. exact Hnil.
    + left. exists x, pre. auto.
    + right. exists (Lit d). split; [|apply behind_lit; exact Ht].
      apply in_or_app. left. apply in_map. apply list_elem_of_In. exact Hd.
Qed.

Lemma inner_not_boundary pre rest :
  ~ at_boundary V D pre -> matches (syllable_here V D C) (Cursor pre rest None) = [].
Proof using Hok.
  intros Hno. unfold syllable_here. rewrite matches_cat, matches_behind_false; [reflexivity|].
  intros Hlb. apply lookbehind_iff in Hlb. exact (Hno Hlb).
Qed.

Lemma consonant_not_boundary x pre :
  x ∈ C -> edge V C pre -> ~ at_boundary V D (x :: pre).
Proof using Hok.
  intros Hx Hedge [Hnil|[(v & pre' & Hp & Hv)|(d & Hd & Ht)]].
  - discriminate.
  - injection Hp as <- _. exact (vowel_not_consonant _ Hv Hx).
  - destruct (diphthong_shape d Hd) as (a & b & -> & Ha & Hac & Hb).
    destruct pre as [|z pre']; [discriminate|]. cbn in Ht.
    injection Ht as _ ->. destruct Hedge; contradiction.
Qed.

Lemma initial_not_boundary x y pre :
  [x; y] ∈ D -> ~ at_boundary V D (x :: pre).
Proof using Hok.
  intros Hxy. destruct (diphthong_shape _ Hxy) as (a & b & E & Ha & Hac & Hb).
  injection E as <- <-.
  intros [Hnil|[(v & pre' & Hp & Hv)|(d & Hd & Ht)]].
  - discriminate.
  - injection Hp as <- _. contradiction.
  - destruct (diphthong_shape d Hd) as (a' & b' & -> & Ha' & Hac' & Hb').
    destruct pre as [|z pre']; [discriminate|]. cbn in Ht.
    injection Ht as -> _. contradiction.
Qed.

Lemma scan_next pre rest :
  scan (Ahead (syllable_here V D C)) pre rest 0
  = match matches (syllable_here V D C) (Cursor pre rest None) with
    | c' :: _ => [default [] (group1 c')]
    | [] => []
    end ++ next_scan (Ahead (syllable_here V D C)) pre rest.
Proof.
  rewrite scan_ahead.
  assert (Hg : has_group (syllable_here V D C) = true).
  { unfold syllable_here. cbn [has_group orb]. apply orb_true_r. }
  rewrite Hg. reflexivity.
Qed.

Lemma next_through_consonants run :
  forall pre rest,
    edge V C pre -> Forall (fun x => x ∈ C) run ->
    next_scan (Ahead (syllable_here V D C)) pre (run ++ rest)
    = next_scan (Ahead (syllable_here V D C)) (reverse run ++ pre) rest.
Proof using Hok.
  induction run as [|x run IH]; intros pre rest Hedge Hall; [reflexivity|].
  apply Forall_cons in Hall as [Hx Hall].
  change (next_scan (Ahead (syllable_here V D C)) pre ((x :: run) ++ rest))
    with (scan (Ahead (syllable_here V D C)) (x :: pre) (run ++ rest) 0).
  rewrite scan_next, inner_not_boundary by (apply consonant_not_boundary; assumption).
  rewrite app_nil_l, IH; [|right; exact Hx|exact Hall].
  rewrite reverse_cons, <- app_assoc. reflexivity.
Qed.

Lemma next_through_nucleus n pre rest :
  nucleus_symbol V D n ->
  next_scan (Ahead (syllable_here V D C)) pre (n ++ rest)
  = scan (Ahead (syllable_here V D C)) (reverse n ++ pre) rest 0.
Proof using Hok.
  intros [(v & -> & Hv)|Hd]; [reflexivity|].
  destruct (diphthong_shape n Hd) as (x & y & -> & _).
  change (next_scan (Ahead (syllable_here V D C)) pre ([x; y] ++ rest))
    with (scan (Ahead (syllable_here V D C)) (x :: pre) (y :: rest) 0).
  rewrite scan_next, inner_not_boundary by (apply (initial_not_boundary x y); exact Hd).
  reflexivity.
Qed.

Lemma nucleus_first n rest x rest' :
  nucleus_symbol V D n -> n ++ rest = x :: rest' -> x ∉ C.
Proof using Hok.
  intros [(v & -> & Hv)|Hd] E.
  - injection E as <- _. apply vowel_not_consonant. exact Hv.
  - destruct (diphthong_shape n Hd) as (a & b & -> & _ & Ha & _).
    injection E as <- _. exact Ha.
Qed.

Lemma follows_first tail x rest' : follows V D tail -> tail = x :: rest' -> x ∉ C.
Proof using Hok.
  intros [->|(n & rest & Hn & ->)] E; [discriminate|].
  apply (nucleus_first n rest x rest' Hn E).
Qed.

Lemma nucleus_matches n pre rest g :
  nucleus_symbol V D n ->
  exists others,
    matches (nucleus V D) (Cursor pre (n ++ rest) g)
    = Cursor (reverse n ++ pre) rest g :: others.
Proof using Hok.
  intros Hn. unfold nucleus. rewrite matches_alternatives, joined_map.
  destruct Hn as [(v & -> & Hv)|Hd].
  - cbn [app]. rewrite matches_set_cons. destruct (decide _); [|contradiction].
    eexists. reflexivity.
  - destruct (diphthong_shape n Hd) as (x & y & -> & Hx & _).
    cbn [app]. rewrite matches_set_cons. destruct (decide _); [contradiction|].
    rewrite app_nil_l.
    assert (Hall : forall l, Forall (fun d => d ∈ D) l ->
      forall c', In c' (flat_map (fun r' => matches r' (Cursor pre (x :: y :: rest) g))
                                 (map Lit l)) ->
                 c' = Cursor (reverse [x; y] ++ pre) rest g).
    { intros l Hl c' Hin. apply in_flat_map in Hin as (r' & Hr' & Hin).
      apply in_map_iff in Hr' as (d & <- & Hdl).
      rewrite Forall_forall in Hl. apply list_elem_of_In in Hdl.
      destruct (diphthong_shape d (Hl d Hdl)) as (a & b & -> & _).
      rewrite matches_lit in Hin. destruct (decide _) as [E|]; [|destruct Hin].
      destruct Hin as [<-|[]]. cbn in E. injection E as <- <-. reflexivity. }
    assert (Hin : In (Cursor (reverse [x; y] ++ pre) rest g)
                     (flat_map (fun r' => matches r' (Cursor pre (x :: y :: rest) g))
                               (map Lit D))).
    { apply in_flat_map. exists (Lit [x; y]). split.
      - apply in_map. apply list_elem_of_In. exact Hd.
      - rewrite matches_lit. destruct (decide _) as [|E]; [left; reflexivity|].
        exfalso. apply E. reflexivity. }
    destruct (flat_map _ _) as [|c1 l] eqn:E; [destruct Hin|].
    exists l. f_equal. apply (Hall D); [apply Forall_forall; auto|].
    rewrite E. left. reflexivity.
Qed.

Lemma lookahead_keeps_group c c' : In c' (matches (lookahead V D) c) -> group1 c' = group1 c.
Proof using Hok.
  unfold lookahead. rewrite matches_alternatives, joined_map. intros Hin.
  apply in_app_or in Hin as [Hin|Hin].
  - apply (matches_keeps_group (Set_ V)); [reflexivity|exact Hin].
  - apply in_flat_map in Hin as (r' & Hr' & Hin).
    apply in_app_or in Hr' as [Hr'|[<-|[]]].
    + apply in_map_iff in Hr' as (d & <- & _).
      apply (matches_keeps_group (Lit d)); [reflexivity|exact Hin].
    + apply (matches_keeps_group Eol); [reflexivity|exact Hin].
Qed.

Lemma lookahead_matches pre tail g :
  follows V D tail -> matches (lookahead V D) (Cursor pre tail g) <> [].
Proof using Hok.
  intros Hf E.
  assert (Hnone : forall c', ~ In c' (matches (lookahead V D) (Cursor pre tail g))).
  { intros c'. rewrite E. intros []. }
  unfold lookahead in Hnone. rewrite joined_map in Hnone.
  destruct Hf as [->|(n & rest & [(v & -> & Hv)|Hd] & ->)].
  - apply (Hnone (Cursor pre [] g)). rewrite matches_alternatives.
    apply in_or_app. right. apply in_flat_map. exists Eol.
    split; [apply in_or_app; right; left; reflexivity|].
    rewrite matches_eol. destruct (decide _) as [|H]; [left; reflexivity|].
    exfalso. apply H. left. reflexivity.
  - apply (Hnone (Cursor (v :: pre) rest g)). rewrite matches_alternatives.
    apply in_or_app. left. cbn [app]. rewrite matches_set_cons.
    destruct (decide _); [left; reflexivity|contradiction].
  - apply (Hnone (Cursor (reverse n ++ pre) (drop (length n) (n ++ rest)) g)).
    rewrite matches_alternatives.
    apply in_or_app. right. apply in_flat_map. exists (Lit n).
    split; [apply in_or_app; left; apply in_map; apply list_elem_of_In; exact Hd|].
    rewrite matches_lit. cbn [after before group1].
    destruct (decide _) as [|H]; [left; reflexivity|].
    exfalso. apply H. apply take_app_length.
Qed.

Lemma inner_matches pre onset n coda tail :
  at_boundary V D pre ->
  Forall (fun x => x ∈ C) onset -> nucleus_symbol V D n ->
  Forall (fun x => x ∈ C) coda -> follows V D tail ->
  exists c' others,
    matches (syllable_here V D C) (Cursor pre (onset ++ n ++ coda ++ tail) None) = c' :: others
    /\ group1 c' = Some (onset ++ n ++ coda).
Proof using Hok.
  intros Hpre Honset Hn Hcoda Htail.
  set (c0 := Cursor pre (onset ++ n ++ coda ++ tail) None).
  assert (Hlb : matches (Behind (lookbehind V D)) c0 = [c0]).
  { apply matches_behind_true, lookbehind_iff. exact Hpre. }
  destruct (matches_star_set_greedy C onset pre (n ++ coda ++ tail) None Honset)
    as [l1 H1]; [intros x rest'; apply nucleus_first; exact Hn|].
  destruct (nucleus_matches n (reverse onset ++ pre) (coda ++ tail) None Hn) as [l2 H2].
  destruct (matches_star_set_greedy C coda (reverse n ++ reverse onset ++ pre) tail None
              Hcoda) as [l3 H3]; [intros x rest'; apply follows_first; exact Htail|].
  set (c3 := Cursor (reverse coda ++ reverse n ++ reverse onset ++ pre) tail None) in *.
  assert (Hbody : exists l, matches (syllable_body V D C) c0 = c3 :: l).
  { destruct (flat_map_head (matches (Star (Set_ C))) _ _ _ _ _ H2 H3) as [l E].
    unfold syllable_body. rewrite matches_cat.
    eapply flat_map_head; [exact H1|]. rewrite matches_cat. exact E. }
  destruct Hbody as [l4 Hbody].
  set (c3' := Cursor (before c3) (after c3) (Some (take (consumed c0 c3) (after c0)))).
  assert (Hgroup : matches (Group (syllable_body V D C)) c0 = c3' :: map
            (fun c' => Cursor (before c') (after c')
                         (Some (take (consumed c0 c') (after c0)))) l4).
  { rewrite matches_group, Hbody. reflexivity. }
  assert (Hcap : group1 c3' = Some (onset ++ n ++ coda)).
  { unfold c3', consumed, c0, c3. cbn [after group1]. f_equal.
    replace (onset ++ n ++ coda ++ tail) with ((onset ++ n ++ coda) ++ tail)
      by (rewrite <- !app_assoc; reflexivity).
    rewrite length_app.
    replace (length (onset ++ n ++ coda) + length tail - length tail)
      with (length (onset ++ n ++ coda)) by lia.
    apply take_app_length. }
  destruct (matches (lookahead V D) c3') as [|c4 l5] eqn:Hla.
  { exfalso. apply (lookahead_matches (before c3) tail (group1 c3') Htail). exact Hla. }
  exists c4. unfold syllable_here. rewrite matches_cat, Hlb. cbn [flat_map].
  rewrite app_nil_r, matches_cat, Hgroup. cbn [flat_map]. rewrite Hla.
  eexists. split; [reflexivity|].
  rewrite <- Hcap. apply lookahead_keeps_group. rewrite Hla. left. reflexivity.
Qed.

Lemma spell_follows segments :
  Forall (fun segment => nucleus_symbol V D (fst segment)
                         /\ Forall (fun x => x ∈ C) (snd segment)) segments ->
  follows V D (spell segments).
Proof.
  intros Hall. destruct segments as [|[n coda] segments]; [left; reflexivity|].
  apply Forall_cons in Hall as [[Hn _] _]. right.
  exists n, (coda ++ spell segments). split; [exact Hn|].
  unfold spell. cbn. rewrite <- app_assoc. reflexivity.
Qed.

Lemma nucleus_boundary n pre : nucleus_symbol V D n -> at_boundary V D (reverse n ++ pre).
Proof.
  intros [(v & -> & Hv)|Hd].
  - right. left. exists v, pre. split; [reflexivity|exact Hv].
  - right. right. exists n. split; [exact Hd|].
    rewrite <- (length_reverse n). apply take_app_length.
Qed.

Lemma boundary_edge pre : at_boundary V D pre -> edge V C pre.
Proof using Hok.
  intros [->|[(v & pre' & -> & Hv)|(d & Hd & Ht)]]; [exact I|left; exact Hv|].
  destruct (diphthong_shape d Hd) as (x & y & -> & _ & _ & Hy).
  destruct pre as [|a [|b pre']]; try discriminate. cbn in Ht.
  injection Ht as -> _. right. exact Hy.
Qed.

Lemma scan_syllables segments :
  forall pre onset,
    at_boundary V D pre -> well_formed V D C onset segments ->
    scan (pattern_syllable V D C) pre (onset ++ spell segments) 0
    = syllables_of onset segments.
Proof using Hok.
  induction segments as [|[n coda] segments IH]; intros pre onset Hpre [Honset Hsegs].
  - cbn [spell flat_map]. rewrite app_nil_r. apply scan_consonants_only. exact Honset.
  - apply Forall_cons in Hsegs as [[Hn Hcoda] Hsegs]. cbn [fst snd] in Hn, Hcoda.
    unfold pattern_syllable.
    change (spell ((n, coda) :: segments)) with ((n ++ coda) ++ spell segments).
    rewrite <- app_assoc.
    destruct (inner_matches pre onset n coda (spell segments) Hpre Honset Hn Hcoda
                (spell_follows segments Hsegs)) as (c' & others & Hm & Hg).
    rewrite scan_next, Hm, Hg. cbn [default app syllables_of]. f_equal.
    rewrite next_through_consonants by (auto using boundary_edge).
    rewrite next_through_nucleus by exact Hn.
    fold (pattern_syllable V D C). apply IH.
    + apply nucleus_boundary. exact Hn.
    + split; assumption.
Qed.

Lemma findall_syllables onset segments :
  well_formed V D C onset segments ->
  findall (pattern_syllable V D C) (onset ++ spell segments)
  = syllables_of onset segments.
Proof using Hok.
  intros Hwf. apply scan_syllables; [left; reflexivity|exact Hwf].
Qed.
End ProfileProperties.

(** ** The consonant pattern *)

Lemma scan_skip r rest :
  forall pre, scan r pre rest (length rest) = scan r (reverse rest ++ pre) [] 0.
Proof.
  induction rest as [|x rest IH]; intros pre; [reflexivity|].
  cbn [length]. rewrite scan_S, IH, reverse_cons, <- app_assoc. reflexivity.
Qed.

Lemma consonant_first_match C x run :
  Forall (fun y => y ∈ C) (x :: run) ->
  exists others,
    matches (pattern_consonant C) (Cursor [] (x :: run) None)
    = Cursor (reverse run ++ [x]) [] None :: others.
Proof.
  intros Hall. apply Forall_cons in Hall as [Hx Hrun].
  unfold pattern_consonant, Plus.
  rewrite matches_cat, matches_behind_true by (apply behind_bol; reflexivity).
  cbn [flat_map]. rewrite app_nil_r, matches_cat.
  destruct (matches_star_set_greedy C run [x] [] None Hrun) as [l Hl]; [discriminate|].
  rewrite app_nil_r in Hl.
  assert (Hplus : matches (Cat (Set_ C) (Star (Set_ C))) (Cursor [] (x :: run) None)
                  = Cursor (reverse run ++ [x]) [] None :: l).
  { rewrite matches_cat, matches_set_cons. destruct (decide _); [|contradiction].
    cbn [flat_map]. rewrite app_nil_r. exact Hl. }
  rewrite Hplus. cbn [flat_map]. rewrite matches_eol. cbn [after].
  destruct (decide _) as [|H]; [|exfalso; apply H; left; reflexivity].
  eexists. reflexivity.
Qed.

Lemma consonant_no_match_later C pre rest :
  pre <> [] -> matches (pattern_consonant C) (Cursor pre rest None) = [].
Proof.
  intros Hpre. unfold pattern_consonant.
  rewrite matches_cat, matches_behind_false; [reflexivity|].
  intros H. apply behind_bol in H. exact (Hpre H).
Qed.

Lemma findall_consonant_run C run :
  run <> [] -> Forall (fun y => y ∈ C) run ->
  findall (pattern_consonant C) run = [run].
Proof.
  intros Hne Hall. destruct run as [|x run]; [contradiction|].
  destruct (consonant_first_match C x run Hall) as [others Hm].
  unfold findall. rewrite scan_0. cbn zeta. unfold attempt at 1. rewrite Hm.
  rewrite filter_cons.
  destruct (decide _) as [_|H]; [|exfalso; apply H; left; reflexivity].
  unfold consumed. cbn [after length Nat.sub has_group pattern_consonant Plus orb].
  rewrite scan_skip, scan_0. cbn zeta.
  rewrite attempt_none.
  - f_equal. apply (take_ge (x :: run)). simpl. lia.
  - apply consonant_no_match_later. intros E. apply (f_equal length) in E.
    rewrite length_app in E. simpl in E. lia.
Qed.

(** ** The English inventory *)

Lemma en_profile_ok : profile_ok en_vowels en_diphtongues en_consonants.
Proof.
  split; [|split].
  - assert (H : Forall (fun x => x ∉ en_vowels) en_consonants)
      by (apply (bool_decide_unpack _); vm_compute; exact I).
    rewrite Forall_forall in H. exact H.
  - discriminate.
  - repeat (apply Forall_cons; split;
            [eexists _, _; split; [reflexivity|];
             repeat split; apply (bool_decide_unpack _); vm_compute; exact I|]).
    apply Forall_nil_2.
Qed.

(** ** Counting characters *)

Lemma count_app x s t : count x (s ++ t) = count x s + count x t.
Proof. apply count_occ_app. Qed.

Lemma count_join x sep parts :
  count x sep = 0 -> count x (join sep parts) = count x (concat parts).
Proof.
  intros Hsep. induction parts as [|p parts IH]; [reflexivity|].
  destruct parts as [|q parts].
  - simpl. rewrite app_nil_r. reflexivity.
  - change (join sep (p :: q :: parts)) with (p ++ sep ++ join sep (q :: parts)).
    change (concat (p :: q :: parts)) with (p ++ concat (q :: parts)).
    rewrite !count_app, IH, Hsep. reflexivity.
Qed.

Lemma count_syllables x segments :
  forall onset,
    segments <> [] ->
    count x (concat (syllables_of onset segments))
    = count x (onset ++ spell segments) + count x (concat (inner_codas segments)).
Proof.
  induction segments as [|[n coda] segments IH]; intros onset Hne; [contradiction|].
  destruct segments as [|segment segments].
  - cbn. rewrite !app_nil_r. unfold count. cbn. lia.
  - change (concat (syllables_of onset ((n, coda) :: segment :: segments)))
      with ((onset ++ n ++ coda) ++ concat (syllables_of coda (segment :: segments))).
    rewrite count_app, IH by discriminate.
    change (spell ((n, coda) :: segment :: segments))
      with ((n ++ coda) ++ spell (segment :: segments)).
    change (inner_codas ((n, coda) :: segment :: segments))
      with (coda :: inner_codas (segment :: segments)).
    change (concat (coda :: inner_codas (segment :: segments)))
      with (coda ++ concat (inner_codas (segment :: segments))).
    rewrite !count_app. lia.
Qed.

(** ** The value of [syllabify] *)

Lemma syllabify_value_eq word conv pat ab :
  syllabify_value word conv pat ab
  = let string := transliterate conv word in
    let syllables :=
      match findall (pattern (fst pat)) string with
      | [] => join underscore (findall (pattern (snd pat)) string)
      | syllable_matches => join underscore syllable_matches
      end in
    if ab then hash ++ syllables ++ hash else syllables.
Proof.
  unfold syllabify_value, syllabify_body.
  destruct (findall (pattern (fst pat)) (transliterate conv word)); reflexivity.
Qed.

Lemma syllabify_calls_eq word conv pat ab :
  snd (syllabify_body word conv pat ab)
  = (pattern_id (fst pat), transliterate conv word)
    :: match findall (pattern (fst pat)) (transliterate conv word) with
       | [] => [(pattern_id (snd pat), transliterate conv word)]
       | _ => []
       end.
Proof.
  unfold syllabify_body.
  destruct (findall (pattern (fst pat)) (transliterate conv word)); reflexivity.
Qed.

Lemma syllabify_value_empty word conv pat ab :
  transliterate conv word = [] ->
  syllabify_value word conv pat ab = if ab then u "##" else [].
Proof.
  intros H. rewrite syllabify_value_eq, H. cbn zeta.
  assert (E : match findall (pattern (fst pat)) [] with
              | [] => join underscore (findall (pattern (snd pat)) [])
              | syllable_matches => join underscore syllable_matches
              end = []).
  { destruct (findall_empty (pattern (fst pat))) as [-> | ->];
      [apply join_findall_empty|reflexivity]. }
  rewrite E. destruct ab; reflexivity.
Qed.

Lemma syllabify_value_consonants word conv :
  transliterate conv word <> [] ->
  Forall (fun x => x ∈ en_consonants) (transliterate conv word) ->
  findall (pattern (fst regex_en_ipa)) (transliterate conv word) = []
  /\ syllabify_value word conv regex_en_ipa false = transliterate conv word.
Proof.
  intros Hne Hall.
  assert (Hprimary : findall (pattern (fst regex_en_ipa)) (transliterate conv word) = []).
  { apply (scan_consonants_only _ _ _ en_profile_ok). exact Hall. }
  split; [exact Hprimary|].
  rewrite syllabify_value_eq. cbn zeta. rewrite Hprimary.
  cbn [regex_en_ipa snd pattern].
  rewrite findall_consonant_run by assumption. reflexivity.
Qed.

(** ** Written events *)

Lemma write_events_map (cues outcomes : str -> str) (lines : list str) :
  write_events (map (fun line => Event (cues line) (outcomes line)) lines)
  = Some (map (fun line => cues line ++ [9%N] ++ outcomes line ++ [newline]) lines).
Proof.
  induction lines as [|line lines IH]; [reflexivity|].
  cbn [map write_events unpack]. rewrite IH. reflexivity.
Qed.

(** ** Calls in any form *)

Lemma bind_by_keyword word conv pat ab :
  bind [] (by_keyword word conv pat ab) = Some (word, conv, pat, ab).
Proof. reflexivity. Qed.

(** The call of [syllabify_line] is the call by keyword. *)
Lemma syllabify_by_keyword word conv pat ab st :
  syllabify_call [] (by_keyword word conv pat ab) st
  = (Some (fst (syllabify word conv pat ab st)), snd (syllabify word conv pat ab st)).
Proof.
  unfold syllabify_call, syllabify. fold (keyword_key word conv pat ab).
  destruct (cache st !! keyword_key word conv pat ab) as [value|]; [reflexivity|].
  rewrite bind_by_keyword.
  destruct (syllabify_body word conv pat ab) as [value calls]. reflexivity.
Qed.

Lemma syllabify_call_grows args kwds st :
  cache st ⊆ cache (snd (syllabify_call args kwds st)).
Proof.
  unfold syllabify_call.
  destruct (cache st !! make_key args kwds) as [value|] eqn:Hlook; [reflexivity|].
  destruct (bind args kwds) as [[[[word conv] pat] ab]|]; [|reflexivity].
  destruct (syllabify_body word conv pat ab) as [value calls].
  cbn [snd cache]. apply insert_subseteq. exact Hlook.
Qed.

Lemma run_calls_grows calls : forall st, cache st ⊆ cache (run_calls calls st).
Proof.
  induction calls as [|[args kwds] calls IH]; intros st; [reflexivity|].
  cbn [run_calls]. etransitivity; [apply syllabify_call_grows|apply IH].
Qed.

Lemma syllabify_call_stores args kwds st value :
  fst (syllabify_call args kwds st) = Some value ->
  cache (snd (syllabify_call args kwds st)) !! make_key args kwds = Some value.
Proof.
  unfold syllabify_call.
  destruct (cache st !! make_key args kwds) as [stored|] eqn:Hlook.
  - cbn [fst snd]. intros [= <-]. exact Hlook.
  - destruct (bind args kwds) as [[[[word conv] pat] ab]|]; [|discriminate].
    destruct (syllabify_body word conv pat ab) as [result calls].
    cbn [fst snd cache]. intros [= <-]. apply lookup_insert_eq.
Qed.

Lemma filter_map {A B} (f : A -> B) (P : B -> Prop) `{forall b, Decision (P b)}
    `{forall a, Decision (P (f a))} (l : list A) :
  filter P (map f l) = map f (filter (fun a => P (f a)) l).
Proof.
  induction l as [|a l IH]; [reflexivity|].
  cbn [map]. rewrite !filter_cons.
  destruct (decide (P (f a))) as [Hp|Hp], (decide (P (f a))) as [Hq|Hq];
    cbn [map]; try contradiction; congruence.
Qed.

Lemma substring_elem item s x : substring item s -> x ∈ item -> x ∈ s.
Proof.
  intros (prefix & suffix & ->) Hx.
  apply elem_of_app. right. apply elem_of_app. left. exact Hx.
Qed.

(** * The claims *)

(** C1, as amended. For every finite sequence of lines, every
    [numcores >= 1] and every [chunksize >= 1] whose product is at most
    [sys.maxsize], whatever the scheduler assigns to the workers, the
    results that [syllabify_corpus_generator] yields are, in content and in
    order, the results of calling [syllabify_line] on the lines one after
    the other in a single process. The caches the two runs start from are
    coherent (as every cache that [syllabify_line] alone has filled is). *)
Theorem generator_is_sequential (lower : str -> str) (lines : list str)
    (conv : converter) (pat : compiled * compiled) (nsp : substituter)
    (add_boundaries as_event : bool) (numcores chunksize : Z)
    (parent st : process) (sched : nat -> nat -> nat) :
  (1 <= numcores)%Z -> (1 <= chunksize)%Z ->
  (chunksize * numcores <= sys_maxsize)%Z ->
  cache_ok conv pat parent -> cache_ok conv pat st ->
  syllabify_corpus_generator lower lines conv pat nsp add_boundaries as_event
    numcores chunksize parent sched
  = Some (fst (m_map (fun line => syllabify_line lower line conv pat nsp
                                    add_boundaries as_event) lines st)).
Proof.
  intros Hcores Hsize Hmax Hparent Hst.
  rewrite (generator_ok lower lines conv pat nsp add_boundaries as_event
             numcores chunksize parent sched Hcores Hsize Hmax Hparent).
  f_equal. symmetry.
  apply (m_map_ok _ (fun line => line_value lower line conv pat nsp add_boundaries as_event)
           (cache_ok conv pat)); [|exact Hst].
  intros line st' Hst'. apply syllabify_line_ok. exact Hst'.
Qed.

(** C2, as amended. With [as_event=True] the outcomes are the ["_"]-join of
    all the words of the line and the cues are the ["_"]-join of the
    syllabified words other than ["##"], in the order of the words: a word
    whose syllabification is ["##"] is dropped from the cues only. The kept
    and the dropped words together are all the words. *)
Theorem event_cues_and_outcomes (lower : str -> str) (line : str)
    (conv : converter) (pat : compiled * compiled) (nsp : substituter)
    (add_boundaries : bool) (st : process) :
  cache_ok conv pat st ->
  let words := tokenize lower (sub nsp (u " ") line) in
  let syllabified w := syllabify_value w conv pat add_boundaries in
  let kept := filter (fun s => s <> u "##") (map syllabified words) in
  let dropped := filter (fun s => s = u "##") (map syllabified words) in
  fst (syllabify_line lower line conv pat nsp add_boundaries true st)
  = Event (join underscore kept) (join underscore words)
  /\ length kept + length dropped = length words.
Proof.
  intros Hst words syllabified kept dropped. split.
  - rewrite (proj1 (syllabify_line_ok lower line conv pat nsp add_boundaries true st Hst)).
    reflexivity.
  - unfold kept, dropped. rewrite <- (length_map syllabified words).
    induction (map syllabified words) as [|s l IH]; [reflexivity|].
    rewrite !filter_cons.
    destruct (decide (s = u "##")) as [He|Hn].
    + destruct (decide (s <> u "##")) as [Hne|_]; [contradiction|].
      cbn [length]. rewrite <- IH. lia.
    + destruct (decide (s <> u "##")) as [_|Hnn]; [|contradiction].
      cbn [length]. rewrite <- IH. lia.
Qed.

(** C3, as amended. With [numcores >= 1] and [chunksize >= 1] whose
    product is at most [sys.maxsize], [syllabify_corpus] writes exactly one
    record per line of the corpus, in the order of the lines: the cues of
    the line, a tab, its outcomes and a newline. For a line that yields no
    word the record is the tab and the newline alone (empty cues, empty
    outcomes). *)
Theorem corpus_writes_every_line (lower : str -> str) (corpus : list str)
    (conv : converter) (pat : compiled * compiled) (nsp : substituter)
    (add_boundaries : bool) (numcores chunksize : Z) (parent : process)
    (sched : nat -> nat -> nat) :
  (1 <= numcores)%Z -> (1 <= chunksize)%Z ->
  (chunksize * numcores <= sys_maxsize)%Z -> cache_ok conv pat parent ->
  let words line := tokenize lower (sub nsp (u " ") line) in
  let cues line :=
    join underscore
      (filter (fun s => s <> u "##")
         (map (fun word => syllabify_value word conv pat add_boundaries) (words line))) in
  let outcomes line := join underscore (words line) in
  let record line := cues line ++ [9%N] ++ outcomes line ++ [newline] in
  syllabify_corpus lower corpus conv pat nsp add_boundaries numcores chunksize
    parent sched = Some (map record corpus)
  /\ length (map record corpus) = length corpus
  /\ (forall i line, corpus !! i = Some line -> map record corpus !! i = Some (record line))
  /\ (forall line, words line = [] -> record line = [9%N; newline]).
Proof.
  intros Hcores Hsize Hmax Hparent words cues outcomes record. unfold syllabify_corpus.
  rewrite (generator_ok lower corpus conv pat nsp add_boundaries true
             numcores chunksize parent sched Hcores Hsize Hmax Hparent).
  unfold line_value.
  rewrite (write_events_map cues outcomes).
  split; [reflexivity|]. split; [apply length_map|]. split.
  - intros i line Hi. rewrite list_lookup_fmap, Hi. reflexivity.
  - intros line Hwords. unfold record, cues, outcomes. rewrite Hwords. reflexivity.
Qed.

(** C7. For every word, converter and pattern, [syllabify] with
    [add_boundaries=True] returns ["#"], then what it returns with
    [add_boundaries=False], then ["#"]; this holds of the body and of the
    memoised function on coherent caches. *)
Theorem boundaries_wrap (word : str) (conv : converter)
    (pat : compiled * compiled) (st st' : process) :
  cache_ok conv pat st -> cache_ok conv pat st' ->
  fst (syllabify word conv pat true st)
  = hash ++ fst (syllabify word conv pat false st') ++ hash
  /\ fst (syllabify_body word conv pat true)
     = hash ++ fst (syllabify_body word conv pat false) ++ hash.
Proof.
  intros Hst Hst'.
  assert (Hbody : syllabify_value word conv pat true
                  = hash ++ syllabify_value word conv pat false ++ hash).
  { rewrite !syllabify_value_eq. reflexivity. }
  split; [|exact Hbody].
  rewrite (proj1 (syllabify_ok word conv pat true st Hst)).
  rewrite (proj1 (syllabify_ok word conv pat false st' Hst')). exact Hbody.
Qed.

(** C9, as amended. When a call of [syllabify] has returned a string, a
    later call in the same process that passes the same arguments in the
    same way (the same values, positionally or by keyword as in the first
    call, and the keywords in the same order) returns the same string and
    leaves the process as it was: no [findall] is run and the value comes
    from the cache, whatever calls of [syllabify] were made in between. *)
Theorem second_call_is_cached (args : list value) (kwds : list (string * value))
    (between : list (list value * list (string * value))) (st : process)
    (value : str) :
  fst (syllabify_call args kwds st) = Some value ->
  let st1 := run_calls between (snd (syllabify_call args kwds st)) in
  fst (syllabify_call args kwds st1) = Some value
  /\ snd (syllabify_call args kwds st1) = st1
  /\ invocations (snd (syllabify_call args kwds st1)) = invocations st1
  /\ cache st1 !! make_key args kwds = Some value.
Proof.
  intros Hfirst st1.
  assert (Hlook : cache st1 !! make_key args kwds = Some value).
  { eapply lookup_weaken; [apply syllabify_call_stores; exact Hfirst|].
    apply run_calls_grows. }
  unfold syllabify_call. rewrite Hlook. auto.
Qed.

(** C10, as amended. For every finite sequence and every [chunksize] from
    1 to [sys.maxsize], [chunk] yields chunks whose concatenation, in order,
    is the sequence; every chunk is non-empty and has at most [chunksize]
    elements, and every chunk but the last has exactly [chunksize]
    elements. *)
Theorem chunk_partitions {A : Type} (iterable : list A) (chunksize : Z) :
  (1 <= chunksize <= sys_maxsize)%Z ->
  exists chunks,
    chunk iterable chunksize = Some chunks
    /\ concat chunks = iterable
    /\ Forall (fun item => item <> [] /\ (Z.of_nat (length item) <= chunksize)%Z) chunks
    /\ forall i item,
         chunks !! i = Some item -> S i < length chunks ->
         Z.of_nat (length item) = chunksize.
Proof.
  intros Hn. rewrite chunk_in_range by lia.
  eexists. split; [reflexivity|].
  destruct (chunks_from_spec (S (length iterable)) iterable (Z.to_nat chunksize))
    as (Hcat & Hall & Hfull); [lia..|].
  split; [exact Hcat|]. split.
  - eapply Forall_impl; [exact Hall|]. intros item [Hne Hlen]. split; [exact Hne|lia].
  - intros i item Hi Hlast. rewrite (Hfull i item Hi Hlast). lia.
Qed.

(** C4, as amended. With vowels [aeiou], consonants [ptkmn] and diphthong
    alternatives that do not occur in the word (those of English), the
    syllable pattern finds ["pat"], ["tat"], ["to"] in ["patato"]: a match
    runs through the consonants up to the next vowel, so neighbours share
    them; [syllabify] with boundaries returns ["#pat_tat_to#"]. With an
    empty tuple of diphthongs the interpolated pattern has an empty
    alternative and finds ["pat"], ["at"], ["tat"], ["at"], ["to"], ["o"]
    and the empty string. *)
Theorem patato_syllables :
  findall (pattern (fst five_vowels)) (u "patato") = [u "pat"; u "tat"; u "to"]
  /\ syllabify_value (u "patato") identity_converter five_vowels true
     = u "#pat_tat_to#"
  /\ findall (pattern (fst five_vowels_no_diphtongues)) (u "patato")
     = [u "pat"; u "at"; u "tat"; u "at"; u "to"; u "o"; []].
Proof. repeat split; vm_compute; reflexivity. Qed.

(** C5, as amended. For a phonemic string over the English inventory, an
    onset of consonants followed by segments of a nucleus and consonants,
    the syllable pattern finds one match per nucleus: the nucleus with the
    consonant runs on both sides of it. No character is dropped, and the
    joined syllables hold every character of the string once more for each
    occurrence in a consonant run between two nuclei. *)
Theorem syllables_cover_the_word (word : str) (conv : converter)
    (onset : str) (segments : list (str * str)) (x : char) :
  well_formed en_vowels en_diphtongues en_consonants onset segments ->
  transliterate conv word = onset ++ spell segments ->
  x <> 95%N ->
  findall (pattern (fst regex_en_ipa)) (transliterate conv word)
  = syllables_of onset segments
  /\ count x (syllabify_value word conv regex_en_ipa false)
     = count x (transliterate conv word) + count x (concat (inner_codas segments)).
Proof.
  intros Hwf Hword Hx.
  assert (Hfind : findall (pattern (fst regex_en_ipa)) (transliterate conv word)
                  = syllables_of onset segments).
  { rewrite Hword. apply (findall_syllables _ _ _ en_profile_ok). exact Hwf. }
  split; [exact Hfind|].
  destruct segments as [|[n coda] segments].
  - cbn [spell flat_map] in Hword. rewrite app_nil_r in Hword.
    cbn [inner_codas map removelast concat]. unfold count at 3. cbn [count_occ].
    rewrite Nat.add_0_r. f_equal.
    destruct onset as [|y onset].
    + rewrite (syllabify_value_empty word conv regex_en_ipa false Hword), Hword.
      reflexivity.
    + apply syllabify_value_consonants.
      * rewrite Hword. discriminate.
      * rewrite Hword. exact (proj1 Hwf).
  - rewrite syllabify_value_eq. cbn zeta. rewrite Hfind. cbn [syllables_of].
    rewrite count_join.
    + rewrite Hword.
      apply (count_syllables x ((n, coda) :: segments) onset). discriminate.
    + unfold count, underscore. change (u "_") with [95%N]. cbn [count_occ].
      destruct (N.eq_dec 95%N x); [congruence|reflexivity].
Qed.

(** C6, as amended. For every word whose transcription is a non-empty run
    of English consonant symbols (no vowel and no diphthong), [syllabify] with
    [add_boundaries=False] returns the whole run, which is not the empty
    string; the syllable pattern finds nothing in it and the consonant
    pattern is run. For every word and pattern, the consonant pattern is run
    exactly when the syllable pattern finds no match. *)
Theorem consonant_word_fallback (word : str) (conv : converter) (st : process) :
  cache_ok conv regex_en_ipa st ->
  transliterate conv word <> [] ->
  Forall (fun x => x ∈ en_consonants) (transliterate conv word) ->
  fst (syllabify word conv regex_en_ipa false st) = transliterate conv word
  /\ fst (syllabify word conv regex_en_ipa false st) <> []
  /\ findall (pattern (fst regex_en_ipa)) (transliterate conv word) = []
  /\ snd (syllabify_body word conv regex_en_ipa false)
     = [(1%positive, transliterate conv word); (2%positive, transliterate conv word)]
  /\ forall word' conv' pat' add_boundaries',
       snd (syllabify_body word' conv' pat' add_boundaries')
       = (pattern_id (fst pat'), transliterate conv' word')
         :: match findall (pattern (fst pat')) (transliterate conv' word') with
            | [] => [(pattern_id (snd pat'), transliterate conv' word')]
            | _ => []
            end.
Proof.
  intros Hst Hne Hall.
  destruct (syllabify_value_consonants word conv Hne Hall) as [Hprimary Hvalue].
  rewrite (proj1 (syllabify_ok word conv regex_en_ipa false st Hst)), Hvalue.
  split; [reflexivity|]. split; [exact Hne|]. split; [exact Hprimary|].
  split; [|intros; apply syllabify_calls_eq].
  rewrite syllabify_calls_eq, Hprimary. reflexivity.
Qed.

Lemma filter_drops {A} (P : A -> Prop) `{forall a, Decision (P a)} (l : list A) (a : A) :
  In a l -> ~ P a -> length (filter P l) < length l.
Proof.
  intros Hin Hna. induction l as [|b l IH]; [destruct Hin|].
  rewrite filter_cons. pose proof (length_filter P l) as Hle.
  destruct Hin as [->|Hin].
  - destruct (decide (P a)); [contradiction|]. simpl. lia.
  - specialize (IH Hin). destruct (decide (P b)); simpl; lia.
Qed.

(** C8. For every word whose transcription is the empty string (the empty
    word among them), whatever the patterns, [syllabify] returns ["##"] with
    [add_boundaries=True] and the empty string with [add_boundaries=False].
    [syllabify_line] takes ["##"] for no content: the list it returns holds
    the syllabification of every word of the line whose syllabification is
    not ["##"], in the order of the words, and nothing for the others. A
    word with an empty transcription is never among the words kept, and a
    line with such a word gives a list shorter than its list of words. *)
Theorem empty_transcription (lower : str -> str) (word line : str)
    (conv : converter) (pat : compiled * compiled) (nsp : substituter)
    (st : process) :
  cache_ok conv pat st ->
  transliterate conv word = [] ->
  let words := tokenize lower (sub nsp (u " ") line) in
  let syllabified w := syllabify_value w conv pat true in
  let kept := filter (fun w => syllabified w <> u "##") words in
  fst (syllabify word conv pat true st) = u "##"
  /\ fst (syllabify word conv pat false st) = []
  /\ fst (syllabify_line lower line conv pat nsp true false st)
     = Syllables (map syllabified kept)
  /\ ~ In word kept
  /\ ~ In (u "##") (map syllabified kept)
  /\ (In word words -> length (map syllabified kept) < length words).
Proof.
  intros Hst Hword words syllabified kept.
  rewrite (proj1 (syllabify_ok word conv pat true st Hst)).
  rewrite (proj1 (syllabify_ok word conv pat false st Hst)).
  rewrite !syllabify_value_empty by exact Hword.
  assert (Hmarker : syllabified word = u "##").
  { unfold syllabified. rewrite syllabify_value_empty by exact Hword. reflexivity. }
  assert (Hkept : map syllabified kept
                  = filter (fun s => s <> u "##") (map syllabified words)).
  { unfold kept. symmetry.
    exact (filter_map syllabified (fun s => s <> u "##") words). }
  split; [reflexivity|]. split; [reflexivity|]. split; [|split; [|split]].
  - rewrite (proj1 (syllabify_line_ok lower line conv pat nsp true false st Hst)).
    unfold line_value. fold words. rewrite Hkept. reflexivity.
  - intros H. apply list_elem_of_In, list_elem_of_filter in H as [H _].
    apply H. exact Hmarker.
  - rewrite Hkept. intros H. apply list_elem_of_In, list_elem_of_filter in H as [H _].
    apply H. reflexivity.
  - intros Hin. rewrite Hkept, <- (length_map syllabified words).
    apply (filter_drops _ _ (syllabified word)).
    + apply (in_map syllabified). exact Hin.
    + rewrite Hmarker. intros H. apply H. reflexivity.
Qed.

(** * Counterexamples to the claims as first stated *)

(** C2 as stated fails: for the line ["x ti"] the word ["x"] has the empty
    syllabification and leaves the cues but stays in the outcomes (one cue
    entry, two outcome entries); for the line ["titi"] the two syllables of
    the one word are two cue entries. *)
Lemma event_entries_differ :
  fst (syllabify_line ascii_lower (u "x ti") identity_converter regex_en_ipa
         not_lowercase true true fresh)
  = Event (u "#ti#") (u "x_ti")
  /\ length (split_on 95%N (u "#ti#")) <> length (split_on 95%N (u "x_ti"))
  /\ fst (syllabify_line ascii_lower (u "titi") identity_converter regex_en_ipa
            not_lowercase true true fresh)
     = Event (u "#tit_ti#") (u "titi")
  /\ length (split_on 95%N (u "#tit_ti#")) <> length (split_on 95%N (u "titi")).
Proof.
  split; [vm_compute; reflexivity|]. split; [vm_compute; discriminate|].
  split; [vm_compute; reflexivity|]. vm_compute; discriminate.
Qed.

(** C1 as stated fails: with two workers and [chunksize] 2^62 both sizes
    are at least 1 and their product is above [sys.maxsize]; [islice]
    refuses it and the generator raises, where the sequential run returns
    the event of the line. *)
Lemma oversized_batch_raises :
  (1 <= 2)%Z /\ (1 <= 2 ^ 62)%Z
  /\ syllabify_corpus_generator ascii_lower [u "ti" ++ [newline]] identity_converter
       regex_en_ipa not_lowercase true true 2 (2 ^ 62) fresh round_robin
     = None
  /\ fst (m_map (fun line => syllabify_line ascii_lower line identity_converter
                                regex_en_ipa not_lowercase true true)
                [u "ti" ++ [newline]] fresh)
     = [Event (u "#ti#") (u "ti")].
Proof.
  split; [lia|]. split; [lia|]. split; vm_compute; reflexivity.
Qed.

(** C3 as stated fails: for a line that is only a newline and for a line of
    forbidden symbols only, no word survives and still a record is written
    for each, holding the tab and the newline. *)
Lemma blank_record_written :
  tokenize ascii_lower (sub not_lowercase (u " ") [newline]) = []
  /\ tokenize ascii_lower (sub not_lowercase (u " ") (u "?!" ++ [newline])) = []
  /\ syllabify_corpus ascii_lower [[newline]; u "?!" ++ [newline]] identity_converter
       regex_en_ipa not_lowercase true 1 1 fresh round_robin
     = Some [[9%N; newline]; [9%N; newline]]
  /\ syllabify_corpus ascii_lower [[newline]; u "?!" ++ [newline]] identity_converter
       regex_en_ipa not_lowercase true 1 1 fresh round_robin
     <> Some [].
Proof.
  split; [vm_compute; reflexivity|]. split; [vm_compute; reflexivity|].
  split; [vm_compute; reflexivity|]. vm_compute. discriminate.
Qed.

(** C4 as stated fails: neither with the empty tuple of diphthongs nor with
    diphthongs that do not occur in the word are the matches ["pa"], ["ta"],
    ["to"], and the result with boundaries is not ["#pa_ta_to#"]. *)
Lemma patato_not_pa_ta_to :
  findall (pattern (fst five_vowels_no_diphtongues)) (u "patato")
  <> [u "pa"; u "ta"; u "to"]
  /\ findall (pattern (fst five_vowels)) (u "patato") <> [u "pa"; u "ta"; u "to"]
  /\ syllabify_value (u "patato") identity_converter five_vowels_no_diphtongues true
     <> u "#pa_ta_to#"
  /\ syllabify_value (u "patato") identity_converter five_vowels true
     <> u "#pa_ta_to#".
Proof. repeat split; vm_compute; discriminate. Qed.

(** C5 as stated fails: the transcription ["titi"] gives ["tit_ti"], where
    the consonant [t] between the two vowels stands three times for two in
    the word, while the vowel [i] stands twice in both. *)
Lemma titi_repeats_consonant :
  syllabify_value (u "titi") identity_converter regex_en_ipa false = u "tit_ti"
  /\ count 116%N (u "tit_ti") = 3 /\ count 116%N (u "titi") = 2
  /\ count 105%N (u "tit_ti") = 2 /\ count 105%N (u "titi") = 2
  /\ ~ (forall x, x <> 95%N ->
          count x (syllabify_value (u "titi") identity_converter regex_en_ipa false)
          = count x (transliterate identity_converter (u "titi"))).
Proof.
  repeat split; try (vm_compute; reflexivity).
  intros H. specialize (H 116%N). vm_compute in H.
  assert (E : 3 = 2) by (apply H; discriminate). discriminate.
Qed.

(** C6 as stated fails: the transcription ["ptx"] is not empty and holds no
    vowel and no diphthong, but [x] is no consonant of the inventory
    either; neither pattern finds anything and [syllabify] without
    boundaries returns the empty string. *)
Lemma ptx_gives_nothing :
  transliterate identity_converter (u "ptx") <> []
  /\ Forall (fun x => x ∉ en_vowels) (transliterate identity_converter (u "ptx"))
  /\ Forall (fun d => ~ substring d (transliterate identity_converter (u "ptx")))
       en_diphtongues
  /\ findall (pattern (fst regex_en_ipa)) (transliterate identity_converter (u "ptx")) = []
  /\ findall (pattern (snd regex_en_ipa)) (transliterate identity_converter (u "ptx")) = []
  /\ fst (syllabify (u "ptx") identity_converter regex_en_ipa false fresh) = [].
Proof.
  split; [discriminate|].
  split; [apply (bool_decide_unpack _); vm_compute; exact I|].
  split; [|repeat split; vm_compute; reflexivity].
  repeat apply Forall_cons_2; [..|apply Forall_nil_2]; intros H.
  - apply (substring_elem _ _ 97%N) in H; [revert H|];
      apply (bool_decide_unpack _); vm_compute; exact I.
  - apply (substring_elem _ _ 97%N) in H; [revert H|];
      apply (bool_decide_unpack _); vm_compute; exact I.
  - apply (substring_elem _ _ 101%N) in H; [revert H|];
      apply (bool_decide_unpack _); vm_compute; exact I.
  - apply (substring_elem _ _ 111%N) in H; [revert H|];
      apply (bool_decide_unpack _); vm_compute; exact I.
  - apply (substring_elem _ _ 111%N) in H; [revert H|];
      apply (bool_decide_unpack _); vm_compute; exact I.
Qed.

(** C9 as stated fails: after the call of [syllabify_line], which passes the
    four arguments by keyword, a call with the same word, converter,
    patterns and flag passed positionally is not answered from the cache:
    it returns the same string, and runs [findall] again. So does a call
    that leaves the default of [add_boundaries] out. *)
Lemma keyword_then_positional_recomputes :
  fst (syllabify_call (fst keyword_ti) (snd keyword_ti) fresh) = Some (u "#ti#")
  /\ invocations (run_calls [keyword_ti] fresh) = [(1%positive, u "ti")]
  /\ invocations (run_calls [keyword_ti; keyword_ti] fresh) = [(1%positive, u "ti")]
  /\ fst (syllabify_call (fst positional_ti) (snd positional_ti)
            (run_calls [keyword_ti] fresh))
     = Some (u "#ti#")
  /\ invocations (run_calls [keyword_ti; positional_ti] fresh)
     = [(1%positive, u "ti"); (1%positive, u "ti")]
  /\ fst (syllabify_call (fst default_ti) (snd default_ti)
            (run_calls [keyword_ti; positional_ti] fresh))
     = Some (u "#ti#")
  /\ invocations (run_calls [keyword_ti; positional_ti; default_ti] fresh)
     = [(1%positive, u "ti"); (1%positive, u "ti"); (1%positive, u "ti")].
Proof. repeat split; vm_compute; reflexivity. Qed.

(** C10 as stated fails: 2^63 is a [chunksize] of at least 1 that [islice]
    refuses, so [chunk] raises on its first step and yields no chunks. *)
Lemma oversized_chunk_raises :
  (1 <= 2 ^ 63)%Z
  /\ chunk [1; 2; 3] (2 ^ 63) = None
  /\ ~ (exists chunks, chunk [1; 2; 3] (2 ^ 63) = Some chunks
                       /\ concat chunks = [1; 2; 3]).
Proof.
  split; [lia|]. split; [vm_compute; reflexivity|].
  intros (chunks & H & _). vm_compute in H. discriminate.
Qed.

(** * Instances *)

Lemma generator_is_sequential_witness :
  (1 <= 2)%Z /\ (1 <= 1)%Z /\ (1 * 2 <= sys_maxsize)%Z
  /\ cache_ok identity_converter regex_en_ipa fresh
  /\ syllabify_corpus_generator ascii_lower
       [u "titi x" ++ [newline]; [newline]; u "ptk ti" ++ [newline]]
       identity_converter regex_en_ipa not_lowercase true true 2 1 fresh round_robin
     = Some (fst (m_map (fun line => syllabify_line ascii_lower line identity_converter
                                       regex_en_ipa not_lowercase true true)
                        [u "titi x" ++ [newline]; [newline]; u "ptk ti" ++ [newline]]
                        fresh)).
Proof.
  assert (Hfresh : cache_ok identity_converter regex_en_ipa fresh).
  { intros word ab value H. simpl in H. rewrite lookup_empty in H. discriminate. }
  assert (Hmax : (1 * 2 <= sys_maxsize)%Z) by (vm_compute; discriminate).
  split; [lia|]. split; [lia|]. split; [exact Hmax|]. split; [exact Hfresh|].
  apply (generator_is_sequential ascii_lower
           [u "titi x" ++ [newline]; [newline]; u "ptk ti" ++ [newline]]
           identity_converter regex_en_ipa not_lowercase true true 2 1 fresh fresh
           round_robin); [lia|lia|exact Hmax|exact Hfresh|exact Hfresh].
Defined.

Lemma event_cues_and_outcomes_witness :
  cache_ok identity_converter regex_en_ipa fresh
  /\ fst (syllabify_line ascii_lower (u "x ti") identity_converter regex_en_ipa
            not_lowercase true true fresh)
     = Event (u "#ti#") (u "x_ti").
Proof.
  assert (Hfresh : cache_ok identity_converter regex_en_ipa fresh).
  { intros word ab value H. simpl in H. rewrite lookup_empty in H. discriminate. }
  split; [exact Hfresh|].
  exact (proj1 (event_cues_and_outcomes ascii_lower (u "x ti") identity_converter
                  regex_en_ipa not_lowercase true fresh Hfresh)).
Defined.

Lemma corpus_writes_every_line_witness :
  (1 <= 2)%Z /\ (1 <= 3)%Z /\ (3 * 2 <= sys_maxsize)%Z
  /\ cache_ok identity_converter regex_en_ipa fresh
  /\ syllabify_corpus ascii_lower [u "titi x" ++ [newline]; u "?!" ++ [newline]]
       identity_converter regex_en_ipa not_lowercase true 2 3 fresh round_robin
     = Some [u "#tit_ti#" ++ [9%N] ++ u "titi_x" ++ [newline]; [9%N; newline]].
Proof.
  assert (Hfresh : cache_ok identity_converter regex_en_ipa fresh).
  { intros word ab value H. simpl in H. rewrite lookup_empty in H. discriminate. }
  assert (Hmax : (3 * 2 <= sys_maxsize)%Z) by (vm_compute; discriminate).
  split; [lia|]. split; [lia|]. split; [exact Hmax|]. split; [exact Hfresh|].
  rewrite (proj1 (corpus_writes_every_line ascii_lower
                    [u "titi x" ++ [newline]; u "?!" ++ [newline]] identity_converter
                    regex_en_ipa not_lowercase true 2 3 fresh round_robin
                    ltac:(lia) ltac:(lia) Hmax Hfresh)).
  vm_compute. reflexivity.
Defined.

Lemma syllables_cover_the_word_witness :
  well_formed en_vowels en_diphtongues en_consonants (u "t")
    [(u "i", u "t"); (u "aj", [])]
  /\ transliterate identity_converter (u "titaj")
     = u "t" ++ spell [(u "i", u "t"); (u "aj", [])]
  /\ 116%N <> 95%N
  /\ findall (pattern (fst regex_en_ipa)) (transliterate identity_converter (u "titaj"))
     = syllables_of (u "t") [(u "i", u "t"); (u "aj", [])]
  /\ count 116%N (syllabify_value (u "titaj") identity_converter regex_en_ipa false)
     = count 116%N (transliterate identity_converter (u "titaj"))
       + count 116%N (concat (inner_codas [(u "i", u "t"); (u "aj", [])])).
Proof.
  assert (Hwf : well_formed en_vowels en_diphtongues en_consonants (u "t")
                  [(u "i", u "t"); (u "aj", [])]).
  { split.
    - apply (bool_decide_unpack _). vm_compute. exact I.
    - apply Forall_cons. split.
      + split; [left; exists 105%N; split; [reflexivity|]|];
          apply (bool_decide_unpack _); vm_compute; exact I.
      + apply Forall_cons. split; [|apply Forall_nil_2].
        split; [right|]; apply (bool_decide_unpack _); vm_compute; exact I. }
  split; [exact Hwf|]. split; [reflexivity|]. split; [discriminate|].
  apply (syllables_cover_the_word (u "titaj") identity_converter (u "t")
           [(u "i", u "t"); (u "aj", [])] 116%N Hwf); [reflexivity|discriminate].
Defined.

Lemma consonant_word_fallback_witness :
  cache_ok identity_converter regex_en_ipa fresh
  /\ transliterate identity_converter (u "ptk") <> []
  /\ Forall (fun x => x ∈ en_consonants) (transliterate identity_converter (u "ptk"))
  /\ fst (syllabify (u "ptk") identity_converter regex_en_ipa false fresh)
     = transliterate identity_converter (u "ptk").
Proof.
  assert (Hfresh : cache_ok identity_converter regex_en_ipa fresh).
  { intros word ab value H. simpl in H. rewrite lookup_empty in H. discriminate. }
  assert (Hall : Forall (fun x => x ∈ en_consonants)
                   (transliterate identity_converter (u "ptk"))).
  { apply (bool_decide_unpack _). vm_compute. exact I. }
  split; [exact Hfresh|]. split; [discriminate|]. split; [exact Hall|].
  apply (consonant_word_fallback (u "ptk") identity_converter fresh Hfresh);
    [discriminate|exact Hall].
Defined.

Lemma boundaries_wrap_witness :
  cache_ok identity_converter regex_en_ipa fresh
  /\ fst (syllabify (u "titi") identity_converter regex_en_ipa true fresh)
     = hash ++ fst (syllabify (u "titi") identity_converter regex_en_ipa false fresh)
       ++ hash.
Proof.
  assert (Hfresh : cache_ok identity_converter regex_en_ipa fresh).
  { intros word ab value H. simpl in H. rewrite lookup_empty in H. discriminate. }
  split; [exact Hfresh|].
  exact (proj1 (boundaries_wrap (u "titi") identity_converter regex_en_ipa fresh fresh
                  Hfresh Hfresh)).
Defined.

Lemma empty_transcription_witness :
  cache_ok dropping_converter regex_en_ipa fresh
  /\ transliterate dropping_converter (u "x") = []
  /\ fst (syllabify (u "x") dropping_converter regex_en_ipa true fresh) = u "##"
  /\ fst (syllabify (u "x") dropping_converter regex_en_ipa false fresh) = []
  /\ tokenize ascii_lower (sub not_lowercase (u " ") (u "x ti x")) = [u "x"; u "ti"; u "x"]
  /\ fst (syllabify_line ascii_lower (u "x ti x") dropping_converter regex_en_ipa
            not_lowercase true false fresh)
     = Syllables [u "#ti#"]
  /\ length [u "#ti#"]
     < length (tokenize ascii_lower (sub not_lowercase (u " ") (u "x ti x")))
  /\ cache_ok identity_converter regex_en_ipa fresh
  /\ transliterate identity_converter [] = []
  /\ fst (syllabify [] identity_converter regex_en_ipa true fresh) = u "##"
  /\ fst (syllabify [] identity_converter regex_en_ipa false fresh) = [].
Proof.
  assert (Hfresh : forall conv, cache_ok conv regex_en_ipa fresh).
  { intros conv word ab value H. simpl in H. rewrite lookup_empty in H. discriminate. }
  destruct (empty_transcription ascii_lower (u "x") (u "x ti x") dropping_converter
              regex_en_ipa not_lowercase fresh (Hfresh _) eq_refl)
    as (Htrue & Hfalse & Hline & _ & _ & Hshorter).
  assert (Hin : In (u "x") (tokenize ascii_lower (sub not_lowercase (u " ") (u "x ti x"))))
    by (vm_compute; left; reflexivity).
  specialize (Hshorter Hin).
  destruct (empty_transcription ascii_lower [] [] identity_converter
              regex_en_ipa not_lowercase fresh (Hfresh _) eq_refl)
    as (Htrue' & Hfalse' & _).
  split; [apply Hfresh|]. split; [reflexivity|].
  split; [exact Htrue|]. split; [exact Hfalse|].
  split; [vm_compute; reflexivity|].
  split; [rewrite Hline; vm_compute; reflexivity|].
  split; [exact Hshorter|].
  split; [apply Hfresh|]. split; [reflexivity|].
  split; [exact Htrue'|exact Hfalse'].
Defined.

Lemma second_call_is_cached_witness :
  fst (syllabify_call (fst default_ti) (snd default_ti) fresh) = Some (u "#ti#")
  /\ fst (syllabify_call (fst default_ti) (snd default_ti)
            (run_calls [keyword_ti; positional_ti]
               (snd (syllabify_call (fst default_ti) (snd default_ti) fresh))))
     = Some (u "#ti#")
  /\ invocations
       (snd (syllabify_call (fst default_ti) (snd default_ti)
               (run_calls [keyword_ti; positional_ti]
                  (snd (syllabify_call (fst default_ti) (snd default_ti) fresh)))))
     = invocations
         (run_calls [keyword_ti; positional_ti]
            (snd (syllabify_call (fst default_ti) (snd default_ti) fresh))).
Proof.
  assert (Hfirst : fst (syllabify_call (fst default_ti) (snd default_ti) fresh)
                   = Some (u "#ti#"))
    by (vm_compute; reflexivity).
  destruct (second_call_is_cached (fst default_ti) (snd default_ti)
              [keyword_ti; positional_ti] fresh (u "#ti#") Hfirst)
    as (Hvalue & _ & Hcalls & _).
  split; [exact Hfirst|]. split; [exact Hvalue|exact Hcalls].
Defined.

Lemma chunk_partitions_witness :
  (1 <= 2 <= sys_maxsize)%Z
  /\ exists chunks,
       chunk [1; 2; 3; 4; 5] 2 = Some chunks
       /\ concat chunks = [1; 2; 3; 4; 5]
       /\ Forall (fun item => item <> [] /\ (Z.of_nat (length item) <= 2)%Z) chunks
       /\ forall i item,
            chunks !! i = Some item -> S i < length chunks ->
            Z.of_nat (length item) = 2%Z.
Proof.
  assert (Hsize : (1 <= 2 <= sys_maxsize)%Z) by (split; vm_compute; discriminate).
  split; [exact Hsize|]. apply (chunk_partitions [1; 2; 3; 4; 5] 2 Hsize).
Defined.

(** * Further properties *)

(** ** Where a match can stop *)

Lemma iterate_set_moves cs rounds :
  forall c c', In c' (iterate (matches (Set_ cs)) rounds c) ->
    exists seg, after c = seg ++ after c' /\ before c' = reverse seg ++ before c
                /\ Forall (fun x => x ∈ cs) seg /\ group1 c' = group1 c.
Proof.
  induction rounds as [|rounds IH]; intros c c' Hin.
  - destruct Hin as [<-|[]]. exists []. repeat split. constructor.
  - rewrite iterate_S in Hin.
    apply in_app_or in Hin as [Hin|[<-|[]]];
      [|exists []; repeat split; constructor].
    apply in_flat_map in Hin as (c1 & Hc1 & Hin).
    destruct c as [pre [|x rest] g]; [destruct Hc1|].
    rewrite matches_set_cons in Hc1.
    destruct (decide (x ∈ cs)) as [Hx|]; [|destruct Hc1].
    destruct Hc1 as [<-|[]]. cbn [after] in Hin.
    destruct (length rest <? length (x :: rest)); [|destruct Hin].
    destruct (IH _ _ Hin) as (seg & Ha & Hb & Hall & Hg). cbn [after before group1] in *.
    exists (x :: seg). rewrite Ha, Hb, reverse_cons, <- app_assoc.
    repeat split; [constructor; assumption|exact Hg].
Qed.

Lemma star_set_moves cs c c' :
  In c' (matches (Star (Set_ cs)) c) ->
  exists seg, after c = seg ++ after c' /\ before c' = reverse seg ++ before c
              /\ Forall (fun x => x ∈ cs) seg /\ group1 c' = group1 c.
Proof. rewrite matches_star. apply iterate_set_moves. Qed.

Lemma nucleus_moves V D c c' :
  D <> [] -> In c' (matches (nucleus V D) c) ->
  exists n, nucleus_symbol V D n /\ after c = n ++ after c'
            /\ before c' = reverse n ++ before c /\ group1 c' = group1 c.
Proof.
  intros HD Hin. unfold nucleus in Hin. rewrite matches_alternatives in Hin.
  replace (joined D) with (map Lit D) in Hin by (destruct D; [contradiction|reflexivity]).
  apply in_app_or in Hin as [Hin|Hin].
  - destruct c as [pre [|x rest] g]; [destruct Hin|].
    rewrite matches_set_cons in Hin. destruct (decide (x ∈ V)) as [Hx|]; [|destruct Hin].
    destruct Hin as [<-|[]]. exists [x]. repeat split. left. exists x. auto.
  - apply in_flat_map in Hin as (r' & Hr' & Hin).
    apply in_map_iff in Hr' as (d & <- & Hd). apply list_elem_of_In in Hd.
    rewrite matches_lit in Hin. destruct (decide _) as [E|]; [|destruct Hin].
    destruct Hin as [<-|[]]. exists d. cbn [after before group1].
    split; [right; exact Hd|]. split; [|split; reflexivity].
    rewrite <- E at 1. symmetry. apply take_drop.
Qed.

Lemma has_group_alternatives r rs :
  has_group (alternatives r rs) = has_group r || existsb has_group rs.
Proof.
  revert r. induction rs as [|r' rs IH]; intros r; cbn [alternatives has_group existsb].
  - rewrite orb_false_r. reflexivity.
  - rewrite IH. reflexivity.
Qed.

Lemma lookahead_has_no_group V D : has_group (lookahead V D) = false.
Proof.
  unfold lookahead. rewrite has_group_alternatives. cbn [has_group orb].
  rewrite existsb_app. cbn [existsb has_group]. rewrite !orb_false_r.
  unfold joined. destruct D as [|d D]; [reflexivity|].
  induction (d :: D) as [|d' l IH]; [reflexivity|]. cbn. exact IH.
Qed.

Lemma syllable_here_group V D C c c' :
  D <> [] -> In c' (matches (syllable_here V D C) c) ->
  exists item tail,
    after c = item ++ tail /\ syllable_shaped V D C item /\ group1 c' = Some item.
Proof.
  intros HD Hin. unfold syllable_here in Hin. rewrite matches_cat in Hin.
  apply in_flat_map in Hin as (c0 & Hc0 & Hin). apply behind_self in Hc0 as ->.
  rewrite matches_cat in Hin. apply in_flat_map in Hin as (cg & Hcg & Hin).
  rewrite (matches_keeps_group _ (lookahead_has_no_group V D) _ _ Hin).
  rewrite matches_group in Hcg. apply in_map_iff in Hcg as (cb & <- & Hcb).
  unfold syllable_body in Hcb. rewrite matches_cat in Hcb.
  apply in_flat_map in Hcb as (c1 & Hc1 & Hcb). rewrite matches_cat in Hcb.
  apply in_flat_map in Hcb as (c2 & Hc2 & Hcb).
  destruct (star_set_moves _ _ _ Hc1) as (onset & Ha1 & _ & Honset & _).
  destruct (nucleus_moves _ _ _ _ HD Hc2) as (n & Hn & Ha2 & _ & _).
  destruct (star_set_moves _ _ _ Hcb) as (coda & Ha3 & _ & Hcoda & _).
  exists (onset ++ n ++ coda), (after cb). cbn [group1].
  assert (Hafter : after c = (onset ++ n ++ coda) ++ after cb).
  { rewrite Ha1, Ha2, Ha3, <- !app_assoc. reflexivity. }
  split; [exact Hafter|]. split; [exists onset, n, coda; auto|].
  f_equal. unfold consumed. rewrite Hafter at 1 2. rewrite length_app.
  replace (length (onset ++ n ++ coda) + length (after cb) - length (after cb))
    with (length (onset ++ n ++ coda)) by lia.
  rewrite <- Hafter at 1. rewrite Hafter. apply take_app_length.
Qed.

Lemma scan_syllable_items V D C rest :
  D <> [] ->
  forall pre,
    Forall (fun item => syllable_shaped V D C item
                        /\ exists k tail, drop k rest = item ++ tail)
           (scan (pattern_syllable V D C) pre rest 0).
Proof.
  intros HD. unfold pattern_syllable.
  assert (Hg : has_group (syllable_here V D C) = true).
  { unfold syllable_here. cbn [has_group orb]. apply orb_true_r. }
  induction rest as [|x rest IH]; intros pre; rewrite scan_ahead, Hg.
  - rewrite app_nil_r.
    destruct (matches (syllable_here V D C) (Cursor pre [] None)) as [|c' l] eqn:E;
      [constructor|].
    destruct (syllable_here_group V D C (Cursor pre [] None) c' HD)
      as (item & tail & Ha & Hs & Hgr); [rewrite E; left; reflexivity|].
    rewrite Hgr. constructor; [|constructor]. split; [exact Hs|].
    exists 0, tail. exact Ha.
  - apply Forall_app. split.
    + destruct (matches (syllable_here V D C) (Cursor pre (x :: rest) None))
        as [|c' l] eqn:E; [constructor|].
      destruct (syllable_here_group V D C (Cursor pre (x :: rest) None) c' HD)
        as (item & tail & Ha & Hs & Hgr); [rewrite E; left; reflexivity|].
      rewrite Hgr. constructor; [|constructor]. split; [exact Hs|].
      exists 0, tail. exact Ha.
    + eapply Forall_impl; [apply (IH (x :: pre))|].
      intros item [Hs (k & tail & Hk)]. split; [exact Hs|]. exists (S k), tail. exact Hk.
Qed.

(** ** The consonant pattern on any subject *)

Lemma scan_consonant_later C rest :
  forall pre skip, pre <> [] -> scan (pattern_consonant C) pre rest skip = [].
Proof.
  induction rest as [|x rest IH]; intros pre skip Hpre.
  - destruct skip; [|reflexivity].
    rewrite scan_0, attempt_none; [reflexivity|].
    apply consonant_no_match_later. exact Hpre.
  - destruct skip as [|k].
    + rewrite scan_0, attempt_none by (apply consonant_no_match_later; exact Hpre).
      cbn zeta. apply IH. discriminate.
    + rewrite scan_S. apply IH. discriminate.
Qed.

Lemma consonant_match_moves C s c' :
  In c' (matches (pattern_consonant C) (Cursor [] s None)) ->
  exists item,
    s = item ++ after c' /\ item <> [] /\ Forall (fun x => x ∈ C) item
    /\ (after c' = [] \/ after c' = [newline]).
Proof.
  unfold pattern_consonant, Plus. rewrite matches_cat. intros Hin.
  apply in_flat_map in Hin as (c0 & Hc0 & Hin). apply behind_self in Hc0 as ->.
  rewrite matches_cat in Hin. apply in_flat_map in Hin as (c2 & Hc2 & Hin).
  rewrite matches_cat in Hc2. apply in_flat_map in Hc2 as (c1 & Hc1 & Hc2).
  destruct s as [|x rest]; [destruct Hc1|].
  rewrite matches_set_cons in Hc1. destruct (decide (x ∈ C)) as [Hx|]; [|destruct Hc1].
  destruct Hc1 as [<-|[]].
  destruct (star_set_moves _ _ _ Hc2) as (seg & Ha & _ & Hseg & _). cbn [after] in Ha.
  rewrite matches_eol in Hin. destruct (decide _) as [Hend|]; [|destruct Hin].
  destruct Hin as [<-|[]].
  exists (x :: seg). rewrite Ha. repeat split; [discriminate|constructor; assumption|exact Hend].
Qed.

Lemma findall_consonant_any C s :
  findall (pattern_consonant C) s = []
  \/ exists item tail,
       findall (pattern_consonant C) s = [item] /\ s = item ++ tail /\ item <> []
       /\ Forall (fun x => x ∈ C) item /\ (tail = [] \/ tail = [newline]).
Proof.
  assert (Hstep : forall k, match s with
                            | [] => []
                            | x :: rest' => scan (pattern_consonant C) [x] rest' k
                            end = []).
  { intros k. destruct s; [reflexivity|]. apply scan_consonant_later. discriminate. }
  destruct (matches (pattern_consonant C) (Cursor [] s None)) as [|c' l] eqn:E.
  - left. unfold findall. rewrite scan_0, attempt_none by exact E. apply Hstep.
  - right. destruct (consonant_match_moves C s c') as (item & Hs & Hne & Hall & Hend);
      [rewrite E; left; reflexivity|].
    assert (Hatt : attempt (pattern_consonant C) [] s false = Some (length item, item)).
    { unfold attempt. rewrite E, filter_cons.
      destruct (decide _) as [_|H]; [|exfalso; apply H; left; reflexivity].
      assert (Hcons : consumed (Cursor [] s None) c' = length item).
      { unfold consumed. cbn [after]. rewrite Hs at 1. rewrite length_app. lia. }
      rewrite Hcons. cbn [has_group pattern_consonant Plus orb].
      do 2 f_equal. rewrite Hs at 1. apply take_app_length. }
    exists item, (after c'). split; [|auto].
    unfold findall. rewrite scan_0, Hatt. cbn zeta.
    destruct (length item) as [|n] eqn:Hlen;
      [destruct item; [contradiction|discriminate]|].
    rewrite Hstep. reflexivity.
Qed.

(** ** The characters of a result *)

Lemma in_join x sep parts :
  In x (join sep parts) -> In x sep \/ exists item, In item parts /\ In x item.
Proof.
  induction parts as [|p parts IH]; [intros []|].
  destruct parts as [|q parts].
  - intros H. right. exists p. split; [left; reflexivity|exact H].
  - change (join sep (p :: q :: parts)) with (p ++ sep ++ join sep (q :: parts)).
    intros H. apply in_app_or in H as [H|H].
    + right. exists p. split; [left; reflexivity|exact H].
    + apply in_app_or in H as [H|H]; [left; exact H|].
      destruct (IH H) as [Hs|(item & Hi & Hx)]; [left; exact Hs|].
      right. exists item. split; [right; exact Hi|exact Hx].
Qed.

Lemma syllable_shaped_chars V D C item x :
  syllable_shaped V D C item -> In x item ->
  x ∈ V \/ x ∈ C \/ exists d, d ∈ D /\ x ∈ d.
Proof.
  intros (onset & n & coda & -> & Honset & Hn & Hcoda) Hx.
  rewrite Forall_forall in Honset, Hcoda.
  apply in_app_or in Hx as [Hx|Hx];
    [right; left; apply Honset, list_elem_of_In, Hx|].
  apply in_app_or in Hx as [Hx|Hx];
    [|right; left; apply Hcoda, list_elem_of_In, Hx].
  destruct Hn as [(v & -> & Hv)|Hd].
  - destruct Hx as [<-|[]]. left. exact Hv.
  - right. right. exists n. split; [exact Hd|apply list_elem_of_In, Hx].
Qed.

Lemma syllabify_value_chars V D C i j word conv x :
  D <> [] ->
  In x (syllabify_value word conv
          (Compiled i (pattern_syllable V D C), Compiled j (pattern_consonant C)) false) ->
  x = 95%N \/ x ∈ V \/ x ∈ C \/ exists d, d ∈ D /\ x ∈ d.
Proof.
  intros HD. rewrite syllabify_value_eq. cbn [fst snd pattern]. cbn zeta.
  pose proof (scan_syllable_items V D C (transliterate conv word) HD []) as Hitems.
  fold (findall (pattern_syllable V D C) (transliterate conv word)) in Hitems.
  destruct (findall (pattern_syllable V D C) (transliterate conv word)) as [|m ms] eqn:E.
  - intros Hx. apply in_join in Hx as [Hx|(item & Hi & Hx)].
    + left. destruct Hx as [<-|[]]. reflexivity.
    + right. right. left.
      destruct (findall_consonant_any C (transliterate conv word))
        as [H|(item' & tail & H & _ & _ & Hall & _)]; rewrite H in Hi; [destruct Hi|].
      destruct Hi as [<-|[]]. rewrite Forall_forall in Hall.
      apply Hall, list_elem_of_In, Hx.
  - intros Hx. apply in_join in Hx as [Hx|(item & Hi & Hx)].
    + left. destruct Hx as [<-|[]]. reflexivity.
    + right. rewrite Forall_forall in Hitems.
      apply list_elem_of_In in Hi. destruct (Hitems item Hi) as [Hs _].
      apply (syllable_shaped_chars V D C item x Hs Hx).
Qed.

(** ** A subject where no nucleus can start *)

Lemma nucleus_cannot_start V D c :
  Forall (fun d => d <> []) D -> D <> [] ->
  (forall x rest, after c = x :: rest ->
     (x ∉ V) /\ forall d, d ∈ D -> head d <> Some x) ->
  matches (nucleus V D) c = [].
Proof.
  intros Hne HD Hhead. unfold nucleus. rewrite matches_alternatives.
  replace (joined D) with (map Lit D) by (destruct D; [contradiction|reflexivity]).
  assert (Hset : matches (Set_ V) c = []).
  { rewrite matches_set. destruct (after c) as [|x rest] eqn:E; [reflexivity|].
    destruct (decide (x ∈ V)) as [Hv|]; [|reflexivity].
    exfalso. exact (proj1 (Hhead x rest eq_refl) Hv). }
  rewrite Hset. apply flat_map_nil. intros r' Hr'.
  apply in_map_iff in Hr' as (d & <- & Hd). apply list_elem_of_In in Hd.
  rewrite matches_lit. destruct (decide _) as [Ht|]; [|reflexivity]. exfalso.
  rewrite Forall_forall in Hne. specialize (Hne d Hd).
  destruct d as [|y d]; [contradiction|].
  destruct (after c) as [|x rest] eqn:E; [discriminate|]. cbn in Ht.
  injection Ht as -> _. exact (proj2 (Hhead y rest eq_refl) (y :: d) Hd eq_refl).
Qed.

Lemma no_syllable_without_nucleus V D C s :
  Forall (fun d => d <> []) D -> D <> [] ->
  Forall (fun x => (x ∉ V) /\ forall d, d ∈ D -> head d <> Some x) s ->
  findall (pattern_syllable V D C) s = [].
Proof.
  intros Hne HD Hs. apply scan_no_match. intros k pre'.
  unfold pattern_syllable. rewrite matches_ahead.
  assert (E : matches (syllable_here V D C) (Cursor pre' (drop k s) None) = []);
    [|rewrite E; reflexivity].
  unfold syllable_here. rewrite matches_cat. apply flat_map_nil.
  intros c0 Hc0. apply behind_self in Hc0 as ->.
  rewrite matches_cat, matches_group.
  assert (Hbody : matches (syllable_body V D C) (Cursor pre' (drop k s) None) = []);
    [|rewrite Hbody; reflexivity].
  unfold syllable_body. rewrite matches_cat. apply flat_map_nil. intros c1 Hc1.
  destruct (star_set_moves _ _ _ Hc1) as (seg & Ha & _). cbn [after] in Ha.
  rewrite matches_cat, nucleus_cannot_start; [reflexivity|assumption..|].
  intros x rest Hx.
  assert (Hin : x ∈ s).
  { apply (subseteq_drop k s). rewrite Ha, Hx.
    apply elem_of_app. right. left. }
  rewrite Forall_forall in Hs. apply Hs, Hin.
Qed.

(** ** Splitting and joining *)

Lemma split_on_fields sep s : Forall (fun field => sep ∉ field) (split_on sep s).
Proof.
  induction s as [|x s IH]; cbn [split_on].
  - constructor; [apply not_elem_of_nil|constructor].
  - destruct (decide (x = sep)) as [->|Hx].
    + constructor; [apply not_elem_of_nil|exact IH].
    + destruct (split_on sep s) as [|field fields].
      * constructor; [|constructor]. intros H. apply list_elem_of_singleton in H.
        congruence.
      * apply Forall_cons in IH as [Hf Hfs]. constructor; [|exact Hfs].
        intros H. apply elem_of_cons in H as [H|H]; [congruence|contradiction].
Qed.

Lemma split_on_whole sep s : sep ∉ s -> split_on sep s = [s].
Proof.
  induction s as [|x s IH]; intros Hs; [reflexivity|]. cbn [split_on].
  destruct (decide (x = sep)) as [->|Hx]; [exfalso; apply Hs; left|].
  rewrite IH; [reflexivity|]. intros H. apply Hs. right. exact H.
Qed.

Lemma split_on_app sep p s :
  sep ∉ p -> split_on sep (p ++ sep :: s) = p :: split_on sep s.
Proof.
  induction p as [|x p IH]; intros Hp.
  - cbn [app split_on]. destruct (decide (sep = sep)); [reflexivity|contradiction].
  - cbn [app split_on].
    destruct (decide (x = sep)) as [->|Hx]; [exfalso; apply Hp; left|].
    rewrite IH; [reflexivity|]. intros H. apply Hp. right. exact H.
Qed.

Lemma split_on_join sep parts :
  parts <> [] -> Forall (fun p => sep ∉ p) parts ->
  split_on sep (join [sep] parts) = parts.
Proof.
  intros Hne Hall. induction parts as [|p parts IH]; [contradiction|].
  apply Forall_cons in Hall as [Hp Hall]. destruct parts as [|q parts].
  - apply split_on_whole. exact Hp.
  - change (join [sep] (p :: q :: parts)) with (p ++ sep :: join [sep] (q :: parts)).
    rewrite split_on_app by exact Hp. f_equal. apply IH; [discriminate|exact Hall].
Qed.

Lemma join_split_on sep s : join [sep] (split_on sep s) = s.
Proof.
  induction s as [|x s IH]; [reflexivity|]. cbn [split_on].
  destruct (decide (x = sep)) as [->|Hx].
  - destruct (split_on sep s) as [|field fields] eqn:E.
    + destruct s; cbn in E; [discriminate|].
      destruct (decide _); [discriminate|]. destruct (split_on sep s); discriminate.
    + change (join [sep] ([] :: field :: fields))
        with (sep :: join [sep] (field :: fields)).
      rewrite IH. reflexivity.
  - destruct (split_on sep s) as [|field fields] eqn:E.
    + destruct s; cbn in E; [discriminate|].
      destruct (decide _); [discriminate|]. destruct (split_on sep s); discriminate.
    + rewrite <- IH. destruct fields; reflexivity.
Qed.

(** ** The first lines of a corpus *)

Lemma first_lines_loop_spec {A} (corpus : list A) :
  forall n, first_lines_loop corpus n = (take n corpus, drop n corpus).
Proof.
  induction corpus as [|line corpus IH]; intros [|n]; try reflexivity.
  cbn [first_lines_loop]. rewrite IH. reflexivity.
Qed.

(** ** The cache only grows *)

Lemma syllabify_grows word conv pat ab st :
  cache st ⊆ cache (snd (syllabify word conv pat ab st))
  /\ is_Some (cache (snd (syllabify word conv pat ab st)) !! keyword_key word conv pat ab)
  /\ cache (snd (syllabify word conv pat ab st)) !! keyword_key word conv pat ab
     = Some (fst (syllabify word conv pat ab st)).
Proof.
  unfold syllabify.
  destruct (cache st !! keyword_key word conv pat ab) as [value|] eqn:Hlook.
  - cbn [fst snd]. split; [reflexivity|]. rewrite Hlook. split; [eexists; reflexivity|reflexivity].
  - destruct (syllabify_body word conv pat ab) as [value calls]. cbn [fst snd cache].
    split; [apply insert_subseteq; exact Hlook|].
    rewrite lookup_insert_eq. split; [eexists; reflexivity|reflexivity].
Qed.

Lemma syllabify_words_grows words conv pat ab :
  forall acc st,
    cache st ⊆ cache (snd (syllabify_words words conv pat ab acc st))
    /\ (forall w, In w words ->
          is_Some (cache (snd (syllabify_words words conv pat ab acc st))
                     !! keyword_key w conv pat ab))
    /\ fst (syllabify_words words conv pat ab acc st)
       = acc ++ filter (fun s => s <> u "##")
                  (map (fun w => default []
                          (cache (snd (syllabify_words words conv pat ab acc st))
                             !! keyword_key w conv pat ab)) words).
Proof.
  induction words as [|word words IH]; intros acc st.
  - cbn. rewrite app_nil_r. split; [reflexivity|]. split; [intros w []|reflexivity].
  - cbn [syllabify_words]. unfold m_bind.
    destruct (syllabify_grows word conv pat ab st) as (Hsub & _ & Hlook).
    destruct (syllabify word conv pat ab st) as [s st1]. cbn [fst snd] in *.
    destruct (IH (if decide (s <> u "##") then acc ++ [s] else acc) st1)
      as (Hsub' & Hsome & Hres).
    set (st2 := snd (syllabify_words words conv pat ab
                       (if decide (s <> u "##") then acc ++ [s] else acc) st1)) in *.
    assert (Hlook2 : cache st2 !! keyword_key word conv pat ab = Some s)
      by (eapply lookup_weaken; eassumption).
    split; [etransitivity; eassumption|]. split.
    + intros w [<-|Hw]; [rewrite Hlook2; eexists; reflexivity|apply Hsome, Hw].
    + rewrite Hres. cbn [map].
      match goal with
      | |- context [default [] ?X :: _] =>
          replace X with (Some s) by (symmetry; exact Hlook2)
      end.
      change (default [] (Some s)) with s. rewrite filter_cons.
      destruct (decide (s <> u "##")); [rewrite <- app_assoc|]; reflexivity.
Qed.

Lemma syllabify_words_cached words conv pat ab :
  forall acc st,
    (forall w, In w words -> is_Some (cache st !! keyword_key w conv pat ab)) ->
    syllabify_words words conv pat ab acc st
    = (acc ++ filter (fun s => s <> u "##")
                (map (fun w => default [] (cache st !! keyword_key w conv pat ab)) words),
       st).
Proof.
  induction words as [|word words IH]; intros acc st Hall.
  - cbn. rewrite app_nil_r. reflexivity.
  - cbn [syllabify_words]. unfold m_bind, syllabify at 1.
    destruct (Hall word (or_introl eq_refl)) as [s Hs]. rewrite Hs.
    rewrite IH by (intros w Hw; apply Hall; right; exact Hw).
    cbn [map].
    match goal with
    | |- context [default [] ?X :: _] =>
        replace X with (Some s) by (symmetry; exact Hs)
    end.
    change (default [] (Some s)) with s. rewrite filter_cons.
    destruct (decide (s <> u "##")); [rewrite <- app_assoc|]; reflexivity.
Qed.

Lemma syllabify_line_rerun lower line conv pat nsp ab ev st :
  syllabify_line lower line conv pat nsp ab ev
    (snd (syllabify_line lower line conv pat nsp ab ev st))
  = syllabify_line lower line conv pat nsp ab ev st
  /\ cache st ⊆ cache (snd (syllabify_line lower line conv pat nsp ab ev st)).
Proof.
  unfold syllabify_line, m_bind.
  destruct (syllabify_words_grows (tokenize lower (sub nsp (u " ") line)) conv pat ab [] st)
    as (Hsub & Hsome & Hres).
  destruct (syllabify_words (tokenize lower (sub nsp (u " ") line)) conv pat ab [] st)
    as [syllables st1] eqn:E.
  cbn [fst snd m_ret] in *.
  rewrite (syllabify_words_cached _ conv pat ab [] st1 Hsome), <- Hres.
  split; [reflexivity|exact Hsub].
Qed.

(** ** Sizes the pool refuses *)

Lemma chunk_zero {A} (l : list A) : chunk l 0 = Some [].
Proof. unfold chunk. cbn. destruct l; reflexivity. Qed.

Lemma generator_invalid lower lines conv pat nsp ab ev numcores chunksize parent sched :
  (numcores < 1)%Z \/ (chunksize < 0)%Z ->
  syllabify_corpus_generator lower lines conv pat nsp ab ev numcores chunksize
    parent sched = None.
Proof.
  intros H. unfold syllabify_corpus_generator.
  destruct (Z.ltb_spec numcores 1) as [|Hn]; [reflexivity|].
  destruct H as [H|H]; [lia|]. unfold chunk.
  destruct (Z.ltb_spec (chunksize * numcores) 0); [reflexivity|nia].
Qed.

Lemma generator_zero lower lines conv pat nsp ab ev numcores parent sched :
  (1 <= numcores)%Z ->
  syllabify_corpus_generator lower lines conv pat nsp ab ev numcores 0
    parent sched = Some [].
Proof.
  intros H. unfold syllabify_corpus_generator.
  destruct (Z.ltb_spec numcores 1) as [|Hn]; [lia|].
  rewrite Z.mul_0_l, chunk_zero. reflexivity.
Qed.

(** ** Counting chunks *)

Lemma chunks_from_count {A} (fuel : nat) (l : list A) (n : nat) :
  0 < n -> length l < fuel ->
  length (chunks_from fuel l n) = (length l + n - 1) / n.
Proof.
  intros Hn. revert l. induction fuel as [|fuel IH]; intros l Hlen; [lia|].
  cbn [chunks_from]. destruct (take n l) as [|x item] eqn:Htake.
  - destruct l as [|y l]; [|destruct n; [lia|discriminate]].
    cbn [length]. symmetry. apply Nat.div_small. lia.
  - assert (Hl : 0 < length l) by (destruct l; [destruct n; discriminate|simpl; lia]).
    cbn [length]. rewrite IH by (rewrite length_drop; lia). rewrite length_drop.
    destruct (Nat.le_gt_cases n (length l)) as [Hge|Hlt].
    + replace (length l + n - 1) with ((length l - n + n - 1) + 1 * n) by lia.
      rewrite Nat.div_add by lia. lia.
    + replace (length l - n) with 0 by lia. cbn [Nat.add].
      rewrite (Nat.div_small (n - 1) n) by lia.
      apply (Nat.div_unique _ _ 1 (length l - 1)); lia.
Qed.

(** ** Inventories whose special vowels are a vowel and a mark *)

Section NasalProperties.
Variables (V : str) (D : list str) (C : str).
Hypothesis Hnasal : nasal_profile_ok V D C.

Lemma nasal_joined : joined D = map Lit D.
Proof using Hnasal.
  destruct Hnasal as (_ & HD & _). destruct D; [contradiction|reflexivity].
Qed.

Lemma nasal_shape d :
  d ∈ D -> exists v t, d = [v; t] /\ (v ∈ V) /\ (t ∉ V) /\ (t ∉ C) /\ t <> newline.
Proof using Hnasal.
  intros Hd. destruct Hnasal as (_ & _ & H). rewrite Forall_forall in H. apply H, Hd.
Qed.

Lemma nasal_vowel_not_consonant x : x ∈ V -> x ∉ C.
Proof using Hnasal. intros Hv Hc. destruct Hnasal as (H & _). exact (H x Hc Hv). Qed.

Lemma nasal_nonempty : Forall (fun d => d <> []) D /\ D <> [].
Proof using Hnasal.
  split; [|apply Hnasal]. apply Forall_forall. intros d Hd.
  destruct (nasal_shape d Hd) as (v & t & -> & _). discriminate.
Qed.

Lemma nasal_lookbehind_iff c :
  looks_behind (lookbehind V D) c <-> at_boundary V D (before c).
Proof using Hnasal.
  unfold lookbehind, at_boundary. rewrite behind_alternatives, behind_set, nasal_joined.
  split.
  - intros [(x & pre & Hb & Hx)|(r' & Hr' & Hlb)].
    + right. left. exists x, pre. auto.
    + apply in_app_or in Hr' as [Hr'|[<-|[]]].
      * apply in_map_iff in Hr' as (d & <- & Hd). apply list_elem_of_In in Hd.
        right. right. exists d. split; [exact Hd|]. apply behind_lit. exact Hlb.
      * left. apply behind_bol. exact Hlb.
  - intros [Hnil|[(x & pre & Hb & Hx)|(d & Hd & Ht)]].
    + right. exists Bol. split; [apply in_or_app; right; left; reflexivity|].
      apply behind_bol. exact Hnil.
    + left. exists x, pre. auto.
    + right. exists (Lit d). split; [|apply behind_lit; exact Ht].
      apply in_or_app. left. apply in_map. apply list_elem_of_In. exact Hd.
Qed.

(** No nucleus starts at a consonant or at a mark. *)
Lemma nasal_cannot_start c :
  (forall x rest, after c = x :: rest -> x ∉ V) -> matches (nucleus V D) c = [].
Proof using Hnasal.
  intros Hhead. destruct nasal_nonempty as [Hne HD].
  apply nucleus_cannot_start; [exact Hne|exact HD|].
  intros x rest E. split; [apply (Hhead x rest E)|].
  intros d Hd Hx. destruct (nasal_shape d Hd) as (v & t & -> & Hv & _).
  injection Hx as ->. exact (Hhead x rest E Hv).
Qed.

Lemma nasal_here_fails pre rest :
  (forall k x rest', drop k rest = x :: rest' ->
     Forall (fun y => y ∈ C) (take k rest) -> x ∉ V) ->
  matches (syllable_here V D C) (Cursor pre rest None) = [].
Proof using Hnasal.
  intros Hstart. unfold syllable_here. rewrite matches_cat. apply flat_map_nil.
  intros c0 Hc0. apply behind_self in Hc0 as ->.
  rewrite matches_cat, matches_group.
  assert (Hbody : matches (syllable_body V D C) (Cursor pre rest None) = []);
    [|rewrite Hbody; reflexivity].
  unfold syllable_body. rewrite matches_cat. apply flat_map_nil. intros c1 Hc1.
  destruct (star_set_moves _ _ _ Hc1) as (seg & Ha & _ & Hseg & _). cbn [after] in Ha.
  rewrite matches_cat, nasal_cannot_start; [reflexivity|].
  intros x rest' E. apply (Hstart (length seg) x rest').
  - rewrite Ha, drop_app_length. exact E.
  - rewrite Ha, take_app_length. exact Hseg.
Qed.

Lemma nasal_consonants_fail pre run :
  Forall (fun y => y ∈ C) run ->
  matches (syllable_here V D C) (Cursor pre run None) = [].
Proof using Hnasal.
  intros Hall. apply nasal_here_fails. intros k x rest' E _ Hv.
  assert (Hx : x ∈ run) by (apply (subseteq_drop k run); rewrite E; left).
  rewrite Forall_forall in Hall. exact (nasal_vowel_not_consonant x Hv (Hall x Hx)).
Qed.

Lemma nasal_mark_fails pre t rest :
  (t ∉ V) -> (t ∉ C) ->
  matches (syllable_here V D C) (Cursor pre (t :: rest) None) = [].
Proof using Hnasal.
  intros HtV HtC. apply nasal_here_fails. intros [|k] x rest' E Hrun.
  - cbn in E. injection E as <- _. exact HtV.
  - exfalso. cbn in Hrun. apply Forall_cons in Hrun as [Ht _]. exact (HtC Ht).
Qed.

Lemma nasal_not_boundary pre rest :
  ~ at_boundary V D pre -> matches (syllable_here V D C) (Cursor pre rest None) = [].
Proof using Hnasal.
  intros Hno. unfold syllable_here.
  rewrite matches_cat, matches_behind_false; [reflexivity|].
  intros Hlb. apply nasal_lookbehind_iff in Hlb. exact (Hno Hlb).
Qed.

Lemma nasal_consonant_not_boundary x pre : x ∈ C -> ~ at_boundary V D (x :: pre).
Proof using Hnasal.
  intros Hx [Hnil|[(v & pre' & Hp & Hv)|(d & Hd & Ht)]].
  - discriminate.
  - injection Hp as <- _. exact (nasal_vowel_not_consonant _ Hv Hx).
  - destruct (nasal_shape d Hd) as (v & t & -> & _ & _ & HtC & _).
    destruct pre as [|z pre']; [discriminate|]. cbn in Ht.
    injection Ht as -> _. exact (HtC Hx).
Qed.

Lemma nasal_scan_consonants pre run :
  Forall (fun x => x ∈ C) run -> scan (pattern_syllable V D C) pre run 0 = [].
Proof using Hnasal.
  intros Hall. apply scan_no_match. intros k pre'.
  unfold pattern_syllable. rewrite matches_ahead, nasal_consonants_fail; [reflexivity|].
  apply Forall_drop. exact Hall.
Qed.

Lemma nasal_through_consonants run :
  forall pre rest,
    Forall (fun x => x ∈ C) run ->
    next_scan (Ahead (syllable_here V D C)) pre (run ++ rest)
    = next_scan (Ahead (syllable_here V D C)) (reverse run ++ pre) rest.
Proof using Hnasal.
  induction run as [|x run IH]; intros pre rest Hall; [reflexivity|].
  apply Forall_cons in Hall as [Hx Hall].
  change (next_scan (Ahead (syllable_here V D C)) pre ((x :: run) ++ rest))
    with (scan (Ahead (syllable_here V D C)) (x :: pre) (run ++ rest) 0).
  rewrite scan_next, nasal_not_boundary
    by (apply nasal_consonant_not_boundary; assumption).
  rewrite app_nil_l, IH by exact Hall.
  rewrite reverse_cons, <- app_assoc. reflexivity.
Qed.

Lemma nasal_through_nucleus n pre rest :
  nucleus_symbol V D n ->
  next_scan (Ahead (syllable_here V D C)) pre (n ++ rest)
  = scan (Ahead (syllable_here V D C)) (reverse n ++ pre) rest 0.
Proof using Hnasal.
  intros [(v & -> & Hv)|Hd]; [reflexivity|].
  destruct (nasal_shape n Hd) as (v & t & -> & Hv & HtV & HtC & _).
  change (next_scan (Ahead (syllable_here V D C)) pre ([v; t] ++ rest))
    with (scan (Ahead (syllable_here V D C)) (v :: pre) (t :: rest) 0).
  rewrite scan_next, nasal_mark_fails by assumption. reflexivity.
Qed.

Lemma nasal_nucleus_first n rest x rest' :
  nucleus_symbol V D n -> n ++ rest = x :: rest' -> x ∈ V.
Proof using Hnasal.
  intros [(v & -> & Hv)|Hd] E.
  - injection E as <- _. exact Hv.
  - destruct (nasal_shape n Hd) as (v & t & -> & Hv & _). injection E as <- _. exact Hv.
Qed.

Lemma nasal_follows_first tail x rest' : follows V D tail -> tail = x :: rest' -> x ∉ C.
Proof using Hnasal.
  intros [->|(n & rest & Hn & ->)] E; [discriminate|].
  apply nasal_vowel_not_consonant. apply (nasal_nucleus_first n rest x rest' Hn E).
Qed.

Lemma nasal_lookahead_matches pre tail g :
  follows V D tail -> matches (lookahead V D) (Cursor pre tail g) <> [].
Proof using Hnasal.
  intros Hf E.
  assert (Hnone : forall c', ~ In c' (matches (lookahead V D) (Cursor pre tail g))).
  { intros c'. rewrite E. intros []. }
  unfold lookahead in Hnone.
  destruct Hf as [->|(n & rest & Hn & ->)].
  - apply (Hnone (Cursor pre [] g)). rewrite matches_alternatives.
    apply in_or_app. right. apply in_flat_map. exists Eol.
    split; [apply in_or_app; right; left; reflexivity|].
    rewrite matches_eol. destruct (decide _) as [|H]; [left; reflexivity|].
    exfalso. apply H. left. reflexivity.
  - destruct (n ++ rest) as [|x rest'] eqn:En.
    { destruct Hn as [(v & -> & _)|Hd]; [discriminate|].
      destruct (nasal_shape n Hd) as (v & t & -> & _). discriminate. }
    pose proof (nasal_nucleus_first n rest x rest' Hn En) as Hx.
    apply (Hnone (Cursor (x :: pre) rest' g)). rewrite matches_alternatives.
    apply in_or_app. left. rewrite matches_set_cons.
    destruct (decide _); [left; reflexivity|contradiction].
Qed.

Lemma nasal_lookahead_at_mark pre t rest g :
  (t ∉ V) -> t <> newline -> matches (lookahead V D) (Cursor pre (t :: rest) g) = [].
Proof using Hnasal.
  intros HtV Hnl. unfold lookahead. rewrite matches_alternatives, matches_set_cons.
  destruct (decide (t ∈ V)); [contradiction|]. rewrite app_nil_l.
  apply flat_map_nil. intros r' Hr'. rewrite nasal_joined in Hr'.
  apply in_app_or in Hr' as [Hr'|[<-|[]]].
  - apply in_map_iff in Hr' as (d & <- & Hd). apply list_elem_of_In in Hd.
    destruct (nasal_shape d Hd) as (v & t' & -> & Hv & _).
    rewrite matches_lit. destruct (decide _) as [E|]; [|reflexivity].
    exfalso. cbn [after] in E. destruct rest; cbn in E; [discriminate|].
    injection E as -> _. contradiction.
  - rewrite matches_eol. cbn [after].
    destruct (decide _) as [[H|H]|]; [discriminate| |reflexivity].
    injection H as -> _. contradiction.
Qed.

Lemma star_set_stuck cs pre t rest g :
  (t ∉ cs) ->
  matches (Star (Set_ cs)) (Cursor pre (t :: rest) g) = [Cursor pre (t :: rest) g].
Proof.
  intros Ht. rewrite matches_star. cbn [after length]. rewrite iterate_S, matches_set_cons.
  destruct (decide (t ∈ cs)); [contradiction|]. reflexivity.
Qed.

Lemma nasal_body_results pre onset n coda tail :
  Forall (fun x => x ∈ C) onset -> nucleus_symbol V D n ->
  Forall (fun x => x ∈ C) coda -> follows V D tail ->
  exists junk others,
    matches (syllable_body V D C) (Cursor pre (onset ++ n ++ coda ++ tail) None)
    = junk ++ Cursor (reverse coda ++ reverse n ++ reverse onset ++ pre) tail None
              :: others
    /\ Forall (fun cj => exists t rest, after cj = t :: rest /\ (t ∉ V) /\ t <> newline)
              junk.
Proof using Hnasal.
  intros Honset Hn Hcoda Htail.
  destruct (matches_star_set_greedy C onset pre (n ++ coda ++ tail) None Honset)
    as [l1 H1].
  { intros x rest' E. apply nasal_vowel_not_consonant.
    apply (nasal_nucleus_first n (coda ++ tail) x rest' Hn E). }
  destruct (matches_star_set_greedy C coda (reverse n ++ reverse onset ++ pre) tail None
              Hcoda) as [l3 H3]; [intros x rest'; apply nasal_follows_first; exact Htail|].
  unfold syllable_body. rewrite matches_cat, H1. cbn [flat_map]. rewrite matches_cat.
  unfold nucleus. rewrite matches_alternatives, nasal_joined.
  destruct Hn as [(v & -> & Hv)|Hd].
  - exists []. cbn [app]. rewrite matches_set_cons.
    destruct (decide (v ∈ V)); [|contradiction]. cbn [app flat_map].
    change (reverse [v] ++ reverse onset ++ pre) with (v :: reverse onset ++ pre) in H3.
    rewrite H3. cbn [app]. eexists. split; [reflexivity|constructor].
  - destruct (nasal_shape n Hd) as (v & t & -> & Hv & HtV & HtC & Hnl).
    cbn [app]. rewrite matches_set_cons.
    destruct (decide (v ∈ V)); [|contradiction]. cbn [app flat_map].
    rewrite star_set_stuck by exact HtC.
    exists [Cursor (v :: reverse onset ++ pre) (t :: coda ++ tail) None]. cbn [app].
    set (cN := Cursor (reverse [v; t] ++ reverse onset ++ pre) (coda ++ tail) None) in *.
    assert (Hall : forall c', In c' (flat_map
                     (fun r' => matches r' (Cursor (reverse onset ++ pre)
                                              (v :: t :: coda ++ tail) None))
                     (map Lit D)) -> c' = cN).
    { intros c' Hin. apply in_flat_map in Hin as (r' & Hr' & Hin).
      apply in_map_iff in Hr' as (d & <- & Hdl). apply list_elem_of_In in Hdl.
      destruct (nasal_shape d Hdl) as (a & b & -> & _).
      rewrite matches_lit in Hin. destruct (decide _) as [E|]; [|destruct Hin].
      destruct Hin as [<-|[]]. cbn in E. injection E as <- <-. reflexivity. }
    assert (Hin : In cN (flat_map
                     (fun r' => matches r' (Cursor (reverse onset ++ pre)
                                              (v :: t :: coda ++ tail) None))
                     (map Lit D))).
    { apply in_flat_map. exists (Lit [v; t]). split.
      - apply in_map. apply list_elem_of_In. exact Hd.
      - rewrite matches_lit. destruct (decide _) as [|E]; [left; reflexivity|].
        exfalso. apply E. reflexivity. }
    destruct (flat_map _ (map Lit D)) as [|c1 lits] eqn:E; [destruct Hin|].
    rewrite (Hall c1 (or_introl eq_refl)). cbn [flat_map].
    rewrite H3. cbn [app]. eexists. split; [reflexivity|].
    constructor; [|constructor]. exists t, (coda ++ tail). auto.
Qed.

Lemma nasal_here_matches pre onset n coda tail :
  at_boundary V D pre ->
  Forall (fun x => x ∈ C) onset -> nucleus_symbol V D n ->
  Forall (fun x => x ∈ C) coda -> follows V D tail ->
  exists c' others,
    matches (syllable_here V D C) (Cursor pre (onset ++ n ++ coda ++ tail) None)
    = c' :: others
    /\ group1 c' = Some (onset ++ n ++ coda).
Proof using Hnasal.
  intros Hpre Honset Hn Hcoda Htail.
  set (c0 := Cursor pre (onset ++ n ++ coda ++ tail) None).
  assert (Hlb : matches (Behind (lookbehind V D)) c0 = [c0]).
  { apply matches_behind_true, nasal_lookbehind_iff. exact Hpre. }
  destruct (nasal_body_results pre onset n coda tail Honset Hn Hcoda Htail)
    as (junk & l4 & Hbody & Hjunk).
  fold c0 in Hbody.
  set (c3 := Cursor (reverse coda ++ reverse n ++ reverse onset ++ pre) tail None) in *.
  set (G := fun c' => Cursor (before c') (after c')
                        (Some (take (consumed c0 c') (after c0)))).
  assert (Hcap : group1 (G c3) = Some (onset ++ n ++ coda)).
  { unfold G, consumed, c0, c3. cbn [after group1]. f_equal.
    replace (onset ++ n ++ coda ++ tail) with ((onset ++ n ++ coda) ++ tail)
      by (rewrite <- !app_assoc; reflexivity).
    rewrite length_app.
    replace (length (onset ++ n ++ coda) + length tail - length tail)
      with (length (onset ++ n ++ coda)) by lia.
    apply take_app_length. }
  assert (Hfail : flat_map (matches (lookahead V D)) (map G junk) = []).
  { apply flat_map_nil. intros cj Hcj. apply in_map_iff in Hcj as (cj' & <- & Hcj').
    rewrite Forall_forall in Hjunk. apply list_elem_of_In in Hcj'.
    destruct (Hjunk cj' Hcj') as (t & rest & Ha & HtV & Hnl).
    unfold G. rewrite Ha. apply nasal_lookahead_at_mark; assumption. }
  destruct (matches (lookahead V D) (G c3)) as [|c4 l5] eqn:Hla.
  { exfalso. apply (nasal_lookahead_matches (before c3) tail (group1 (G c3)) Htail).
    exact Hla. }
  exists c4. unfold syllable_here. rewrite matches_cat, Hlb. cbn [flat_map].
  rewrite app_nil_r, matches_cat, matches_group, Hbody.
  fold G. rewrite map_app, flat_map_app, Hfail. cbn [map flat_map app]. rewrite Hla.
  eexists. split; [reflexivity|].
  rewrite <- Hcap. apply (matches_keeps_group (lookahead V D));
    [apply lookahead_has_no_group|rewrite Hla; left; reflexivity].
Qed.

Lemma nasal_scan_syllables segments :
  forall pre onset,
    at_boundary V D pre -> well_formed V D C onset segments ->
    scan (pattern_syllable V D C) pre (onset ++ spell segments) 0
    = syllables_of onset segments.
Proof using Hnasal.
  induction segments as [|[n coda] segments IH]; intros pre onset Hpre [Honset Hsegs].
  - cbn [spell flat_map]. rewrite app_nil_r. apply nasal_scan_consonants. exact Honset.
  - apply Forall_cons in Hsegs as [[Hn Hcoda] Hsegs]. cbn [fst snd] in Hn, Hcoda.
    unfold pattern_syllable.
    change (spell ((n, coda) :: segments)) with ((n ++ coda) ++ spell segments).
    rewrite <- app_assoc.
    destruct (nasal_here_matches pre onset n coda (spell segments) Hpre Honset Hn Hcoda
                (spell_follows V D C segments Hsegs)) as (c' & others & Hm & Hg).
    rewrite scan_next, Hm, Hg. cbn [default app syllables_of]. f_equal.
    rewrite nasal_through_consonants by exact Honset.
    rewrite nasal_through_nucleus by exact Hn.
    fold (pattern_syllable V D C). apply IH.
    + apply nucleus_boundary. exact Hn.
    + split; assumption.
Qed.

Lemma nasal_findall_syllables onset segments :
  well_formed V D C onset segments ->
  findall (pattern_syllable V D C) (onset ++ spell segments)
  = syllables_of onset segments.
Proof using Hnasal.
  intros Hwf. apply nasal_scan_syllables; [left; reflexivity|exact Hwf].
Qed.
End NasalProperties.

Lemma pol_profile_ok : nasal_profile_ok pol_vowels pol_special_vowels pol_consonant_class.
Proof.
  split; [|split].
  - assert (H : Forall (fun x => x ∉ pol_vowels) pol_consonant_class)
      by (apply (bool_decide_unpack _); vm_compute; exact I).
    rewrite Forall_forall in H. exact H.
  - discriminate.
  - repeat (apply Forall_cons; split;
            [eexists _, _; split; [reflexivity|];
             repeat split; try discriminate; apply (bool_decide_unpack _); vm_compute; exact I|]).
    apply Forall_nil_2.
Qed.

(** ** Replacing *)

Lemma replace_from_length old new s :
  length old = length new -> old <> [] ->
  forall skip, skip <= length s ->
    length (replace_from old new s skip) = length s - skip.
Proof.
  intros Hlen Hold. induction s as [|x s IH]; intros skip Hskip.
  - reflexivity.
  - cbn [replace_from]. destruct skip as [|k].
    + destruct (decide (take (length old) (x :: s) = old)) as [E|_].
      * assert (Hle : length old <= length (x :: s)).
        { apply (f_equal length) in E. rewrite length_take in E. lia. }
        assert (0 < length old) by (destruct old; [contradiction|simpl; lia]).
        cbn [length] in *. rewrite length_app, IH by lia. lia.
      * cbn [length]. rewrite IH by lia. lia.
    + cbn [length] in *. rewrite IH by lia. lia.
Qed.

Lemma pieces_head (pieces : list str) x rest :
  Forall (fun p => p = syllabic_r \/ exists y, p = [y] /\ y <> 809%N) pieces ->
  concat pieces = x :: rest -> x <> 809%N.
Proof.
  intros Hall E. destruct pieces as [|p pieces]; [discriminate|].
  apply Forall_cons in Hall as [[->|(y & -> & Hy)] _].
  - injection E as <- _. discriminate.
  - injection E as <- _. exact Hy.
Qed.

Lemma replace_pieces (pieces : list str) :
  Forall (fun p => p = syllabic_r \/ exists y, p = [y] /\ y <> 809%N) pieces ->
  replace_from syllabic_r schwa_r (concat pieces) 0
  = concat (map (fun p => if decide (p = syllabic_r) then schwa_r else p) pieces).
Proof.
  induction pieces as [|p pieces IH]; intros Hall; [reflexivity|].
  apply Forall_cons in Hall as [Hp Hall]. specialize (IH Hall).
  destruct Hp as [->|(y & -> & Hy)].
  - cbn [concat map app syllabic_r]. cbn [replace_from length take].
    cbn. fold syllabic_r. rewrite IH. reflexivity.
  - cbn [map concat app replace_from].
    match goal with
    | |- context [if ?d then schwa_r else [y]] => destruct d as [E|_]; [discriminate|]
    end.
    destruct (decide (take (length syllabic_r) (y :: concat pieces) = syllabic_r))
      as [E|_]; [|cbn [app]; rewrite IH; reflexivity].
    exfalso. cbn in E. destruct (concat pieces) as [|z rest] eqn:Ec; [discriminate|].
    injection E as -> ->. exact (pieces_head pieces _ _ Hall Ec eq_refl).
Qed.

(** * Properties of the rest of the code *)

(** X1. [tokenize] returns words that are not empty and hold no space. *)
Theorem tokens_have_no_space (lower : str -> str) (line : str) :
  Forall (fun word => word <> [] /\ 32%N ∉ word) (tokenize lower line).
Proof.
  unfold tokenize. apply Forall_forall. intros word Hin.
  apply list_elem_of_filter in Hin as [Hne Hin]. split; [exact Hne|].
  pose proof (split_on_fields 32%N (lower (strip line))) as Hall.
  rewrite Forall_forall in Hall. apply Hall, Hin.
Qed.

(** X2. When the line has a word and no word holds an underscore, splitting
    the outcomes of the event on ["_"] gives back the words of the line,
    whatever the cache holds. *)
Theorem outcomes_split_back (lower : str -> str) (line : str) (conv : converter)
    (pat : compiled * compiled) (nsp : substituter) (add_boundaries : bool)
    (st : process) :
  tokenize lower (sub nsp (u " ") line) <> [] ->
  Forall (fun word => 95%N ∉ word) (tokenize lower (sub nsp (u " ") line)) ->
  exists cues outcomes,
    fst (syllabify_line lower line conv pat nsp add_boundaries true st)
    = Event cues outcomes
    /\ split_on 95%N outcomes = tokenize lower (sub nsp (u " ") line).
Proof.
  intros Hne Hall. unfold syllabify_line, m_bind.
  destruct (syllabify_words _ conv pat add_boundaries [] st) as [syllables st1].
  cbn [fst m_ret]. eexists _, _. split; [reflexivity|].
  apply (split_on_join 95%N); assumption.
Qed.

(** X3. In every string, each item found by the syllable pattern of
    [regex_en_ipa] and of [regex_pol_ipa] is a piece of the string made of
    consonants, one vowel or diphthong (special vowel), and consonants. *)
Theorem every_match_is_a_syllable (s : str) :
  Forall (fun item => syllable_shaped en_vowels en_diphtongues en_consonants item
                      /\ substring item s)
         (findall (pattern (fst regex_en_ipa)) s)
  /\ Forall (fun item => syllable_shaped pol_vowels pol_special_vowels
                           pol_consonant_class item
                         /\ substring item s)
            (findall (pattern (fst regex_pol_ipa)) s).
Proof.
  assert (Hsub : forall item, (exists k tail, drop k s = item ++ tail) -> substring item s).
  { intros item (k & tail & Hk). exists (take k s), tail.
    rewrite <- Hk. symmetry. apply take_drop. }
  split.
  - eapply Forall_impl;
      [apply (scan_syllable_items en_vowels en_diphtongues en_consonants s); discriminate|].
    intros item [Hs Hk]. split; [exact Hs|apply Hsub, Hk].
  - eapply Forall_impl;
      [apply (scan_syllable_items pol_vowels pol_special_vowels pol_consonant_class s);
       discriminate|].
    intros item [Hs Hk]. split; [exact Hs|apply Hsub, Hk].
Qed.

(** X4. In every string the consonant pattern finds nothing or one item;
    the item is a non-empty run of consonants and is the whole string, or
    the whole string but for a newline at its end. *)
Theorem consonant_pattern_finds_the_word (consonants : str) (s : str) :
  findall (pattern_consonant consonants) s = []
  \/ exists item tail,
       findall (pattern_consonant consonants) s = [item] /\ s = item ++ tail
       /\ item <> [] /\ Forall (fun x => x ∈ consonants) item
       /\ (tail = [] \/ tail = [newline]).
Proof. apply findall_consonant_any. Qed.

(** X5. Every character of what [syllabify] returns without boundaries, for
    the patterns of [regex_en_ipa], is the underscore or a symbol of the
    English inventory: a character of the transcription outside the
    inventory never reaches the result. The same holds of [regex_pol_ipa]
    and the Polish inventory. *)
Theorem syllabify_keeps_to_the_inventory (word : str) (conv : converter) :
  Forall (fun x => x = 95%N \/ x ∈ en_vowels \/ x ∈ en_consonants
                   \/ exists d, d ∈ en_diphtongues /\ x ∈ d)
         (syllabify_value word conv regex_en_ipa false)
  /\ Forall (fun x => x = 95%N \/ x ∈ pol_vowels \/ x ∈ pol_consonant_class
                      \/ exists d, d ∈ pol_special_vowels /\ x ∈ d)
            (syllabify_value word conv regex_pol_ipa false).
Proof.
  split; apply Forall_forall; intros x Hx; apply list_elem_of_In in Hx;
    revert Hx; apply syllabify_value_chars; discriminate.
Qed.

Lemma syllabify_value_not_marker word conv pat :
  pat = regex_en_ipa \/ pat = regex_pol_ipa ->
  syllabify_value word conv pat false <> u "##".
Proof.
  intros Hpat E.
  assert (Hin : In 35%N (syllabify_value word conv pat false))
    by (rewrite E; left; reflexivity).
  assert (Hno : forall l : str, ~ 35%N ∈ l <-> bool_decide (35%N ∈ l) = false).
  { intros l. rewrite bool_decide_eq_false. reflexivity. }
  destruct Hpat as [-> | ->].
  - apply syllabify_value_chars in Hin; [|discriminate].
    destruct Hin as [H|[H|[H|(d & Hd & H)]]]; [discriminate| | |].
    + revert H. apply Hno. vm_compute. reflexivity.
    + revert H. apply Hno. vm_compute. reflexivity.
    + assert (Hall : Forall (fun d => 35%N ∉ d) en_diphtongues)
        by (apply (bool_decide_unpack _); vm_compute; exact I).
      rewrite Forall_forall in Hall. exact (Hall d Hd H).
  - apply syllabify_value_chars in Hin; [|discriminate].
    destruct Hin as [H|[H|[H|(d & Hd & H)]]]; [discriminate| | |].
    + revert H. apply Hno. vm_compute. reflexivity.
    + revert H. apply Hno. vm_compute. reflexivity.
    + assert (Hall : Forall (fun d => 35%N ∉ d) pol_special_vowels)
        by (apply (bool_decide_unpack _); vm_compute; exact I).
      rewrite Forall_forall in Hall. exact (Hall d Hd H).
Qed.

(** X6. With [add_boundaries=False] and the patterns of [regex_en_ipa] or
    [regex_pol_ipa], [syllabify_line] drops no word: the list it returns has
    one entry per word, in order, the empty string for a word in which
    nothing is found (the test against ["##"] never holds). *)
Theorem no_word_dropped_without_boundaries (lower : str -> str) (line : str)
    (conv : converter) (pat : compiled * compiled) (nsp : substituter)
    (st : process) :
  pat = regex_en_ipa \/ pat = regex_pol_ipa ->
  cache_ok conv pat st ->
  fst (syllabify_line lower line conv pat nsp false false st)
  = Syllables (map (fun word => syllabify_value word conv pat false)
                   (tokenize lower (sub nsp (u " ") line))).
Proof.
  intros Hpat Hst.
  rewrite (proj1 (syllabify_line_ok lower line conv pat nsp false false st Hst)).
  unfold line_value. f_equal.
  induction (tokenize lower (sub nsp (u " ") line)) as [|word words IH]; [reflexivity|].
  cbn [map]. rewrite filter_cons.
  destruct (decide _) as [_|H];
    [rewrite IH; reflexivity|].
  exfalso. apply H. apply syllabify_value_not_marker. exact Hpat.
Qed.

(** X7. A transcription with no English vowel and none of the letters that
    open a diphthong (a, e, o), and with a character that is neither an
    English consonant nor the newline, gives no match in either pattern:
    [syllabify] returns ["##"] with boundaries and the empty string
    without, so [syllabify_line] with boundaries drops the word. *)
Theorem word_outside_the_inventory (word : str) (conv : converter)
    (add_boundaries : bool) :
  Forall (fun x => x ∉ en_vowels ++ u "aeo") (transliterate conv word) ->
  Exists (fun x => (x ∉ en_consonants) /\ x <> newline) (transliterate conv word) ->
  findall (pattern (fst regex_en_ipa)) (transliterate conv word) = []
  /\ findall (pattern (snd regex_en_ipa)) (transliterate conv word) = []
  /\ syllabify_value word conv regex_en_ipa add_boundaries
     = if add_boundaries then u "##" else [].
Proof.
  intros Hall Hbad.
  assert (Hprimary : findall (pattern (fst regex_en_ipa)) (transliterate conv word) = []).
  { apply no_syllable_without_nucleus.
    - apply (bool_decide_unpack _). vm_compute. exact I.
    - discriminate.
    - eapply Forall_impl; [exact Hall|]. intros x Hx. split.
      + intros Hv. apply Hx, elem_of_app. left. exact Hv.
      + intros d Hd Hhead. apply Hx, elem_of_app. right.
        assert (Hheads : Forall (fun d => forall y, head d = Some y -> y ∈ u "aeo")
                           en_diphtongues).
        { repeat (apply Forall_cons; split;
                  [intros y Hy; injection Hy as <-;
                   apply (bool_decide_unpack _); vm_compute; exact I|]).
          apply Forall_nil_2. }
        rewrite Forall_forall in Hheads. apply (Hheads d Hd x Hhead). }
  assert (Hfallback : findall (pattern (snd regex_en_ipa)) (transliterate conv word) = []).
  { destruct (findall_consonant_any en_consonants (transliterate conv word))
      as [H|(item & tail & _ & Hs & _ & Hitem & Htail)]; [exact H|].
    exfalso. apply Exists_exists in Hbad as (x & Hx & HxC & Hxnl).
    rewrite Hs in Hx. apply elem_of_app in Hx as [Hx|Hx].
    - rewrite Forall_forall in Hitem. exact (HxC (Hitem x Hx)).
    - destruct Htail as [-> | ->]; [inversion Hx|].
      apply list_elem_of_singleton in Hx. exact (Hxnl Hx). }
  split; [exact Hprimary|]. split; [exact Hfallback|].
  rewrite syllabify_value_eq. cbn zeta. rewrite Hprimary, Hfallback.
  destruct add_boundaries; reflexivity.
Qed.

(** X8. Running [syllabify_line] a second time on the same line, in the
    process the first run left, returns the same result and leaves the
    process unchanged: every word is answered from the cache and no
    [findall] is run. The first run only adds to the cache. *)
Theorem line_rerun_is_free (lower : str -> str) (line : str) (conv : converter)
    (pat : compiled * compiled) (nsp : substituter)
    (add_boundaries as_event : bool) (st : process) :
  let first := syllabify_line lower line conv pat nsp add_boundaries as_event st in
  syllabify_line lower line conv pat nsp add_boundaries as_event (snd first) = first
  /\ invocations (snd (syllabify_line lower line conv pat nsp add_boundaries as_event
                         (snd first)))
     = invocations (snd first)
  /\ cache st ⊆ cache (snd first).
Proof.
  cbn zeta.
  destruct (syllabify_line_rerun lower line conv pat nsp add_boundaries as_event st)
    as [Hsame Hsub].
  split; [exact Hsame|]. split; [rewrite Hsame; reflexivity|exact Hsub].
Qed.

(** X9. [syllabify_corpus_generator] raises, before it yields anything, when
    [numcores] is below one ([Pool] refuses it) or [chunksize] is negative
    ([islice] refuses the product). *)
Theorem generator_refuses_sizes (lower : str -> str) (lines : list str)
    (conv : converter) (pat : compiled * compiled) (nsp : substituter)
    (add_boundaries as_event : bool) (numcores chunksize : Z) (parent : process)
    (sched : nat -> nat -> nat) :
  (numcores < 1)%Z \/ (chunksize < 0)%Z ->
  syllabify_corpus_generator lower lines conv pat nsp add_boundaries as_event
    numcores chunksize parent sched = None.
Proof. apply generator_invalid. Qed.

(** X10. With [chunksize = 0] and a valid [numcores] nothing is raised and
    nothing is yielded, whatever the lines: the first slice is empty, which
    ends the iteration, and [syllabify_corpus] writes an empty file. *)
Theorem zero_chunksize_yields_nothing (lower : str -> str) (lines : list str)
    (conv : converter) (pat : compiled * compiled) (nsp : substituter)
    (add_boundaries as_event : bool) (numcores : Z) (parent : process)
    (sched : nat -> nat -> nat) :
  (1 <= numcores)%Z ->
  syllabify_corpus_generator lower lines conv pat nsp add_boundaries as_event
    numcores 0 parent sched = Some []
  /\ syllabify_corpus lower lines conv pat nsp add_boundaries numcores 0 parent sched
     = Some [].
Proof.
  intros H. split; [apply generator_zero; exact H|].
  unfold syllabify_corpus. rewrite generator_zero by exact H. reflexivity.
Qed.

(** X11. For a [chunksize] from 1 to [sys.maxsize], [chunk] yields the
    length of the sequence divided by [chunksize], rounded up, chunks. *)
Theorem chunk_count {A : Type} (iterable : list A) (chunksize : Z) :
  (1 <= chunksize <= sys_maxsize)%Z ->
  exists chunks,
    chunk iterable chunksize = Some chunks
    /\ length chunks
       = (length iterable + Z.to_nat chunksize - 1) / Z.to_nat chunksize.
Proof.
  intros Hn. rewrite chunk_in_range by lia.
  eexists. split; [reflexivity|]. apply chunks_from_count; lia.
Qed.

(** X12. For [numcores >= 1] and [chunksize >= 1] whose product is at most
    [sys.maxsize], every batch that the generator hands to [imap] is cut
    into at most [numcores] tasks, so one task per worker is enough for a
    batch. *)
Theorem batch_has_a_task_per_worker {A : Type} (lines : list A)
    (numcores chunksize : Z) :
  (1 <= numcores)%Z -> (1 <= chunksize)%Z ->
  (chunksize * numcores <= sys_maxsize)%Z ->
  exists batches,
    chunk lines (chunksize * numcores) = Some batches
    /\ Forall (fun batch => exists tasks,
                 chunk batch chunksize = Some tasks
                 /\ (Z.of_nat (length tasks) <= numcores)%Z) batches.
Proof.
  intros Hcores Hsize Hmax.
  rewrite chunk_in_range by nia.
  eexists. split; [reflexivity|].
  destruct (chunks_from_spec (S (length lines)) lines (Z.to_nat (chunksize * numcores)))
    as (_ & Hall & _); [nia|lia|].
  eapply Forall_impl; [exact Hall|]. intros batch [_ Hlen].
  rewrite chunk_in_range by nia.
  eexists. split; [reflexivity|].
  rewrite chunks_from_count by lia.
  assert (Hlt : (length batch + Z.to_nat chunksize - 1) / Z.to_nat chunksize
                < S (Z.to_nat numcores)).
  { apply Nat.Div0.div_lt_upper_bound.
    replace (Z.to_nat (chunksize * numcores))
      with (Z.to_nat chunksize * Z.to_nat numcores) in Hlen
      by (rewrite Z2Nat.inj_mul; lia).
    nia. }
  lia.
Qed.

(** X13. [corpus_first_lines] yields the first [n] lines of the corpus, all
    of them when the corpus is shorter and none when [n <= 0], and leaves
    the other lines in the iterator. *)
Theorem corpus_first_lines_prefix {A : Type} (corpus : list A) (n : Z) :
  fst (corpus_first_lines corpus n) = take (Z.to_nat n) corpus
  /\ snd (corpus_first_lines corpus n) = drop (Z.to_nat n) corpus
  /\ fst (corpus_first_lines corpus n) ++ snd (corpus_first_lines corpus n) = corpus
  /\ length (fst (corpus_first_lines corpus n)) = Z.to_nat n `min` length corpus.
Proof.
  unfold corpus_first_lines. rewrite first_lines_loop_spec. cbn [fst snd].
  repeat split; [apply take_drop|apply length_take].
Qed.

(** X14. The results for the first [n] lines of a corpus are the first [n]
    results for the whole corpus, whatever the sizes (at least one, with a
    product of at most [sys.maxsize]), the schedulers and the coherent
    caches of the two runs. *)
Theorem first_lines_give_first_results (lower : str -> str) (corpus : list str)
    (n : Z) (conv : converter) (pat : compiled * compiled) (nsp : substituter)
    (add_boundaries as_event : bool) (numcores chunksize numcores' chunksize' : Z)
    (parent parent' : process) (sched sched' : nat -> nat -> nat) :
  (1 <= numcores)%Z -> (1 <= chunksize)%Z ->
  (chunksize * numcores <= sys_maxsize)%Z ->
  (1 <= numcores')%Z -> (1 <= chunksize')%Z ->
  (chunksize' * numcores' <= sys_maxsize)%Z ->
  cache_ok conv pat parent -> cache_ok conv pat parent' ->
  exists results,
    syllabify_corpus_generator lower corpus conv pat nsp add_boundaries as_event
      numcores chunksize parent sched = Some results
    /\ syllabify_corpus_generator lower (fst (corpus_first_lines corpus n)) conv pat
         nsp add_boundaries as_event numcores' chunksize' parent' sched'
       = Some (take (Z.to_nat n) results).
Proof.
  intros H1 H2 Hmax H3 H4 Hmax' Hp Hp'. eexists. split.
  - apply generator_ok; assumption.
  - rewrite generator_ok by assumption.
    unfold corpus_first_lines. rewrite first_lines_loop_spec. cbn [fst].
    f_equal. apply (fmap_take (fun line => line_value lower line conv pat nsp add_boundaries as_event)).
Qed.

(** X15. What [syllabify_corpus] writes does not depend on [numcores], on
    [chunksize], on the scheduler or on the coherent cache the workers start
    from, as long as both sizes are at least one and their product is at
    most [sys.maxsize]. *)
Theorem corpus_output_is_independent (lower : str -> str) (corpus : list str)
    (conv : converter) (pat : compiled * compiled) (nsp : substituter)
    (add_boundaries : bool) (numcores chunksize numcores' chunksize' : Z)
    (parent parent' : process) (sched sched' : nat -> nat -> nat) :
  (1 <= numcores)%Z -> (1 <= chunksize)%Z ->
  (chunksize * numcores <= sys_maxsize)%Z ->
  (1 <= numcores')%Z -> (1 <= chunksize')%Z ->
  (chunksize' * numcores' <= sys_maxsize)%Z ->
  cache_ok conv pat parent -> cache_ok conv pat parent' ->
  exists written,
    syllabify_corpus lower corpus conv pat nsp add_boundaries numcores chunksize
      parent sched = Some written
    /\ syllabify_corpus lower corpus conv pat nsp add_boundaries numcores' chunksize'
         parent' sched' = Some written.
Proof.
  intros H1 H2 Hmax H3 H4 Hmax' Hp Hp'. unfold syllabify_corpus.
  rewrite !generator_ok by assumption. unfold line_value.
  rewrite (write_events_map
    (fun line => join underscore
       (filter (fun s => s <> u "##")
          (map (fun word => syllabify_value word conv pat add_boundaries)
               (tokenize lower (sub nsp (u " ") line)))))
    (fun line => join underscore (tokenize lower (sub nsp (u " ") line)))).
  eexists. split; reflexivity.
Qed.

(** X16. [english_to_ipa] returns a string as long as the transliteration it
    starts from. *)
Theorem english_to_ipa_keeps_length (epi_en : str -> str) (sequence : str) :
  length (english_to_ipa epi_en sequence) = length (epi_en sequence).
Proof.
  unfold english_to_ipa, replace, syllabic_r. cbn zeta.
  rewrite (replace_from_length [633%N; 809%N] schwa_r); [lia|reflexivity|discriminate|lia].
Qed.

(** X17. When every syllabic mark of the transliteration stands right after
    a turned r, [english_to_ipa] turns each marked r into schwa and turned
    r, leaves the other characters as they are, and returns a string
    without any syllabic mark. *)
Theorem english_to_ipa_removes_marks (epi_en : str -> str) (sequence : str)
    (pieces : list str) :
  epi_en sequence = concat pieces ->
  Forall (fun p => p = syllabic_r \/ exists y, p = [y] /\ y <> 809%N) pieces ->
  english_to_ipa epi_en sequence
  = concat (map (fun p => if decide (p = syllabic_r) then schwa_r else p) pieces)
  /\ 809%N ∉ english_to_ipa epi_en sequence.
Proof.
  intros Hs Hall.
  assert (E : english_to_ipa epi_en sequence
              = concat (map (fun p => if decide (p = syllabic_r) then schwa_r else p)
                            pieces)).
  { unfold english_to_ipa, replace, syllabic_r. cbn zeta. rewrite Hs.
    apply replace_pieces. exact Hall. }
  split; [exact E|]. rewrite E. clear E Hs.
  induction pieces as [|p pieces IH]; [apply not_elem_of_nil|].
  apply Forall_cons in Hall as [Hp Hall]. cbn [map concat].
  intros H. apply elem_of_app in H as [H|H]; [|exact (IH Hall H)].
  assert (Hnew : 809%N ∉ schwa_r) by (apply (bool_decide_unpack _); vm_compute; exact I).
  match type of H with
  | _ ∈ (if ?d then _ else _) => destruct d as [_|Hne]
  end; [exact (Hnew H)|].
  destruct Hp as [->|(y & -> & Hy)]; [contradiction|].
  apply list_elem_of_singleton in H. congruence.
Qed.

Lemma pol_value_consonants word conv :
  transliterate conv word <> [] ->
  Forall (fun x => x ∈ pol_consonant_class) (transliterate conv word) ->
  findall (pattern (fst regex_pol_ipa)) (transliterate conv word) = []
  /\ syllabify_value word conv regex_pol_ipa false = transliterate conv word.
Proof.
  intros Hne Hall.
  assert (Hprimary : findall (pattern (fst regex_pol_ipa)) (transliterate conv word) = []).
  { apply (nasal_scan_consonants _ _ _ pol_profile_ok). exact Hall. }
  split; [exact Hprimary|].
  rewrite syllabify_value_eq. cbn zeta. rewrite Hprimary.
  cbn [regex_pol_ipa snd pattern].
  rewrite findall_consonant_run by assumption. reflexivity.
Qed.

(** X18. For a word whose transcription is a non-empty run of characters of
    the Polish consonant class (the consonants, the characters of the
    special consonants and the bar), the syllable pattern of
    [regex_pol_ipa] finds nothing and [syllabify] without boundaries returns
    the whole run. *)
Theorem polish_consonant_word (word : str) (conv : converter) (st : process) :
  cache_ok conv regex_pol_ipa st ->
  transliterate conv word <> [] ->
  Forall (fun x => x ∈ pol_consonant_class) (transliterate conv word) ->
  findall (pattern (fst regex_pol_ipa)) (transliterate conv word) = []
  /\ fst (syllabify word conv regex_pol_ipa false st) = transliterate conv word.
Proof.
  intros Hst Hne Hall.
  destruct (pol_value_consonants word conv Hne Hall) as [Hprimary Hvalue].
  split; [exact Hprimary|].
  rewrite (proj1 (syllabify_ok word conv regex_pol_ipa false st Hst)). exact Hvalue.
Qed.

(** X19. For a phonemic string over the Polish inventory, an onset of
    consonant-class characters followed by segments of a vowel or special
    vowel and consonant-class characters, the syllable pattern of
    [regex_pol_ipa] finds one match per nucleus, the nucleus with the runs on
    both sides of it; the joined result holds every character of the string,
    and once more those of the runs between two nuclei. *)
Theorem polish_syllables (word : str) (conv : converter)
    (onset : str) (segments : list (str * str)) (x : char) :
  well_formed pol_vowels pol_special_vowels pol_consonant_class onset segments ->
  transliterate conv word = onset ++ spell segments ->
  x <> 95%N ->
  findall (pattern (fst regex_pol_ipa)) (transliterate conv word)
  = syllables_of onset segments
  /\ length (findall (pattern (fst regex_pol_ipa)) (transliterate conv word))
     = length segments
  /\ count x (syllabify_value word conv regex_pol_ipa false)
     = count x (transliterate conv word) + count x (concat (inner_codas segments)).
Proof.
  intros Hwf Hword Hx.
  assert (Hfind : findall (pattern (fst regex_pol_ipa)) (transliterate conv word)
                  = syllables_of onset segments).
  { rewrite Hword. apply (nasal_findall_syllables _ _ _ pol_profile_ok). exact Hwf. }
  split; [exact Hfind|]. split.
  { rewrite Hfind. clear. revert onset.
    induction segments as [|[n coda] segments IH]; intros onset; [reflexivity|].
    cbn [syllables_of length]. rewrite IH. reflexivity. }
  destruct segments as [|[n coda] segments].
  - cbn [spell flat_map] in Hword. rewrite app_nil_r in Hword.
    cbn [inner_codas map removelast concat]. unfold count at 3. cbn [count_occ].
    rewrite Nat.add_0_r. f_equal.
    destruct onset as [|y onset].
    + rewrite (syllabify_value_empty word conv regex_pol_ipa false Hword), Hword.
      reflexivity.
    + apply pol_value_consonants.
      * rewrite Hword. discriminate.
      * rewrite Hword. exact (proj1 Hwf).
  - rewrite syllabify_value_eq. cbn zeta. rewrite Hfind. cbn [syllables_of].
    rewrite count_join.
    + rewrite Hword.
      apply (count_syllables x ((n, coda) :: segments) onset). discriminate.
    + unfold count, underscore. change (u "_") with [95%N]. cbn [count_occ].
      destruct (N.eq_dec 95%N x); [congruence|reflexivity].
Qed.

(** X20. The result of [syllabify_line] does not depend on what a coherent
    cache holds, and the call leaves the cache coherent. *)
Theorem line_result_ignores_the_cache (lower : str -> str) (line : str)
    (conv : converter) (pat : compiled * compiled) (nsp : substituter)
    (add_boundaries as_event : bool) (st st' : process) :
  cache_ok conv pat st -> cache_ok conv pat st' ->
  fst (syllabify_line lower line conv pat nsp add_boundaries as_event st)
  = fst (syllabify_line lower line conv pat nsp add_boundaries as_event st')
  /\ cache_ok conv pat
       (snd (syllabify_line lower line conv pat nsp add_boundaries as_event st)).
Proof.
  intros Hst Hst'.
  destruct (syllabify_line_ok lower line conv pat nsp add_boundaries as_event st Hst)
    as [-> Hok].
  rewrite (proj1 (syllabify_line_ok lower line conv pat nsp add_boundaries as_event
                    st' Hst')).
  split; [reflexivity|exact Hok].
Qed.

Lemma syllabify_calls_bound word conv pat ab st :
  length (invocations (snd (syllabify word conv pat ab st)))
  <= length (invocations st) + 2.
Proof.
  unfold syllabify.
  destruct (cache st !! keyword_key word conv pat ab) as [value|]; [cbn [snd]; lia|].
  pose proof (syllabify_calls_eq word conv pat ab) as Hcalls.
  destruct (syllabify_body word conv pat ab) as [value calls].
  cbn [snd invocations] in *. rewrite length_app, Hcalls.
  destruct (findall _ _); cbn [length]; lia.
Qed.

Lemma syllabify_words_calls_bound words conv pat ab :
  forall acc st,
    length (invocations (snd (syllabify_words words conv pat ab acc st)))
    <= length (invocations st) + 2 * length words.
Proof.
  induction words as [|word words IH]; intros acc st; [cbn; lia|].
  cbn [syllabify_words]. unfold m_bind.
  pose proof (syllabify_calls_bound word conv pat ab st) as Hone.
  destruct (syllabify word conv pat ab st) as [s st1]. cbn [snd] in Hone.
  specialize (IH (if decide (s <> u "##") then acc ++ [s] else acc) st1).
  cbn [length]. lia.
Qed.

(** X21. One call of [syllabify_line] runs at most two [findall] calls per
    word of the line (the syllable pattern and, when it finds nothing, the
    consonant pattern), and none for a word already in the cache. *)
Theorem line_runs_two_findall_per_word (lower : str -> str) (line : str)
    (conv : converter) (pat : compiled * compiled) (nsp : substituter)
    (add_boundaries as_event : bool) (st : process) :
  length (invocations
            (snd (syllabify_line lower line conv pat nsp add_boundaries as_event st)))
  <= length (invocations st)
     + 2 * length (tokenize lower (sub nsp (u " ") line)).
Proof.
  unfold syllabify_line, m_bind.
  pose proof (syllabify_words_calls_bound (tokenize lower (sub nsp (u " ") line))
                conv pat add_boundaries [] st) as H.
  destruct (syllabify_words _ conv pat add_boundaries [] st) as [syllables st1].
  exact H.
Qed.

(** X22. When [chunksize * numcores] is above [sys.maxsize] the generator
    raises before it yields anything, whatever the lines ([Pool] refuses a
    [numcores] below one, [islice] the product otherwise), and
    [syllabify_corpus] writes no record. *)
Theorem generator_refuses_large_batches (lower : str -> str) (lines : list str)
    (conv : converter) (pat : compiled * compiled) (nsp : substituter)
    (add_boundaries as_event : bool) (numcores chunksize : Z) (parent : process)
    (sched : nat -> nat -> nat) :
  (sys_maxsize < chunksize * numcores)%Z ->
  syllabify_corpus_generator lower lines conv pat nsp add_boundaries as_event
    numcores chunksize parent sched = None
  /\ syllabify_corpus lower lines conv pat nsp add_boundaries numcores chunksize
       parent sched = None.
Proof.
  intros Hmax.
  assert (Hgen : forall ev,
             syllabify_corpus_generator lower lines conv pat nsp add_boundaries ev
               numcores chunksize parent sched = None).
  { intros ev. unfold syllabify_corpus_generator.
    destruct (numcores <? 1)%Z; [reflexivity|].
    rewrite chunk_out_of_range by (right; exact Hmax). reflexivity. }
  split; [apply Hgen|]. unfold syllabify_corpus. rewrite Hgen. reflexivity.
Qed.



(** * Instances of the further properties *)

Lemma outcomes_split_back_witness :
  tokenize ascii_lower (sub not_lowercase (u " ") (u "Cat! dog?")) <> []
  /\ Forall (fun word => 95%N ∉ word)
            (tokenize ascii_lower (sub not_lowercase (u " ") (u "Cat! dog?")))
  /\ exists cues outcomes,
       fst (syllabify_line ascii_lower (u "Cat! dog?") identity_converter regex_en_ipa
              not_lowercase true true fresh)
       = Event cues outcomes
       /\ split_on 95%N outcomes
          = tokenize ascii_lower (sub not_lowercase (u " ") (u "Cat! dog?")).
Proof.
  assert (H1 : tokenize ascii_lower (sub not_lowercase (u " ") (u "Cat! dog?")) <> [])
    by (vm_compute; discriminate).
  assert (H2 : Forall (fun word => 95%N ∉ word)
                 (tokenize ascii_lower (sub not_lowercase (u " ") (u "Cat! dog?"))))
    by (apply (bool_decide_unpack _); vm_compute; exact I).
  split; [exact H1|]. split; [exact H2|].
  apply (outcomes_split_back ascii_lower (u "Cat! dog?") identity_converter regex_en_ipa
           not_lowercase true fresh H1 H2).
Defined.

Lemma no_word_dropped_without_boundaries_witness :
  (regex_en_ipa = regex_en_ipa \/ regex_en_ipa = regex_pol_ipa)
  /\ cache_ok identity_converter regex_en_ipa fresh
  /\ fst (syllabify_line ascii_lower (u "x ti") identity_converter regex_en_ipa
            not_lowercase false false fresh)
     = Syllables [[]; u "ti"].
Proof.
  assert (Hfresh : cache_ok identity_converter regex_en_ipa fresh).
  { intros word ab value H. simpl in H. rewrite lookup_empty in H. discriminate. }
  split; [left; reflexivity|]. split; [exact Hfresh|].
  exact (no_word_dropped_without_boundaries ascii_lower (u "x ti") identity_converter
           regex_en_ipa not_lowercase fresh (or_introl eq_refl) Hfresh).
Defined.

Lemma word_outside_the_inventory_witness :
  Forall (fun x => x ∉ en_vowels ++ u "aeo") (transliterate identity_converter (u "xq"))
  /\ Exists (fun x => (x ∉ en_consonants) /\ x <> newline)
            (transliterate identity_converter (u "xq"))
  /\ syllabify_value (u "xq") identity_converter regex_en_ipa true = u "##".
Proof.
  assert (H1 : Forall (fun x => x ∉ en_vowels ++ u "aeo")
                 (transliterate identity_converter (u "xq")))
    by (apply (bool_decide_unpack _); vm_compute; exact I).
  assert (H2 : Exists (fun x => (x ∉ en_consonants) /\ x <> newline)
                 (transliterate identity_converter (u "xq")))
    by (apply (bool_decide_unpack _); vm_compute; exact I).
  split; [exact H1|]. split; [exact H2|].
  exact (proj2 (proj2 (word_outside_the_inventory (u "xq") identity_converter true H1 H2))).
Defined.

Lemma generator_refuses_sizes_witness :
  ((0 < 1)%Z \/ (3 < 0)%Z)
  /\ syllabify_corpus_generator ascii_lower [u "ti"] identity_converter regex_en_ipa
       not_lowercase true true 0 3 fresh round_robin = None.
Proof.
  split; [left; lia|].
  apply (generator_refuses_sizes ascii_lower [u "ti"] identity_converter regex_en_ipa
           not_lowercase true true 0 3 fresh round_robin).
  left. lia.
Defined.

Lemma zero_chunksize_yields_nothing_witness :
  (1 <= 2)%Z
  /\ syllabify_corpus_generator ascii_lower [u "ti"; u "titi"] identity_converter
       regex_en_ipa not_lowercase true true 2 0 fresh round_robin = Some []
  /\ syllabify_corpus ascii_lower [u "ti"; u "titi"] identity_converter regex_en_ipa
       not_lowercase true 2 0 fresh round_robin = Some [].
Proof.
  split; [lia|].
  apply (zero_chunksize_yields_nothing ascii_lower [u "ti"; u "titi"] identity_converter
           regex_en_ipa not_lowercase true true 2 fresh round_robin). lia.
Defined.

Lemma chunk_count_witness :
  (1 <= 2 <= sys_maxsize)%Z
  /\ exists chunks,
       chunk [1; 2; 3; 4; 5] 2 = Some chunks
       /\ length chunks = (length [1; 2; 3; 4; 5] + Z.to_nat 2 - 1) / Z.to_nat 2.
Proof.
  assert (Hsize : (1 <= 2 <= sys_maxsize)%Z) by (split; vm_compute; discriminate).
  split; [exact Hsize|]. apply (chunk_count [1; 2; 3; 4; 5] 2 Hsize).
Defined.

Lemma batch_has_a_task_per_worker_witness :
  (1 <= 2)%Z /\ (1 <= 3)%Z /\ (3 * 2 <= sys_maxsize)%Z
  /\ exists batches,
       chunk [1; 2; 3; 4; 5; 6; 7; 8] (3 * 2) = Some batches
       /\ Forall (fun batch => exists tasks,
                    chunk batch 3 = Some tasks /\ (Z.of_nat (length tasks) <= 2)%Z)
                 batches.
Proof.
  assert (Hmax : (3 * 2 <= sys_maxsize)%Z) by (vm_compute; discriminate).
  split; [lia|]. split; [lia|]. split; [exact Hmax|].
  apply (batch_has_a_task_per_worker [1; 2; 3; 4; 5; 6; 7; 8] 2 3); [lia|lia|exact Hmax].
Defined.

Lemma first_lines_give_first_results_witness :
  (1 <= 2)%Z /\ (1 <= 1)%Z /\ (1 * 2 <= sys_maxsize)%Z
  /\ (1 <= 1)%Z /\ (1 <= 5)%Z /\ (5 * 1 <= sys_maxsize)%Z
  /\ cache_ok identity_converter regex_en_ipa fresh
  /\ exists results,
       syllabify_corpus_generator ascii_lower [u "ti"; u "titi"; u "x"]
         identity_converter regex_en_ipa not_lowercase true true 2 1 fresh round_robin
       = Some results
       /\ syllabify_corpus_generator ascii_lower
            (fst (corpus_first_lines [u "ti"; u "titi"; u "x"] 2))
            identity_converter regex_en_ipa not_lowercase true true 1 5 fresh round_robin
          = Some (take (Z.to_nat 2) results).
Proof.
  assert (Hfresh : cache_ok identity_converter regex_en_ipa fresh).
  { intros word ab value H. simpl in H. rewrite lookup_empty in H. discriminate. }
  assert (Hmax : (1 * 2 <= sys_maxsize)%Z) by (vm_compute; discriminate).
  assert (Hmax' : (5 * 1 <= sys_maxsize)%Z) by (vm_compute; discriminate).
  split; [lia|]. split; [lia|]. split; [exact Hmax|].
  split; [lia|]. split; [lia|]. split; [exact Hmax'|]. split; [exact Hfresh|].
  apply (first_lines_give_first_results ascii_lower [u "ti"; u "titi"; u "x"] 2
           identity_converter regex_en_ipa not_lowercase true true 2 1 1 5 fresh fresh
           round_robin round_robin); [lia|lia|exact Hmax|lia|lia|exact Hmax'|..];
    exact Hfresh.
Defined.

Lemma corpus_output_is_independent_witness :
  (1 <= 2)%Z /\ (1 <= 1)%Z /\ (1 * 2 <= sys_maxsize)%Z
  /\ (1 <= 1)%Z /\ (1 <= 5)%Z /\ (5 * 1 <= sys_maxsize)%Z
  /\ cache_ok identity_converter regex_en_ipa fresh
  /\ exists written,
       syllabify_corpus ascii_lower [u "ti"; u "titi"; u "x"] identity_converter
         regex_en_ipa not_lowercase true 2 1 fresh round_robin = Some written
       /\ syllabify_corpus ascii_lower [u "ti"; u "titi"; u "x"] identity_converter
            regex_en_ipa not_lowercase true 1 5 fresh (fun _ _ => 0) = Some written.
Proof.
  assert (Hfresh : cache_ok identity_converter regex_en_ipa fresh).
  { intros word ab value H. simpl in H. rewrite lookup_empty in H. discriminate. }
  assert (Hmax : (1 * 2 <= sys_maxsize)%Z) by (vm_compute; discriminate).
  assert (Hmax' : (5 * 1 <= sys_maxsize)%Z) by (vm_compute; discriminate).
  split; [lia|]. split; [lia|]. split; [exact Hmax|].
  split; [lia|]. split; [lia|]. split; [exact Hmax'|]. split; [exact Hfresh|].
  apply (corpus_output_is_independent ascii_lower [u "ti"; u "titi"; u "x"]
           identity_converter regex_en_ipa not_lowercase true 2 1 1 5 fresh fresh
           round_robin (fun _ _ => 0)); [lia|lia|exact Hmax|lia|lia|exact Hmax'|..];
    exact Hfresh.
Defined.

Lemma english_to_ipa_removes_marks_witness :
  (fun w : str => w) [98; 633; 809; 100]%N = concat [[98]; syllabic_r; [100]]%N
  /\ Forall (fun p => p = syllabic_r \/ exists y, p = [y] /\ y <> 809%N)
            [[98]; syllabic_r; [100]]%N
  /\ english_to_ipa (fun w => w) [98; 633; 809; 100]%N = [98; 601; 633; 100]%N
  /\ 809%N ∉ english_to_ipa (fun w => w) [98; 633; 809; 100]%N.
Proof.
  assert (Hall : Forall (fun p => p = syllabic_r \/ exists y, p = [y] /\ y <> 809%N)
                   [[98]; syllabic_r; [100]]%N).
  { repeat (apply Forall_cons; split);
      [right; exists 98%N; split; [reflexivity|discriminate]
      |left; reflexivity
      |right; exists 100%N; split; [reflexivity|discriminate]
      |apply Forall_nil_2]. }
  split; [reflexivity|]. split; [exact Hall|].
  exact (english_to_ipa_removes_marks (fun w => w) [98; 633; 809; 100]%N
           [[98]; syllabic_r; [100]]%N eq_refl Hall).
Defined.

Lemma polish_consonant_word_witness :
  cache_ok identity_converter regex_pol_ipa fresh
  /\ transliterate identity_converter [116; 865; 115; 124]%N <> []
  /\ Forall (fun x => x ∈ pol_consonant_class)
            (transliterate identity_converter [116; 865; 115; 124]%N)
  /\ fst (syllabify [116; 865; 115; 124]%N identity_converter regex_pol_ipa false fresh)
     = transliterate identity_converter [116; 865; 115; 124]%N.
Proof.
  assert (Hfresh : cache_ok identity_converter regex_pol_ipa fresh).
  { intros word ab value H. simpl in H. rewrite lookup_empty in H. discriminate. }
  assert (Hall : Forall (fun x => x ∈ pol_consonant_class)
                   (transliterate identity_converter [116; 865; 115; 124]%N))
    by (apply (bool_decide_unpack _); vm_compute; exact I).
  split; [exact Hfresh|]. split; [discriminate|]. split; [exact Hall|].
  apply (polish_consonant_word [116; 865; 115; 124]%N identity_converter fresh Hfresh);
    [discriminate|exact Hall].
Defined.

Lemma polish_syllables_witness :
  well_formed pol_vowels pol_special_vowels pol_consonant_class [116]%N
    [([603; 771], [116]); ([97], [])]%N
  /\ transliterate identity_converter [116; 603; 771; 116; 97]%N
     = [116]%N ++ spell [([603; 771], [116]); ([97], [])]%N
  /\ 116%N <> 95%N
  /\ findall (pattern (fst regex_pol_ipa))
       (transliterate identity_converter [116; 603; 771; 116; 97]%N)
     = [[116; 603; 771; 116]; [116; 97]]%N.
Proof.
  assert (Hwf : well_formed pol_vowels pol_special_vowels pol_consonant_class [116]%N
                  [([603; 771], [116]); ([97], [])]%N).
  { split.
    - apply (bool_decide_unpack _). vm_compute. exact I.
    - apply Forall_cons. split.
      + split; [right|]; apply (bool_decide_unpack _); vm_compute; exact I.
      + apply Forall_cons. split; [|apply Forall_nil_2].
        split; [left; exists 97%N; split; [reflexivity|]|];
          apply (bool_decide_unpack _); vm_compute; exact I. }
  split; [exact Hwf|]. split; [reflexivity|]. split; [discriminate|].
  exact (proj1 (polish_syllables [116; 603; 771; 116; 97]%N identity_converter [116]%N
                  [([603; 771], [116]); ([97], [])]%N 116%N Hwf eq_refl
                  ltac:(discriminate))).
Defined.

Lemma line_result_ignores_the_cache_witness :
  cache_ok identity_converter regex_en_ipa fresh
  /\ fst (syllabify_line ascii_lower (u "ti x") identity_converter regex_en_ipa
            not_lowercase true true fresh)
     = fst (syllabify_line ascii_lower (u "ti x") identity_converter regex_en_ipa
              not_lowercase true true
              (snd (syllabify_line ascii_lower (u "x titi") identity_converter
                      regex_en_ipa not_lowercase true true fresh))).
Proof.
  assert (Hfresh : cache_ok identity_converter regex_en_ipa fresh).
  { intros word ab value H. simpl in H. rewrite lookup_empty in H. discriminate. }
  split; [exact Hfresh|].
  apply (line_result_ignores_the_cache ascii_lower (u "ti x") identity_converter
           regex_en_ipa not_lowercase true true fresh _ Hfresh).
  exact (proj2 (line_result_ignores_the_cache ascii_lower (u "x titi") identity_converter
                  regex_en_ipa not_lowercase true true fresh fresh Hfresh Hfresh)).
Defined.

Lemma generator_refuses_large_batches_witness :
  (sys_maxsize < 2 ^ 62 * 2)%Z
  /\ syllabify_corpus_generator ascii_lower [u "ti"] identity_converter regex_en_ipa
       not_lowercase true true 2 (2 ^ 62) fresh round_robin = None.
Proof.
  assert (Hmax : (sys_maxsize < 2 ^ 62 * 2)%Z) by (vm_compute; reflexivity).
  split; [exact Hmax|].
  exact (proj1 (generator_refuses_large_batches ascii_lower [u "ti"] identity_converter
                  regex_en_ipa not_lowercase true true 2 (2 ^ 62) fresh round_robin
                  Hmax)).
Defined.
